(** * The 2D-subspace trust-region step of multifit_nlinear/subspace2D.c

    A shallow embedding of [subspace2D_preloop], [subspace2D_step],
    [subspace2D_solution] and [subspace2D_objective] in exact rational
    arithmetic: a C [double] is a rational number and [+ - * /] do not round.
    In C the quotient by zero is an infinity or a NaN and the run goes on; a
    rational quotient by zero has no value, and the run of the model ends in
    the outcome [DivByZero].  The same holds for the one kernel that divides
    by entries of its argument, the triangular solve of
    [gsl_linalg_QRPT_solve]: it has no value on a singular system.  The
    theorems are therefore about runs in which every quotient is a number;
    rounding, overflow and underflow are not modelled.

    The functions are written in a small state and error monad over the
    objects a call can write: the state structure, the caller's step vector
    and a trace of what goes to stderr and to the GSL error handler.  The
    linear-algebra kernels, the polynomial root finder and the injected linear
    solver are the methods of two interfaces, so the theorems hold for every
    implementation of them; exact implementations for two-parameter problems
    instantiate the theorems in the examples at the end. *)

From Stdlib Require Import QArith Qabs ZArith List String Bool Lia Lqa.
From Stdlib Require Reals Lra.
Import ListNotations.

Local Open Scope Q_scope.

Module Subspace2D.

(** ** Scalars, vectors, matrices *)

Definition double := Q.

(** [x < y] on doubles, as a boolean. *)
Definition Qlt_bool (x y : Q) : bool := negb (Qle_bool y x).

(** [gsl_vector]: [size] is the length of the list, the stride is 1. *)
Definition gsl_vector := list double.

(** [gsl_matrix]: the list of its rows. *)
Definition gsl_matrix := list (list double).

(** A [gsl_vector] of size 2 ([subg], the local [x_data[2]]). *)
Definition vec2 := (double * double)%type.

(** A [gsl_matrix] of size 2-by-2 ([subB]); [mIJ] is entry (I, J). *)
Record mat2 := Mat2 { m00 : double; m01 : double; m10 : double; m11 : double }.

Definition gsl_permutation := list nat.

(** The companion-matrix scratch of the root finder. *)
Definition gsl_poly_complex_workspace := list double.

(** C [int] status codes. *)
Definition GSL_SUCCESS : Z := 0%Z.

(** Modelled from the spec: [GSL_EINVAL] of gsl_errno.h, the code passed to
    the error handler by the range checks of gsl_vector_double.h. *)
Definition GSL_EINVAL : Z := 4%Z.

(** Modelled from the spec: [GSL_DBL_EPSILON] of gsl_machine.h, the machine
    epsilon of a double, 2^-52 = 2.2204460492503131e-16. *)
Definition GSL_DBL_EPSILON : double := 1 # (2 ^ 52).

(** ** The state of the method *)

(** [subspace2D_state_t].  The field [params], a copy of the tunable
    parameters that none of the functions below reads, is left out. *)
Record subspace2D_state_t := {
  n : nat;                  (* number of observations *)
  p : nat;                  (* number of parameters *)
  dx_gn : gsl_vector;       (* Gauss-Newton step, size p *)
  dx_sd : gsl_vector;       (* steepest descent step, size p *)
  norm_gn : double;         (* || dx_gn || *)
  norm_sd : double;         (* || dx_sd || *)
  workp : gsl_vector;       (* workspace, length p *)
  workn : gsl_vector;       (* workspace, length n *)
  W : gsl_matrix;           (* orthonormal basis for 2D subspace, p-by-2 *)
  J : gsl_matrix;           (* copy of Jacobian matrix, n-by-p *)
  tau : gsl_vector;         (* Householder scalars *)
  subg : vec2;              (* subspace gradient = W^T g, 2-by-1 *)
  subB : mat2;              (* subspace Hessian = W^T B W, 2-by-2 *)
  perm : gsl_permutation;   (* permutation matrix *)
  trB : double;             (* Tr(subB) *)
  detB : double;            (* det(subB) *)
  normg : double;           (* || subg || *)
  term0 : double;           (* g^T adj(B)^T adj(B) g *)
  term1 : double;           (* g^T adj(B)^T g *)
  rank : nat;               (* rank of [ dx_sd, dx_gn ] matrix *)
  poly_p : gsl_poly_complex_workspace
}.

(** The text of [fprintf(stderr, "ERROR: did not find minimizer\n")]. *)
Definition did_not_find_minimizer : string :=
  String.append "ERROR: did not find minimizer"
    (String (Ascii.ascii_of_nat 10) EmptyString).

(** What a call leaves behind outside its arguments: a line on stderr, or a
    call of the GSL error handler [gsl_error (reason, file, line, errno)]. *)
Inductive event :=
| Stderr (msg : string)
| GslError (reason : string) (gsl_errno : Z).

(** The objects a call of the method can write: the state behind [vstate],
    the caller's step vector behind [dx], and the trace of events. *)
Record mem := Mem {
  m_state : subspace2D_state_t;
  m_dx : gsl_vector;
  m_log : list event
}.

(** ** A state and error monad *)

Inductive result (A : Type) :=
| Ok (a : A)
| DivByZero.
Arguments Ok {A} a.
Arguments DivByZero {A}.

Definition M (A : Type) := mem -> result (A * mem).

Definition ret {A} (a : A) : M A := fun m => Ok (a, m).

Definition bind {A B} (c : M A) (k : A -> M B) : M B :=
  fun m => match c m with
           | Ok (a, m') => k a m'
           | DivByZero => DivByZero
           end.

Notation "x <- c ;; k" := (bind c (fun x => k))
  (at level 61, c at next level, right associativity).
Notation "c ;;; k" := (bind c (fun _ => k))
  (at level 61, right associativity).

Definition get_state : M subspace2D_state_t := fun m => Ok (m_state m, m).
Definition put_state (s : subspace2D_state_t) : M unit :=
  fun m => Ok (tt, Mem s (m_dx m) (m_log m)).
Definition get_dx : M gsl_vector := fun m => Ok (m_dx m, m).
Definition put_dx (v : gsl_vector) : M unit :=
  fun m => Ok (tt, Mem (m_state m) v (m_log m)).
Definition modify (f : subspace2D_state_t -> subspace2D_state_t) : M unit :=
  fun m => Ok (tt, Mem (f (m_state m)) (m_dx m) (m_log m)).
Definition emit (e : event) : M unit :=
  fun m => Ok (tt, Mem (m_state m) (m_dx m) (m_log m ++ [e])).

(** [wp D c Q m]: the run of [c] from [m] ends in a value and a memory that
    satisfy [Q], or in a division by zero when [D] holds. *)
Definition wp {A} (D : Prop) (c : M A) (Q : A -> mem -> Prop) (m : mem) : Prop :=
  match c m with
  | Ok (a, m') => Q a m'
  | DivByZero => D
  end.

(** [x / y] on doubles: no value when [y] is zero. *)
Definition fdiv (x y : double) : M double :=
  fun m => if Qeq_bool y 0 then DivByZero else Ok (x / y, m).

(** The result of a kernel that divides: no value, and the run ends in
    [DivByZero], where one of its divisors is zero. *)
Definition or_div_by_zero {A} (o : option A) : M A :=
  fun m => match o with
           | Some a => Ok (a, m)
           | None => DivByZero
           end.

(** ** The error macros of gsl_errno.h *)

(** Modelled from the spec: [GSL_ERROR (reason, gsl_errno)], by which a
    function propagates a failure: it calls the error handler and makes the
    function return [gsl_errno]. *)
Definition GSL_ERROR (reason : string) (gsl_errno : Z) : M Z :=
  emit (GslError reason gsl_errno) ;;; ret gsl_errno.

(** Modelled from the spec: [GSL_ERROR_RETURN (reason, gsl_errno, value)]
    and [GSL_ERROR_RETURN_NOTHING (reason, gsl_errno)], the same with a
    return value of the function's type, or none. *)
Definition GSL_ERROR_RETURN {A} (reason : string) (gsl_errno : Z) (value : A)
  : M A :=
  emit (GslError reason gsl_errno) ;;; ret value.

Definition GSL_ERROR_RETURN_NOTHING (reason : string) (gsl_errno : Z) : M unit :=
  emit (GslError reason gsl_errno).

(** ** Vector primitives *)

(** Modelled from the spec: [gsl_vector_memcpy (dest, src)], [dx = dx_gn]:
    the destination holds the source afterwards. *)
Definition gsl_vector_memcpy (dest src : gsl_vector) : gsl_vector := src.

(** Modelled from the spec: [gsl_vector_scale (a, x)], [dx_sd * (delta /
    norm_sd)]: every entry is multiplied by [x]. *)
Definition gsl_vector_scale (a : gsl_vector) (x : double) : gsl_vector :=
  map (fun ai => ai * x) a.

(** Modelled from the spec: [gsl_vector_set_zero (v)]: every entry is 0. *)
Definition gsl_vector_set_zero (v : gsl_vector) : gsl_vector :=
  map (fun _ => 0) v.

Fixpoint replace_nth (i : nat) (v : gsl_vector) (x : double) : gsl_vector :=
  match v, i with
  | [], _ => []
  | _ :: t, O => x :: t
  | h :: t, S j => h :: replace_nth j t x
  end.

(** [gsl_vector_set (dx, i, x)] of gsl_vector_double.h, on the caller's [dx]:
    an index out of range calls the error handler and writes nothing. *)
Definition gsl_vector_set_dx (i : nat) (x : double) : M unit :=
  v <- get_dx ;;
  if (List.length v <=? i)%nat
  then GSL_ERROR_RETURN_NOTHING "index out of range" GSL_EINVAL
  else put_dx (replace_nth i v x).

(** Modelled from the spec: [gsl_blas_ddot] on two 2-vectors, the dot
    product. *)
Definition gsl_blas_ddot (x y : vec2) : double :=
  fst x * fst y + snd x * snd y.

(** Modelled from the spec: [gsl_blas_dsymv (CblasLower, alpha, A, x, 0.0, y)]
    on a 2-by-2 matrix: [y = alpha * A * x], where the symmetric [A] is read
    from its lower triangle only. *)
Definition gsl_blas_dsymv_lower (alpha : double) (A : mat2) (x : vec2) : vec2 :=
  (alpha * (m00 A * fst x + m10 A * snd x),
   alpha * (m10 A * fst x + m11 A * snd x)).

(** [gsl_vector_get (v, i)] of gsl_vector_double.h: an index out of range
    calls the error handler and yields 0. *)
Definition gsl_vector_get (v : gsl_vector) (i : nat) : M double :=
  if (List.length v <=? i)%nat
  then GSL_ERROR_RETURN "index out of range" GSL_EINVAL 0
  else ret (nth i v 0).

(** Modelled from the spec: [gsl_matrix_column (A, j)] followed by
    [gsl_vector_memcpy] into the view, [W = [dx_sd | dx_gn]]: column [j] of
    [A] holds [v] afterwards. *)
Fixpoint set_column (A : gsl_matrix) (j : nat) (v : gsl_vector) : gsl_matrix :=
  match A, v with
  | row :: A', vi :: v' => replace_nth j row vi :: set_column A' j v'
  | _, _ => A
  end.

(** Modelled from the spec: [gsl_matrix_submatrix (A, i, j, n1, n2)], the
    [n1]-by-[n2] block of [A] whose upper left entry is (i, j). *)
Definition gsl_matrix_submatrix (A : gsl_matrix) (i j n1 n2 : nat) : gsl_matrix :=
  map (fun row => firstn n2 (skipn j row)) (firstn n1 (skipn i A)).

(** Modelled from the spec: [gsl_matrix_memcpy (dest, src)]. *)
Definition gsl_matrix_memcpy (dest src : gsl_matrix) : gsl_matrix := src.

(** ** Setters of the state fields: [state->f = v] *)

Definition set_dx_gn (s : subspace2D_state_t) (v : gsl_vector) : subspace2D_state_t :=
  {| n := n s; p := p s; dx_gn := v; dx_sd := dx_sd s; norm_gn := norm_gn s;
     norm_sd := norm_sd s; workp := workp s; workn := workn s; W := W s;
     J := J s; tau := tau s; subg := subg s; subB := subB s; perm := perm s;
     trB := trB s; detB := detB s; normg := normg s; term0 := term0 s;
     term1 := term1 s; rank := rank s; poly_p := poly_p s |}.

Definition set_dx_sd (s : subspace2D_state_t) (v : gsl_vector) : subspace2D_state_t :=
  {| n := n s; p := p s; dx_gn := dx_gn s; dx_sd := v; norm_gn := norm_gn s;
     norm_sd := norm_sd s; workp := workp s; workn := workn s; W := W s;
     J := J s; tau := tau s; subg := subg s; subB := subB s; perm := perm s;
     trB := trB s; detB := detB s; normg := normg s; term0 := term0 s;
     term1 := term1 s; rank := rank s; poly_p := poly_p s |}.

Definition set_norm_gn (s : subspace2D_state_t) (v : double) : subspace2D_state_t :=
  {| n := n s; p := p s; dx_gn := dx_gn s; dx_sd := dx_sd s; norm_gn := v;
     norm_sd := norm_sd s; workp := workp s; workn := workn s; W := W s;
     J := J s; tau := tau s; subg := subg s; subB := subB s; perm := perm s;
     trB := trB s; detB := detB s; normg := normg s; term0 := term0 s;
     term1 := term1 s; rank := rank s; poly_p := poly_p s |}.

Definition set_norm_sd (s : subspace2D_state_t) (v : double) : subspace2D_state_t :=
  {| n := n s; p := p s; dx_gn := dx_gn s; dx_sd := dx_sd s;
     norm_gn := norm_gn s; norm_sd := v; workp := workp s; workn := workn s;
     W := W s; J := J s; tau := tau s; subg := subg s; subB := subB s;
     perm := perm s; trB := trB s; detB := detB s; normg := normg s;
     term0 := term0 s; term1 := term1 s; rank := rank s;
     poly_p := poly_p s |}.

Definition set_workp (s : subspace2D_state_t) (v : gsl_vector) : subspace2D_state_t :=
  {| n := n s; p := p s; dx_gn := dx_gn s; dx_sd := dx_sd s;
     norm_gn := norm_gn s; norm_sd := norm_sd s; workp := v;
     workn := workn s; W := W s; J := J s; tau := tau s; subg := subg s;
     subB := subB s; perm := perm s; trB := trB s; detB := detB s;
     normg := normg s; term0 := term0 s; term1 := term1 s; rank := rank s;
     poly_p := poly_p s |}.

Definition set_workn (s : subspace2D_state_t) (v : gsl_vector) : subspace2D_state_t :=
  {| n := n s; p := p s; dx_gn := dx_gn s; dx_sd := dx_sd s;
     norm_gn := norm_gn s; norm_sd := norm_sd s; workp := workp s;
     workn := v; W := W s; J := J s; tau := tau s; subg := subg s;
     subB := subB s; perm := perm s; trB := trB s; detB := detB s;
     normg := normg s; term0 := term0 s; term1 := term1 s; rank := rank s;
     poly_p := poly_p s |}.

Definition set_W (s : subspace2D_state_t) (v : gsl_matrix) : subspace2D_state_t :=
  {| n := n s; p := p s; dx_gn := dx_gn s; dx_sd := dx_sd s;
     norm_gn := norm_gn s; norm_sd := norm_sd s; workp := workp s;
     workn := workn s; W := v; J := J s; tau := tau s; subg := subg s;
     subB := subB s; perm := perm s; trB := trB s; detB := detB s;
     normg := normg s; term0 := term0 s; term1 := term1 s; rank := rank s;
     poly_p := poly_p s |}.

Definition set_J (s : subspace2D_state_t) (v : gsl_matrix) : subspace2D_state_t :=
  {| n := n s; p := p s; dx_gn := dx_gn s; dx_sd := dx_sd s;
     norm_gn := norm_gn s; norm_sd := norm_sd s; workp := workp s;
     workn := workn s; W := W s; J := v; tau := tau s; subg := subg s;
     subB := subB s; perm := perm s; trB := trB s; detB := detB s;
     normg := normg s; term0 := term0 s; term1 := term1 s; rank := rank s;
     poly_p := poly_p s |}.

Definition set_tau (s : subspace2D_state_t) (v : gsl_vector) : subspace2D_state_t :=
  {| n := n s; p := p s; dx_gn := dx_gn s; dx_sd := dx_sd s;
     norm_gn := norm_gn s; norm_sd := norm_sd s; workp := workp s;
     workn := workn s; W := W s; J := J s; tau := v; subg := subg s;
     subB := subB s; perm := perm s; trB := trB s; detB := detB s;
     normg := normg s; term0 := term0 s; term1 := term1 s; rank := rank s;
     poly_p := poly_p s |}.

Definition set_subg (s : subspace2D_state_t) (v : vec2) : subspace2D_state_t :=
  {| n := n s; p := p s; dx_gn := dx_gn s; dx_sd := dx_sd s;
     norm_gn := norm_gn s; norm_sd := norm_sd s; workp := workp s;
     workn := workn s; W := W s; J := J s; tau := tau s; subg := v;
     subB := subB s; perm := perm s; trB := trB s; detB := detB s;
     normg := normg s; term0 := term0 s; term1 := term1 s; rank := rank s;
     poly_p := poly_p s |}.

Definition set_subB (s : subspace2D_state_t) (v : mat2) : subspace2D_state_t :=
  {| n := n s; p := p s; dx_gn := dx_gn s; dx_sd := dx_sd s;
     norm_gn := norm_gn s; norm_sd := norm_sd s; workp := workp s;
     workn := workn s; W := W s; J := J s; tau := tau s; subg := subg s;
     subB := v; perm := perm s; trB := trB s; detB := detB s;
     normg := normg s; term0 := term0 s; term1 := term1 s; rank := rank s;
     poly_p := poly_p s |}.

Definition set_perm (s : subspace2D_state_t) (v : gsl_permutation) : subspace2D_state_t :=
  {| n := n s; p := p s; dx_gn := dx_gn s; dx_sd := dx_sd s;
     norm_gn := norm_gn s; norm_sd := norm_sd s; workp := workp s;
     workn := workn s; W := W s; J := J s; tau := tau s; subg := subg s;
     subB := subB s; perm := v; trB := trB s; detB := detB s;
     normg := normg s; term0 := term0 s; term1 := term1 s; rank := rank s;
     poly_p := poly_p s |}.

Definition set_trB (s : subspace2D_state_t) (v : double) : subspace2D_state_t :=
  {| n := n s; p := p s; dx_gn := dx_gn s; dx_sd := dx_sd s;
     norm_gn := norm_gn s; norm_sd := norm_sd s; workp := workp s;
     workn := workn s; W := W s; J := J s; tau := tau s; subg := subg s;
     subB := subB s; perm := perm s; trB := v; detB := detB s;
     normg := normg s; term0 := term0 s; term1 := term1 s; rank := rank s;
     poly_p := poly_p s |}.

Definition set_detB (s : subspace2D_state_t) (v : double) : subspace2D_state_t :=
  {| n := n s; p := p s; dx_gn := dx_gn s; dx_sd := dx_sd s;
     norm_gn := norm_gn s; norm_sd := norm_sd s; workp := workp s;
     workn := workn s; W := W s; J := J s; tau := tau s; subg := subg s;
     subB := subB s; perm := perm s; trB := trB s; detB := v;
     normg := normg s; term0 := term0 s; term1 := term1 s; rank := rank s;
     poly_p := poly_p s |}.

Definition set_normg (s : subspace2D_state_t) (v : double) : subspace2D_state_t :=
  {| n := n s; p := p s; dx_gn := dx_gn s; dx_sd := dx_sd s;
     norm_gn := norm_gn s; norm_sd := norm_sd s; workp := workp s;
     workn := workn s; W := W s; J := J s; tau := tau s; subg := subg s;
     subB := subB s; perm := perm s; trB := trB s; detB := detB s;
     normg := v; term0 := term0 s; term1 := term1 s; rank := rank s;
     poly_p := poly_p s |}.

Definition set_term0 (s : subspace2D_state_t) (v : double) : subspace2D_state_t :=
  {| n := n s; p := p s; dx_gn := dx_gn s; dx_sd := dx_sd s;
     norm_gn := norm_gn s; norm_sd := norm_sd s; workp := workp s;
     workn := workn s; W := W s; J := J s; tau := tau s; subg := subg s;
     subB := subB s; perm := perm s; trB := trB s; detB := detB s;
     normg := normg s; term0 := v; term1 := term1 s; rank := rank s;
     poly_p := poly_p s |}.

Definition set_term1 (s : subspace2D_state_t) (v : double) : subspace2D_state_t :=
  {| n := n s; p := p s; dx_gn := dx_gn s; dx_sd := dx_sd s;
     norm_gn := norm_gn s; norm_sd := norm_sd s; workp := workp s;
     workn := workn s; W := W s; J := J s; tau := tau s; subg := subg s;
     subB := subB s; perm := perm s; trB := trB s; detB := detB s;
     normg := normg s; term0 := term0 s; term1 := v; rank := rank s;
     poly_p := poly_p s |}.

Definition set_rank (s : subspace2D_state_t) (v : nat) : subspace2D_state_t :=
  {| n := n s; p := p s; dx_gn := dx_gn s; dx_sd := dx_sd s;
     norm_gn := norm_gn s; norm_sd := norm_sd s; workp := workp s;
     workn := workn s; W := W s; J := J s; tau := tau s; subg := subg s;
     subB := subB s; perm := perm s; trB := trB s; detB := detB s;
     normg := normg s; term0 := term0 s; term1 := term1 s; rank := v;
     poly_p := poly_p s |}.

Definition set_poly_p (s : subspace2D_state_t) (v : gsl_poly_complex_workspace) : subspace2D_state_t :=
  {| n := n s; p := p s; dx_gn := dx_gn s; dx_sd := dx_sd s;
     norm_gn := norm_gn s; norm_sd := norm_sd s; workp := workp s;
     workn := workn s; W := W s; J := J s; tau := tau s; subg := subg s;
     subB := subB s; perm := perm s; trB := trB s; detB := detB s;
     normg := normg s; term0 := term0 s; term1 := term1 s; rank := rank s;
     poly_p := v |}.

(** ** The kernels the method calls

    The status these kernels return is dropped where subspace2D.c drops it.
    A pointer argument that a kernel only fills ([tau], [perm], [z], the
    root finder's workspace) is a component of the result; [signum] and the
    local work vectors, which nothing reads afterwards, are left out. *)
Class gsl_kernels := {
  (** [gsl_poly_complex_solve (a, 5, w, z)]: status, [z[8]], workspace. *)
  gsl_poly_complex_solve :
    list double -> Z * list double * gsl_poly_complex_workspace;
  (** [gsl_linalg_QRPT_decomp (A, tau, perm, &signum, norm)]: the factored
      [A], [tau] and [perm]. *)
  gsl_linalg_QRPT_decomp :
    gsl_matrix -> gsl_matrix * gsl_vector * gsl_permutation;
  (** [gsl_linalg_QRPT_solve (QR, tau, perm, b, x)] for a 2-vector: [x], or
      no value when the back substitution divides by a zero on the diagonal
      of [R] (in C the call returns all the same, with an infinity or a NaN
      in [x]). *)
  gsl_linalg_QRPT_solve :
    gsl_matrix -> gsl_vector -> gsl_permutation -> vec2 -> option vec2;
  (** [gsl_linalg_QR_Qvec (QR, tau, v)]: [v] afterwards. *)
  gsl_linalg_QR_Qvec : gsl_matrix -> gsl_vector -> gsl_vector -> gsl_vector;
  (** [gsl_linalg_QR_QTvec (QR, tau, v)]: [v] afterwards. *)
  gsl_linalg_QR_QTvec : gsl_matrix -> gsl_vector -> gsl_vector -> gsl_vector;
  (** [gsl_linalg_QR_matQ (QR, tau, A)]: [A] afterwards. *)
  gsl_linalg_QR_matQ : gsl_matrix -> gsl_vector -> gsl_matrix -> gsl_matrix;
  (** [gsl_blas_dnrm2 (x)]. *)
  gsl_blas_dnrm2 : gsl_vector -> double;
  (** [gsl_blas_dgemv (CblasNoTrans, alpha, A, x, beta, y)]: [y] afterwards. *)
  gsl_blas_dgemv :
    double -> gsl_matrix -> gsl_vector -> double -> gsl_vector -> gsl_vector;
  (** [gsl_blas_dsyrk (CblasLower, CblasTrans, alpha, A, beta, C)] with a
      2-by-2 [C]: [C] afterwards. *)
  gsl_blas_dsyrk : double -> gsl_matrix -> double -> mat2 -> mat2;
  (** [qr_nonsing (QR)] of common.c: the numerical rank. *)
  qr_nonsing : gsl_matrix -> nat
}.

(** ** The injected linear solver

    The part of [gsl_multifit_nlinear_trust_state] that the preloop reads;
    the solver's own state, behind [trust_state->solver_state], is passed
    next to it. *)
Record trust_state := {
  ts_f : gsl_vector;
  ts_g : gsl_vector;
  ts_J : gsl_matrix
}.

(** [trust_state->params->solver]: each method returns its status and the
    solver state it leaves; [solve] also returns the vector behind [x]. *)
Class gsl_multifit_nlinear_solver := {
  solver_state : Type;
  init : trust_state -> solver_state -> Z * solver_state;
  presolve : double -> trust_state -> solver_state -> Z * solver_state;
  solve : gsl_vector -> gsl_vector -> gsl_vector -> trust_state ->
          solver_state -> Z * gsl_vector * solver_state
}.

Section Step.

Context {K : gsl_kernels}.

(** ** subspace2D_solution: solve (B + lambda*I) x = -g *)

Definition subspace2D_solution (lambda : double) : M vec2 :=
  state <- get_state ;;
  let B00 := m00 (subB state) in
  let B10 := m10 (subB state) in
  let B11 := m11 (subB state) in
  (* construct C = B + lambda*I *)
  let C := [[B00 + lambda; B10]; [B10; B11 + lambda]] in
  let '(C, tau, perm) := gsl_linalg_QRPT_decomp C in
  put_state (set_perm state perm) ;;;
  x <- or_div_by_zero (gsl_linalg_QRPT_solve C tau perm (subg state)) ;;
  ret (fst x * -1, snd x * -1).

(** ** subspace2D_objective: f(x) = g^T x + 1/2 x^T B x *)

Definition subspace2D_objective (x : vec2) (state : subspace2D_state_t) : double :=
  (* compute: u = g . x *)
  let u := gsl_blas_ddot (subg state) x in
  (* compute: 1/2 B x *)
  let y := gsl_blas_dsymv_lower 0.5 (subB state) x in
  (* compute: v = 1/2 x^T B x *)
  let v := gsl_blas_ddot x y in
  u + v.

(** ** subspace2D_step *)

(** [z[i]] of the local [double z[8]] the root finder fills: root [k] has
    its real part in [z[2k]] and its imaginary part in [z[2k+1]]. *)
Definition zget (z : list double) (i : nat) : double := nth i z 0.

(** The coefficients [a[0]], ..., [a[4]] of the quartic in lambda;
    [a[i]] is the coefficient of lambda^i. *)
Definition quartic_coefficients (state : subspace2D_state_t) (delta : double)
  : M (list double) :=
  let delta_sq := delta * delta in
  u <- fdiv (normg state) delta ;;
  t0 <- fdiv (term0 state) delta_sq ;;
  t1 <- fdiv (2 * term1 state) delta_sq ;;
  ret [ detB state * detB state - t0;
        2 * detB state * trB state - t1;
        trB state * trB state + 2 * detB state - u * u;
        2 * trB state;
        1 ].

(** The loop [for (i = 0; i < 4; ++i)] over the roots, on the indices it
    still has to visit; [min] and [mini] are the loop's variables. *)
Fixpoint root_loop (z : list double) (todo : list nat) (min : double) (mini : Z)
  : M (double * Z) :=
  match todo with
  | [] => ret (min, mini)
  | i :: todo' =>
      if Qlt_bool (Qabs (zget z (2 * i + 1))) GSL_DBL_EPSILON then
        x <- subspace2D_solution (zget z (2 * i)) ;;
        state <- get_state ;;
        (* evaluate objective function to determine minimizer *)
        let cost := subspace2D_objective x state in
        if (mini <? 0)%Z || Qlt_bool cost min
        then root_loop z todo' cost (Z.of_nat i)
        else root_loop z todo' min mini
      else root_loop z todo' min mini
  end.

(** The call of the root finder on the coefficients [a] and what follows
    it in the third branch of [subspace2D_step]. *)
Definition solve_quartic (a : list double) : M Z :=
  state <- get_state ;;
  let '(status, z, w) := gsl_poly_complex_solve a in
  put_state (set_poly_p state w) ;;;
  if (status =? GSL_SUCCESS)%Z then
    r <- root_loop z (seq 0 4) 0 (-1) ;;
    let mini := snd r in
    if (mini <? 0)%Z then
      emit (Stderr did_not_find_minimizer) ;;;
      ret GSL_SUCCESS
    else
      (* compute x which minimizes objective function *)
      x <- subspace2D_solution (zget z (Z.to_nat (2 * mini))) ;;
      (* dx = W * x *)
      dx <- get_dx ;;
      put_dx (gsl_vector_set_zero dx) ;;;
      gsl_vector_set_dx 0 (fst x) ;;;
      gsl_vector_set_dx 1 (snd x) ;;;
      state <- get_state ;;
      dx <- get_dx ;;
      put_dx (gsl_linalg_QR_Qvec (W state) (tau state) dx) ;;;
      ret GSL_SUCCESS
  else
    GSL_ERROR "gsl_poly_complex_solve failed" status.

Definition subspace2D_step (delta : double) : M Z :=
  state <- get_state ;;
  if Qle_bool (norm_gn state) delta then
    (* Gauss-Newton step is inside trust region, use it as final step *)
    dx <- get_dx ;;
    put_dx (gsl_vector_memcpy dx (dx_gn state)) ;;;
    ret GSL_SUCCESS
  else if (rank state <? 2)%nat then
    (* follow the steepest descent direction to the trust region boundary *)
    dx <- get_dx ;;
    put_dx (gsl_vector_memcpy dx (dx_sd state)) ;;;
    s <- fdiv delta (norm_sd state) ;;
    dx <- get_dx ;;
    put_dx (gsl_vector_scale dx s) ;;;
    ret GSL_SUCCESS
  else
    a <- quartic_coefficients state delta ;;
    solve_quartic a.

End Step.

Section Preloop.

Context {K : gsl_kernels} {L : gsl_multifit_nlinear_solver}.

(** ** subspace2D_preloop *)

Definition subspace2D_preloop (trust : trust_state) (ss : solver_state)
  : M (Z * solver_state) :=
  (* initialize linear least squares solver *)
  let '(status, ss) := init trust ss in
  if negb (status =? 0)%Z then ret (status, ss) else
  (* prepare the linear solver to compute Gauss-Newton step *)
  let '(status, ss) := presolve 0 trust ss in
  if negb (status =? 0)%Z then ret (status, ss) else
  (* solve: J dx_gn = -f for Gauss-Newton step *)
  state <- get_state ;;
  let '(status, x, ss) :=
    solve (ts_f trust) (ts_g trust) (dx_gn state) trust ss in
  put_state (set_dx_gn state x) ;;;
  if negb (status =? 0)%Z then ret (status, ss) else
  (* compute: workn = J*g *)
  modify (fun state => set_workn state
            (gsl_blas_dgemv 1 (ts_J trust) (ts_g trust) 0 (workn state))) ;;;
  (* compute |g| and |Jg| *)
  state <- get_state ;;
  let norm_g := gsl_blas_dnrm2 (ts_g trust) in
  let norm_Jg := gsl_blas_dnrm2 (workn state) in
  (* alpha = |g|^2 / |Jg|^2 *)
  u <- fdiv norm_g norm_Jg ;;
  let alpha := u * u in
  (* dx_sd = -alpha * g *)
  modify (fun state => set_dx_sd state
            (gsl_vector_memcpy (dx_sd state) (ts_g trust))) ;;;
  modify (fun state => set_dx_sd state
            (gsl_vector_scale (dx_sd state) (- alpha))) ;;;
  (* store norms *)
  modify (fun state => set_norm_gn state (gsl_blas_dnrm2 (dx_gn state))) ;;;
  modify (fun state => set_norm_sd state (gsl_blas_dnrm2 (dx_sd state))) ;;;
  (* W = [ dx_sd, dx_gn ] *)
  modify (fun state => set_W state (set_column (W state) 0 (dx_sd state))) ;;;
  modify (fun state => set_W state (set_column (W state) 1 (dx_gn state))) ;;;
  (* rank revealing QR decomposition *)
  modify (fun state =>
            let '(QR, tau, perm) := gsl_linalg_QRPT_decomp (W state) in
            set_perm (set_tau (set_W state QR) tau) perm) ;;;
  (* check for parallel dx_sd, dx_gn, in which case rank will be 1 *)
  modify (fun state => set_rank state (qr_nonsing (W state))) ;;;
  state <- get_state ;;
  if (rank state =? 2)%nat then
    (* compute subg *)
    modify (fun state => set_workp state
              (gsl_vector_memcpy (workp state) (ts_g trust))) ;;;
    modify (fun state => set_workp state
              (gsl_linalg_QR_QTvec (W state) (tau state) (workp state))) ;;;
    state <- get_state ;;
    gi <- gsl_vector_get (workp state) 0 ;;
    modify (fun state => set_subg state (gi, snd (subg state))) ;;;
    gi <- gsl_vector_get (workp state) 1 ;;
    modify (fun state => set_subg state (fst (subg state), gi)) ;;;
    (* compute subB; JW is a view of the first columns of state->J *)
    modify (fun state => set_J state
              (gsl_matrix_memcpy (J state) (ts_J trust))) ;;;
    modify (fun state => set_J state
              (gsl_linalg_QR_matQ (W state) (tau state) (J state))) ;;;
    modify (fun state =>
              let JW := gsl_matrix_submatrix (J state) 0 0 (n state)
                          (Nat.min 2 (p state)) in
              set_subB state (gsl_blas_dsyrk 1 JW 0 (subB state))) ;;;
    state <- get_state ;;
    let B00 := m00 (subB state) in
    let B10 := m10 (subB state) in
    let B11 := m11 (subB state) in
    let g0 := fst (subg state) in
    let g1 := snd (subg state) in
    modify (fun state => set_trB state (B00 + B11)) ;;;
    modify (fun state => set_detB state (B00*B11 - B10*B10)) ;;;
    modify (fun state => set_normg state (gsl_blas_dnrm2 [g0; g1])) ;;;
    (* g^T adj(B)^T adj(B) g *)
    modify (fun state => set_term0 state
              ((B10*B10 + B11*B11)*g0*g0 -
               2*B10*(B00 + B11)*g0*g1 +
               (B00*B00 + B10*B10)*g1*g1)) ;;;
    (* g^T adj(B)^T g *)
    modify (fun state => set_term1 state
              (B11 * g0 * g0 + g1 * (B00*g1 - 2*B10*g0))) ;;;
    ret (GSL_SUCCESS, ss)
  else
    ret (GSL_SUCCESS, ss).

End Preloop.

(** ** Vocabulary of the statements *)

(** The Euclidean norm without a square root: [r] is the norm of [v]. *)
Definition sum_sq (v : gsl_vector) : double :=
  fold_right (fun x acc => x * x + acc) 0 v.

Definition is_norm (v : gsl_vector) (r : double) : Prop :=
  0 <= r /\ r * r == sum_sq v.

(** The symmetric 2-by-2 matrix [[B00,B10],[B10,B11]], its classical
    adjugate [[B11,-B10],[-B10,B00]], and the 2-by-2 algebra around them. *)
Definition sym2 (B00 B10 B11 : double) : mat2 := Mat2 B00 B10 B10 B11.

Definition adj (B : mat2) : mat2 :=
  Mat2 (m11 B) (- m01 B) (- m10 B) (m00 B).

Definition transpose (A : mat2) : mat2 :=
  Mat2 (m00 A) (m10 A) (m01 A) (m11 A).

Definition mulv (A : mat2) (x : vec2) : vec2 :=
  (m00 A * fst x + m01 A * snd x, m10 A * fst x + m11 A * snd x).


(** The value at [lambda] of the polynomial with coefficients [a], [a[i]]
    being the coefficient of lambda^i. *)
Fixpoint poly_eval (a : list double) (lambda : double) : double :=
  match a with
  | [] => 0
  | c :: a' => c + lambda * poly_eval a' lambda
  end.

(** The fields of the state other than the two scratch objects [perm] and
    [poly_p]. *)
Definition frame (s : subspace2D_state_t) :=
  (n s, p s, dx_gn s, dx_sd s, norm_gn s, norm_sd s, workp s, workn s,
   W s, J s, tau s, subg s, subB s, trB s, detB s, normg s, term0 s,
   term1 s, rank s).

(** What the three writes [gsl_vector_set_zero (dx)], [gsl_vector_set (dx,
    0, x0)], [gsl_vector_set (dx, 1, x1)] leave in a [dx] of size [len], and
    the calls of the error handler they make when [len < 2]. *)
Definition stored_point (len : nat) (x : vec2) : gsl_vector :=
  match len with
  | O => []
  | S O => [fst x]
  | S (S k) => fst x :: snd x :: repeat 0 k
  end.

Definition range_errors (len : nat) : list event :=
  repeat (GslError "index out of range" GSL_EINVAL) (2 - len).

Section Views.

Context {K : gsl_kernels}.

(** The matrix [C = B + lambda*I] that [subspace2D_solution] factors, the
    permutation the factorization leaves in [state->perm], and the point [x]
    the solve returns. *)
Definition reduced_matrix (state : subspace2D_state_t) (lambda : double)
  : gsl_matrix :=
  [[m00 (subB state) + lambda; m10 (subB state)];
   [m10 (subB state); m11 (subB state) + lambda]].

Definition solution_perm (state : subspace2D_state_t) (lambda : double)
  : gsl_permutation :=
  snd (gsl_linalg_QRPT_decomp (reduced_matrix state lambda)).

Definition reduced_point (state : subspace2D_state_t) (lambda : double)
  : option vec2 :=
  let '(C, tau, perm) := gsl_linalg_QRPT_decomp (reduced_matrix state lambda) in
  option_map (fun x => (fst x * -1, snd x * -1))
    (gsl_linalg_QRPT_solve C tau perm (subg state)).

(** Root [i] of [z] passes the test [fabs(z[2*i + 1]) < GSL_DBL_EPSILON]. *)
Definition is_real_root (z : list double) (i : nat) : bool :=
  Qlt_bool (Qabs (zget z (2 * i + 1))) GSL_DBL_EPSILON.

(** The value of [subspace2D_objective] at the point of root [i]. *)
Definition root_cost (state : subspace2D_state_t) (z : list double) (i : nat)
  : option double :=
  option_map (fun x => subspace2D_objective x state)
    (reduced_point state (zget z (2 * i))).

(** The loop over the roots without the memory: [min] and [mini] after the
    indices [todo], or nothing when the solve of one of the roots visited
    divides by zero. *)
Fixpoint select_root (state : subspace2D_state_t) (z : list double)
    (todo : list nat) (min : double) (mini : Z) : option (double * Z) :=
  match todo with
  | [] => Some (min, mini)
  | i :: todo' =>
      if is_real_root z i then
        match root_cost state z i with
        | Some cost =>
            if (mini <? 0)%Z || Qlt_bool cost min
            then select_root state z todo' cost (Z.of_nat i)
            else select_root state z todo' min mini
        | None => None
        end
      else select_root state z todo' min mini
  end.

(** [state->perm] after the loop over [todo]: the permutation of the last
    real root visited. *)
Fixpoint loop_perm (state : subspace2D_state_t) (z : list double)
    (todo : list nat) (q : gsl_permutation) : gsl_permutation :=
  match todo with
  | [] => q
  | i :: todo' =>
      if is_real_root z i
      then loop_perm state z todo' (solution_perm state (zget z (2 * i)))
      else loop_perm state z todo' q
  end.

(** A call of [subspace2D_step] that stores a step in [dx]: the first two
    branches, and the third one when the root finder succeeds and one of the
    four roots passes the test. *)
Definition step_writes_dx (m : mem) (delta : double) : bool :=
  let state := m_state m in
  Qle_bool (norm_gn state) delta
  || (rank state <? 2)%nat
  || match quartic_coefficients state delta m with
     | Ok (a, _) =>
         let '(status, z, _) := gsl_poly_complex_solve a in
         (status =? GSL_SUCCESS)%Z && existsb (is_real_root z) (seq 0 4)
     | DivByZero => false
     end.

End Views.

(** ** Kernels for the examples

    Exact stand-ins for the kernels on problems with two parameters, where
    the identity is an orthonormal basis of the span of two independent
    steps: the factored matrix is the matrix itself, [Q] is the identity, and
    the 2-by-2 solve is Cramer's rule.  The root finder is a table from
    coefficients to the roots it reports. *)

Definition GSL_EDOM : Z := 1%Z.
Definition GSL_EFAILED : Z := 5%Z.

(** The square root of a rational square (rounded down otherwise). *)
Definition Qsqrt (q : Q) : Q :=
  let r := Qred q in
  Z.sqrt (Qnum r * Zpos (Qden r)) # Qden r.

Definition dotl (u v : gsl_vector) : double :=
  fold_right Qplus 0 (map (fun ab => fst ab * snd ab) (combine u v)).

Definition column (A : gsl_matrix) (j : nat) : gsl_vector :=
  map (fun row => nth j row 0) A.

Definition det2 (A : gsl_matrix) : double :=
  match A with
  | [[a; b]; [c; d]] => a * d - b * c
  | _ => 0
  end.

(** Cramer's rule; no value when the determinant, by which it divides, is
    zero, or when the matrix is not 2-by-2. *)
Definition cramer (A : gsl_matrix) (b : vec2) : option vec2 :=
  match A with
  | [[a00; a01]; [a10; a11]] =>
      if Qeq_bool (det2 A) 0 then None
      else Some (Qred ((a11 * fst b - a01 * snd b) / det2 A),
                 Qred ((a00 * snd b - a10 * fst b) / det2 A))
  | _ => None
  end.

Definition exact_dsyrk (alpha : double) (A : gsl_matrix) (beta : double)
    (C : mat2) : mat2 :=
  Mat2 (Qred (alpha * dotl (column A 0) (column A 0) + beta * m00 C))
       (m01 C)
       (Qred (alpha * dotl (column A 1) (column A 0) + beta * m10 C))
       (Qred (alpha * dotl (column A 1) (column A 1) + beta * m11 C)).

Definition coefficients_eqb (a b : list double) : bool :=
  (List.length a =? List.length b)%nat
  && forallb (fun ab => Qeq_bool (fst ab) (snd ab)) (combine a b).

Definition table_solve (table : list (list double * list double))
    (a : list double) : Z * list double * gsl_poly_complex_workspace :=
  match find (fun e => coefficients_eqb (fst e) a) table with
  | Some e => (GSL_SUCCESS, snd e, a)
  | None => (GSL_EFAILED, [], a)
  end.

Definition exact_kernels (table : list (list double * list double))
  : gsl_kernels :=
  {| gsl_poly_complex_solve := table_solve table;
     gsl_linalg_QRPT_decomp := fun A => (A, [], [0; 1]%nat);
     gsl_linalg_QRPT_solve := fun QR _ _ b => cramer QR b;
     gsl_linalg_QR_Qvec := fun _ _ v => v;
     gsl_linalg_QR_QTvec := fun _ _ v => v;
     gsl_linalg_QR_matQ := fun _ _ A => A;
     gsl_blas_dnrm2 := fun x => Qsqrt (sum_sq x);
     gsl_blas_dgemv := fun alpha A x beta y =>
       map (fun ry => Qred (alpha * dotl (fst ry) x + beta * snd ry))
           (combine A y);
     gsl_blas_dsyrk := exact_dsyrk;
     qr_nonsing := fun QR => if Qeq_bool (det2 QR) 0 then 1%nat else 2%nat |}.

(** The normal equations [J^T J dx = -g] of a two-parameter problem. *)
Definition exact_solver : gsl_multifit_nlinear_solver :=
  {| solver_state := unit;
     init := fun _ ss => (GSL_SUCCESS, ss);
     presolve := fun _ _ ss => (GSL_SUCCESS, ss);
     solve := fun _ g x trust ss =>
       let B := exact_dsyrk 1 (ts_J trust) 0 (Mat2 0 0 0 0) in
       let A := [[m00 B; m10 B]; [m10 B; m11 B]] in
       match cramer A (nth 0 g 0, nth 1 g 0) with
       | None => (GSL_EDOM, x, ss)
       | Some y => (GSL_SUCCESS, [- fst y; - snd y], ss)
       end |}.

(** A freshly allocated state for [n = p = 2]. *)
Definition blank_state : subspace2D_state_t :=
  {| n := 2; p := 2; dx_gn := [0; 0]; dx_sd := [0; 0];
     norm_gn := 0; norm_sd := 0; workp := [0; 0]; workn := [0; 0];
     W := [[0; 0]; [0; 0]]; J := [[0; 0]; [0; 0]]; tau := [0; 0];
     subg := (0, 0); subB := Mat2 0 0 0 0; perm := [0; 1]%nat;
     trB := 0; detB := 0; normg := 0; term0 := 0; term1 := 0;
     rank := 0; poly_p := [] |}.

(** The state the preloop leaves for [J = [[4,3],[0,4]]], [f = (0,1)],
    [g = J^T f = (0,4)]: the steps are independent, [rank = 2]. *)
Definition rank2_trust : trust_state :=
  {| ts_f := [0; 1]; ts_g := [0; 4]; ts_J := [[4; 3]; [0; 4]] |}.

Definition rank2_state : subspace2D_state_t :=
  {| n := 2; p := 2; dx_gn := [3 # 16; - (1 # 4)]; dx_sd := [0; - (4 # 25)];
     norm_gn := 5 # 16; norm_sd := 4 # 25; workp := [0; 4];
     workn := [12; 16];
     W := [[0; 3 # 16]; [- (4 # 25); - (1 # 4)]]; J := [[4; 3]; [0; 4]];
     tau := []; subg := (0, 4); subB := Mat2 16 0 12 25;
     perm := [0; 1]%nat;
     trB := 41; detB := 256; normg := 4; term0 := 6400; term1 := 256;
     rank := 2; poly_p := [] |}.

(** The state the preloop leaves for [J = I], [f = g = (3,4)]: both steps
    are [(-3,-4)], [rank = 1]. *)
Definition rank1_state : subspace2D_state_t :=
  {| n := 2; p := 2; dx_gn := [- 3; - 4]; dx_sd := [- 3; - 4];
     norm_gn := 5; norm_sd := 5; workp := [0; 0]; workn := [3; 4];
     W := [[- 3; - 3]; [- 4; - 4]]; J := [[0; 0]; [0; 0]]; tau := [];
     subg := (0, 0); subB := Mat2 0 0 0 0; perm := [0; 1]%nat;
     trB := 0; detB := 0; normg := 0; term0 := 0; term1 := 0;
     rank := 1; poly_p := [] |}.

(** The quartic of [rank2_state] for [delta = 37/349] and its roots:
    lambda = 19 exactly, one more real root and a complex pair, rounded. *)
Definition quartic_37_349 : list double :=
  [- (689807616 # 1369); - (33624064 # 1369); 1053401 # 1369; 82; 1].

Definition roots_37_349 : list double :=
  [- (6662011493 # 100000000); 0;
   - (1718994253 # 100000000); 1012825136 # 100000000;
   - (1718994253 # 100000000); - (1012825136 # 100000000);
   19; 0].

(** The quartic of [rank2_state] for [delta = 1/4], and a report of the
    root finder in which the two real roots carry an imaginary part of 1e-6,
    so that no root passes the realness test. *)
Definition quartic_1_4 : list double :=
  [- 36864; 12800; 1937; 82; 1].

Definition roots_1_4 : list double :=
  [213 # 100; 1 # 1000000;
   - (4684 # 100); - (1 # 1000000);
   - (1865 # 100); 467 # 100;
   - (1865 # 100); - (467 # 100)].


Definition quartic_5_2 : list double := [- 3; - 4; 2; 4; 1].

Definition roots_5_2 : list double := [- 1; 0; - 1; 0; 1; 0; - 3; 0].

Definition example_kernels : gsl_kernels :=
  exact_kernels [(quartic_37_349, roots_37_349); (quartic_1_4, roots_1_4);
                 (quartic_5_2, roots_5_2)].

(** A first call at the solution: [J = I], [f = 0], so [g = J^T f = 0] and
    [J g = 0]. *)
Definition stationary_trust : trust_state :=
  {| ts_f := [0; 0]; ts_g := [0; 0]; ts_J := [[1; 0]; [0; 1]] |}.

Definition blank_mem : mem := Mem blank_state [0; 0] [].

(** The memory after the preloop of [rank2_trust] with the exact kernels:
    [rank2_state], with some fractions not in lowest terms. *)
Definition rank2_run : mem :=
  Eval vm_compute in
    match @subspace2D_preloop example_kernels exact_solver rank2_trust tt
            blank_mem with
    | Ok (_, m') => m'
    | DivByZero => blank_mem
    end.

Definition rank2_mem : mem := Mem rank2_state [0; 0] [].
Definition rank1_mem : mem := Mem rank1_state [0; 0] [].

(** The memory after two calls on [rank2_mem]: one with [delta = 37/349],
    which takes the third branch, and one with [delta = 1], which stores
    [dx_gn]. *)
Definition replay_mem : mem :=
  Eval vm_compute in
    match @subspace2D_step example_kernels (37 # 349) rank2_mem with
    | Ok (_, m1) =>
        match @subspace2D_step example_kernels 1 m1 with
        | Ok (_, m2) => m2
        | DivByZero => rank2_mem
        end
    | DivByZero => rank2_mem
    end.

(** * Theorems *)

(** ** Comparisons on doubles *)

Lemma Qlt_bool_iff (x y : Q) : Qlt_bool x y = true <-> x < y.
Proof.
  unfold Qlt_bool. rewrite negb_true_iff. split; intro H.
  - apply Qnot_le_lt. intro L. apply Qle_bool_iff in L. congruence.
  - destruct (Qle_bool y x) eqn:E; [|reflexivity].
    apply Qle_bool_iff in E. exfalso. apply (Qlt_not_le _ _ H E).
Qed.

Lemma Qle_bool_false_iff (x y : Q) : Qle_bool x y = false <-> y < x.
Proof.
  rewrite <- Qlt_bool_iff. unfold Qlt_bool. rewrite negb_true_iff. tauto.
Qed.


Lemma Qeq_bool_false_neq (x : Q) : ~ x == 0 -> Qeq_bool x 0 = false.
Proof.
  intro H. destruct (Qeq_bool x 0) eqn:E; [|reflexivity].
  apply Qeq_bool_iff in E. contradiction.
Qed.

(** ** The monad *)

Lemma bind_Ok {A B} (c : M A) (k : A -> M B) (m m' : mem) (a : A) :
  c m = Ok (a, m') -> bind c k m = k a m'.
Proof. unfold bind. intros ->. reflexivity. Qed.

Lemma bind_DivByZero {A B} (c : M A) (k : A -> M B) (m : mem) :
  c m = DivByZero -> bind c k m = DivByZero.
Proof. unfold bind. intros ->. reflexivity. Qed.

Lemma fdiv_Ok (x y : double) (m : mem) :
  ~ y == 0 -> fdiv x y m = Ok (x / y, m).
Proof. intro H. unfold fdiv. rewrite (Qeq_bool_false_neq _ H). reflexivity. Qed.

Lemma fdiv_zero (x y : double) (m : mem) :
  y == 0 -> fdiv x y m = DivByZero.
Proof.
  intro H. unfold fdiv. apply Qeq_bool_iff in H. rewrite H. reflexivity.
Qed.

Ltac monad_run :=
  unfold GSL_ERROR, GSL_ERROR_RETURN, GSL_ERROR_RETURN_NOTHING;
  unfold bind, ret, get_state, put_state, get_dx, put_dx, modify, emit; simpl.

(** ** Weakest preconditions *)

Lemma wp_ret {A} D (a : A) (Q : A -> mem -> Prop) m :
  Q a m -> wp D (ret a) Q m.
Proof. intro H. exact H. Qed.

Lemma wp_bind {A B} D (c : M A) (k : A -> M B) (Q : B -> mem -> Prop) m :
  wp D c (fun a m' => wp D (k a) Q m') m -> wp D (bind c k) Q m.
Proof.
  unfold wp, bind. destruct (c m) as [[a m']|]; intro H; exact H.
Qed.

Lemma wp_get_state D (Q : subspace2D_state_t -> mem -> Prop) m :
  Q (m_state m) m -> wp D get_state Q m.
Proof. intro H. exact H. Qed.

Lemma wp_put_state D s (Q : unit -> mem -> Prop) m :
  Q tt (Mem s (m_dx m) (m_log m)) -> wp D (put_state s) Q m.
Proof. intro H. exact H. Qed.

Lemma wp_modify D f (Q : unit -> mem -> Prop) m :
  Q tt (Mem (f (m_state m)) (m_dx m) (m_log m)) -> wp D (modify f) Q m.
Proof. intro H. exact H. Qed.

(** A write whose effect on the state the proof does not need. *)
Lemma wp_modify_any D f (Q : unit -> mem -> Prop) m :
  (forall s, Q tt (Mem s (m_dx m) (m_log m))) -> wp D (modify f) Q m.
Proof. intro H. apply wp_modify, H. Qed.

Lemma wp_fdiv (D : Prop) x y (Q : double -> mem -> Prop) m :
  (y == 0 -> D) -> (~ y == 0 -> Q (x / y) m) -> wp D (fdiv x y) Q m.
Proof.
  intros Hz Hnz. unfold wp, fdiv.
  destruct (Qeq_bool y 0) eqn:E.
  - apply Hz, Qeq_bool_iff, E.
  - apply Hnz. intro H. apply Qeq_bool_iff in H. congruence.
Qed.

Lemma wp_gsl_vector_get D v i (Q : double -> mem -> Prop) m :
  (forall x log, Q x (Mem (m_state m) (m_dx m) log)) ->
  wp D (gsl_vector_get v i) Q m.
Proof.
  intro H. unfold wp, gsl_vector_get, GSL_ERROR_RETURN. destruct m as [s dx log].
  destruct (List.length v <=? i)%nat; apply H.
Qed.

Lemma wp_Ok {A} (c : M A) (Q : A -> mem -> Prop) m a m' :
  wp True c Q m -> c m = Ok (a, m') -> Q a m'.
Proof. unfold wp. intros H E. rewrite E in H. exact H. Qed.

Lemma wp_total {A} (c : M A) (Q : A -> mem -> Prop) m :
  wp False c Q m -> exists a m', c m = Ok (a, m') /\ Q a m'.
Proof.
  unfold wp. destruct (c m) as [[a m']|]; intro H; [|destruct H].
  exists a, m'. split; [reflexivity|exact H].
Qed.

Global Opaque wp.

(** One step of a run whose writes the proof does not need. *)
Ltac wp_forget_step :=
  lazymatch goal with
  | |- wp _ (bind _ _) _ _ => apply wp_bind
  | |- wp _ (modify _) _ _ => apply wp_modify_any; intros ?s
  | |- wp _ get_state _ _ => apply wp_get_state
  | |- wp _ (gsl_vector_get _ _) _ _ =>
      apply wp_gsl_vector_get; intros ?gi ?log
  end;
  cbv beta; cbn [m_state m_dx m_log].

Ltac wp_forget := repeat wp_forget_step.

Section StepTheorems.

Context {K : gsl_kernels}.

(** ** The first two branches *)

Lemma step_gauss_newton_run (m : mem) (delta : double) :
  norm_gn (m_state m) <= delta ->
  subspace2D_step delta m
    = Ok (GSL_SUCCESS, Mem (m_state m) (dx_gn (m_state m)) (m_log m)).
Proof.
  intro Hin. unfold subspace2D_step. monad_run.
  apply Qle_bool_iff in Hin. rewrite Hin. reflexivity.
Qed.

(** Every state has a radius from which on the step is [dx_gn]. *)
Lemma step_eventually_gauss_newton (m : mem) :
  exists D, 0 < D /\ forall delta, D <= delta ->
    subspace2D_step delta m
      = Ok (GSL_SUCCESS, Mem (m_state m) (dx_gn (m_state m)) (m_log m)).
Proof.
  destruct (Qlt_le_dec 0 (norm_gn (m_state m))) as [Hpos|Hneg].
  - exists (norm_gn (m_state m)). split; [exact Hpos|].
    intros delta Hle. apply step_gauss_newton_run, Hle.
  - exists 1. split; [reflexivity|].
    intros delta Hle. apply step_gauss_newton_run.
    apply (Qle_trans _ 0); [exact Hneg|].
    apply (Qle_trans _ 1); [discriminate|exact Hle].
Qed.

(** C1. When [0 < delta] and [norm_gn <= delta] the step returns
    [GSL_SUCCESS] with [dx = dx_gn], the state and the trace untouched; hence
    for every state there is a radius from which on the step is [dx_gn]. *)
Theorem step_gauss_newton_feasible (m : mem) (delta : double) :
  0 < delta ->
  norm_gn (m_state m) <= delta ->
  subspace2D_step delta m
    = Ok (GSL_SUCCESS, Mem (m_state m) (dx_gn (m_state m)) (m_log m))
  /\ exists D, 0 < D /\ forall delta', D <= delta' ->
       subspace2D_step delta' m
         = Ok (GSL_SUCCESS, Mem (m_state m) (dx_gn (m_state m)) (m_log m)).
Proof.
  intros _ Hin. split.
  - apply step_gauss_newton_run, Hin.
  - apply step_eventually_gauss_newton.
Qed.

Lemma sum_sq_scale (v : gsl_vector) (s : double) :
  sum_sq (gsl_vector_scale v s) == s * s * sum_sq v.
Proof.
  induction v as [|x v IH]; simpl.
  - ring.
  - unfold gsl_vector_scale in IH. rewrite IH. ring.
Qed.

Lemma step_rank_deficient_run (m : mem) (delta : double) :
  delta < norm_gn (m_state m) ->
  (rank (m_state m) < 2)%nat ->
  ~ norm_sd (m_state m) == 0 ->
  subspace2D_step delta m
    = Ok (GSL_SUCCESS,
          Mem (m_state m)
              (gsl_vector_scale (dx_sd (m_state m))
                 (delta / norm_sd (m_state m)))
              (m_log m)).
Proof.
  intros Hout Hrank Hsd. unfold subspace2D_step. monad_run.
  apply Qle_bool_false_iff in Hout. rewrite Hout.
  apply Nat.ltb_lt in Hrank. rewrite Hrank.
  unfold fdiv. simpl. rewrite (Qeq_bool_false_neq _ Hsd). reflexivity.
Qed.

(** C2. When [norm_gn > delta] and [rank < 2] the step is
    [dx = dx_sd * (delta / norm_sd)], and when [norm_sd] is the norm of
    [dx_sd] the norm of [dx] is [delta]. *)
Theorem step_rank_deficient (m : mem) (delta : double) :
  0 < delta ->
  delta < norm_gn (m_state m) ->
  (rank (m_state m) < 2)%nat ->
  0 < norm_sd (m_state m) ->
  exists dx,
    subspace2D_step delta m = Ok (GSL_SUCCESS, Mem (m_state m) dx (m_log m))
    /\ dx = map (fun x => x * (delta / norm_sd (m_state m))) (dx_sd (m_state m))
    /\ (is_norm (dx_sd (m_state m)) (norm_sd (m_state m)) -> is_norm dx delta).
Proof.
  intros Hpos Hout Hrank Hsd.
  assert (Hne : ~ norm_sd (m_state m) == 0).
  { intro E. rewrite E in Hsd. discriminate Hsd. }
  eexists. split; [apply step_rank_deficient_run; assumption|].
  split; [reflexivity|].
  intros [_ Hn]. split; [apply Qlt_le_weak, Hpos|].
  rewrite sum_sq_scale, <- Hn. field. exact Hne.
Qed.

(** C9. In the rank-deficient branch the only division is [delta / norm_sd]:
    with [norm_sd > 0] the call has an outcome other than [DivByZero]. *)
Theorem step_rank_deficient_defined (m : mem) (delta : double) :
  delta < norm_gn (m_state m) ->
  (rank (m_state m) < 2)%nat ->
  0 < norm_sd (m_state m) ->
  exists r, subspace2D_step delta m = Ok r.
Proof.
  intros Hout Hrank Hsd. eexists.
  apply step_rank_deficient_run; try assumption.
  intro E. rewrite E in Hsd. discriminate Hsd.
Qed.

(** The division of that branch is not guarded: a zero [norm_sd] reaches
    it. *)
Lemma step_rank_deficient_zero_norm (m : mem) (delta : double) :
  delta < norm_gn (m_state m) ->
  (rank (m_state m) < 2)%nat ->
  norm_sd (m_state m) == 0 ->
  subspace2D_step delta m = DivByZero.
Proof.
  intros Hout Hrank Hsd. unfold subspace2D_step. monad_run.
  apply Qle_bool_false_iff in Hout. rewrite Hout.
  apply Nat.ltb_lt in Hrank. rewrite Hrank.
  unfold fdiv. simpl. apply Qeq_bool_iff in Hsd. rewrite Hsd. reflexivity.
Qed.

(** ** The third branch *)

Lemma set_perm_same (s : subspace2D_state_t) : set_perm s (perm s) = s.
Proof. destruct s; reflexivity. Qed.

Lemma quartic_coefficients_run (state : subspace2D_state_t) (delta : double)
    (m : mem) :
  ~ delta == 0 ->
  quartic_coefficients state delta m
    = Ok ([ detB state * detB state - term0 state / (delta * delta);
            2 * detB state * trB state - 2 * term1 state / (delta * delta);
            trB state * trB state + 2 * detB state
              - normg state / delta * (normg state / delta);
            2 * trB state;
            1 ], m).
Proof.
  intro Hd. unfold quartic_coefficients.
  assert (Hsq : ~ delta * delta == 0).
  { intro E. apply Hd. destruct (Qmult_integral _ _ E); assumption. }
  unfold bind. rewrite (fdiv_Ok _ _ _ Hd).
  rewrite (fdiv_Ok _ _ _ Hsq). rewrite (fdiv_Ok _ _ _ Hsq). reflexivity.
Qed.

Lemma quartic_coefficients_zero (state : subspace2D_state_t) (delta : double)
    (m : mem) :
  delta == 0 -> quartic_coefficients state delta m = DivByZero.
Proof.
  intro Hd. unfold quartic_coefficients, bind.
  rewrite (fdiv_zero _ _ _ Hd). reflexivity.
Qed.

Lemma step_full_branch (m : mem) (delta : double) :
  delta < norm_gn (m_state m) ->
  (2 <= rank (m_state m))%nat ->
  subspace2D_step delta m
    = bind (quartic_coefficients (m_state m) delta) solve_quartic m.
Proof.
  intros Hout Hrank. unfold subspace2D_step.
  unfold bind at 1, get_state at 1.
  apply Qle_bool_false_iff in Hout. rewrite Hout.
  apply Nat.ltb_ge in Hrank. rewrite Hrank. reflexivity.
Qed.

Lemma subspace2D_solution_run (lambda : double) (m : mem) :
  subspace2D_solution lambda m
    = match reduced_point (m_state m) lambda with
      | Some x =>
          Ok (x, Mem (set_perm (m_state m) (solution_perm (m_state m) lambda))
                     (m_dx m) (m_log m))
      | None => DivByZero
      end.
Proof.
  unfold subspace2D_solution, reduced_point, solution_perm, reduced_matrix.
  unfold bind at 1, get_state at 1.
  destruct (gsl_linalg_QRPT_decomp _) as [[C t] q]. cbn [snd].
  unfold bind at 1, put_state at 1. unfold bind, or_div_by_zero, ret.
  cbn [subg set_perm].
  destruct (gsl_linalg_QRPT_solve C t q (subg (m_state m))) as [x|];
    reflexivity.
Qed.


Lemma root_loop_run (z : list double) (state : subspace2D_state_t)
    (dx : gsl_vector) (log : list event) (todo : list nat) :
  forall (min : double) (mini : Z) (q : gsl_permutation),
    root_loop z todo min mini (Mem (set_perm state q) dx log)
      = match select_root state z todo min mini with
        | Some r =>
            Ok (r, Mem (set_perm state (loop_perm state z todo q)) dx log)
        | None => DivByZero
        end.
Proof.
  induction todo as [|i todo IH]; intros min mini q.
  - reflexivity.
  - cbn [root_loop select_root loop_perm]. fold (is_real_root z i).
    destruct (is_real_root z i).
    + unfold bind at 1. rewrite subspace2D_solution_run.
      cbn [m_state m_dx m_log]. unfold root_cost.
      change (reduced_point (set_perm state q) (zget z (2 * i)))
        with (reduced_point state (zget z (2 * i))).
      destruct (reduced_point state (zget z (2 * i))) as [x|];
        [|reflexivity].
      cbn [option_map].
      unfold bind at 1, get_state at 1. cbn [m_state m_dx m_log].
      change (subspace2D_objective x
                (set_perm (set_perm state q)
                   (solution_perm (set_perm state q) (zget z (2 * i)))))
        with (subspace2D_objective x state).
      change (set_perm (set_perm state q)
                (solution_perm (set_perm state q) (zget z (2 * i))))
        with (set_perm state (solution_perm state (zget z (2 * i)))).
      destruct ((mini <? 0)%Z || Qlt_bool (subspace2D_objective x state) min);
        apply IH.
    + apply IH.
Qed.

Lemma is_real_root_iff (z : list double) (i : nat) :
  is_real_root z i = true <-> Qabs (zget z (2 * i + 1)) < GSL_DBL_EPSILON.
Proof. apply Qlt_bool_iff. Qed.

(** What the loop has chosen after the indices [todo], when it comes to its
    end: a real root of [todo] of least cost, unless it kept what it started
    from. *)
Lemma select_root_spec (state : subspace2D_state_t) (z : list double)
    (todo : list nat) :
  forall (min : double) (mini : Z) (r : double * Z),
    select_root state z todo min mini = Some r ->
    (forall j, In j todo -> is_real_root z j = true ->
       exists c, root_cost state z j = Some c
                 /\ (0 <= snd r)%Z /\ fst r <= c)
    /\ ((snd r = mini /\ fst r = min)
        \/ exists k, In k todo /\ is_real_root z k = true
                     /\ snd r = Z.of_nat k
                     /\ root_cost state z k = Some (fst r))
    /\ ((0 <= mini)%Z -> (0 <= snd r)%Z /\ fst r <= min).
Proof.
  induction todo as [|i todo IH]; intros min mini r; cbn [select_root].
  - intros [= <-]. cbn [fst snd]. split; [intros j []|].
    split; [left; split; reflexivity|].
    intros H. split; [exact H|apply Qle_refl].
  - destruct (is_real_root z i) eqn:Ereal.
    + destruct (root_cost state z i) as [cost|] eqn:Ecost; [|discriminate].
      destruct ((mini <? 0)%Z || Qlt_bool cost min) eqn:Ecmp; intro Hsel.
      * destruct (IH _ _ _ Hsel) as (IH1 & IH2 & IH3).
        destruct (IH3 (Nat2Z.is_nonneg i)) as [Hnn Hle].
        split; [|split].
        -- intros j [<-|Hj] Hr; [|apply IH1; assumption].
           exists cost. repeat split; assumption.
        -- right. destruct IH2 as [[E1 E2]|(k & Hk & Hr & E1 & E2)].
           ++ exists i. rewrite E2. repeat split; try assumption.
              left; reflexivity.
           ++ exists k. repeat split; try assumption. right; assumption.
        -- intros Hm. split; [exact Hnn|].
           apply orb_true_iff in Ecmp. destruct Ecmp as [Hneg|Hlt].
           ++ apply Z.ltb_lt in Hneg. lia.
           ++ apply Qlt_bool_iff in Hlt.
              apply Qlt_le_weak. eapply Qle_lt_trans; eassumption.
      * apply orb_false_iff in Ecmp. destruct Ecmp as [Hneg Hlt].
        apply Z.ltb_ge in Hneg.
        assert (Hmin : min <= cost).
        { apply Qnot_lt_le. intro L. apply Qlt_bool_iff in L. congruence. }
        destruct (IH _ _ _ Hsel) as (IH1 & IH2 & IH3).
        destruct (IH3 Hneg) as [Hnn Hle].
        split; [|split].
        -- intros j [<-|Hj] Hr; [|apply IH1; assumption].
           exists cost. split; [exact Ecost|]. split; [exact Hnn|].
           eapply Qle_trans; eassumption.
        -- destruct IH2 as [E|(k & Hk & Hr & E1 & E2)]; [left; exact E|].
           right. exists k. repeat split; try assumption. right; assumption.
        -- intros _. split; assumption.
    + intro Hsel. destruct (IH _ _ _ Hsel) as (IH1 & IH2 & IH3).
      split; [|split].
      * intros j [<-|Hj] Hr; [congruence|apply IH1; assumption].
      * destruct IH2 as [E|(k & Hk & Hr & E1 & E2)]; [left; exact E|].
        right. exists k. repeat split; try assumption. right; assumption.
      * exact IH3.
Qed.



Lemma select_root_none (state : subspace2D_state_t) (z : list double)
    (todo : list nat) (min : double) (mini : Z) (q : gsl_permutation) :
  (forall j, In j todo -> is_real_root z j = false) ->
  select_root state z todo min mini = Some (min, mini)
  /\ loop_perm state z todo q = q.
Proof.
  induction todo as [|i todo IH]; intros Hnone; cbn [select_root loop_perm].
  - split; reflexivity.
  - rewrite (Hnone i (or_introl eq_refl)).
    apply IH. intros j Hj. apply Hnone. right; exact Hj.
Qed.

Lemma in_seq_0_4 (j : nat) : In j (seq 0 4) <-> (j < 4)%nat.
Proof. rewrite in_seq. lia. Qed.

(** The ways the call of the root finder ends. *)
Lemma solve_quartic_failed (a : list double) (m : mem) (status : Z)
    (z : list double) (w : gsl_poly_complex_workspace) :
  gsl_poly_complex_solve a = (status, z, w) ->
  status <> GSL_SUCCESS ->
  solve_quartic a m
    = Ok (status,
          Mem (set_poly_p (m_state m) w) (m_dx m)
              (m_log m ++ [GslError "gsl_poly_complex_solve failed" status])).
Proof.
  intros Hsolve Hst. unfold solve_quartic. monad_run. rewrite Hsolve.
  apply Z.eqb_neq in Hst. rewrite Hst. reflexivity.
Qed.

Lemma solve_quartic_loop (a : list double) (m : mem)
    (z : list double) (w : gsl_poly_complex_workspace) :
  gsl_poly_complex_solve a = (GSL_SUCCESS, z, w) ->
  let state := set_poly_p (m_state m) w in
  let m1 := Mem (set_perm state (loop_perm (m_state m) z (seq 0 4)
                                   (perm (m_state m))))
                (m_dx m) (m_log m) in
  solve_quartic a m
    = match select_root (m_state m) z (seq 0 4) 0 (-1) with
      | None => DivByZero
      | Some r =>
          if (snd r <? 0)%Z
          then Ok (GSL_SUCCESS,
                   Mem (m_state m1) (m_dx m)
                       (m_log m ++ [Stderr did_not_find_minimizer]))
          else
            (x <- subspace2D_solution (zget z (Z.to_nat (2 * snd r))) ;;
             dx <- get_dx ;;
             put_dx (gsl_vector_set_zero dx) ;;;
             gsl_vector_set_dx 0 (fst x) ;;;
             gsl_vector_set_dx 1 (snd x) ;;;
             state <- get_state ;;
             dx <- get_dx ;;
             put_dx (gsl_linalg_QR_Qvec (W state) (tau state) dx) ;;;
             ret GSL_SUCCESS) m1
      end.
Proof.
  intros Hsolve state m1. unfold solve_quartic.
  unfold bind at 1, get_state at 1. rewrite Hsolve.
  unfold bind at 1, put_state at 1. cbn [Z.eqb GSL_SUCCESS].
  unfold bind at 1.
  rewrite <- (set_perm_same (set_poly_p (m_state m) w)).
  rewrite (root_loop_run z (set_poly_p (m_state m) w)).
  change (select_root (set_poly_p (m_state m) w) z (seq 0 4) 0 (-1))
    with (select_root (m_state m) z (seq 0 4) 0 (-1)).
  change (loop_perm (set_poly_p (m_state m) w) z (seq 0 4)
            (perm (set_poly_p (m_state m) w)))
    with (loop_perm (m_state m) z (seq 0 4) (perm (m_state m))).
  destruct (select_root (m_state m) z (seq 0 4) 0 (-1)) as [r|];
    [|reflexivity].
  cbn [snd]. destruct (snd r <? 0)%Z; reflexivity.
Qed.

Lemma step_store_run_any (lambda : double) (m1 : mem) :
  (x <- subspace2D_solution lambda ;;
   dx <- get_dx ;;
   put_dx (gsl_vector_set_zero dx) ;;;
   gsl_vector_set_dx 0 (fst x) ;;;
   gsl_vector_set_dx 1 (snd x) ;;;
   state <- get_state ;;
   dx <- get_dx ;;
   put_dx (gsl_linalg_QR_Qvec (W state) (tau state) dx) ;;;
   ret GSL_SUCCESS) m1
  = match reduced_point (m_state m1) lambda with
    | Some x =>
        Ok (GSL_SUCCESS,
            Mem (set_perm (m_state m1) (solution_perm (m_state m1) lambda))
                (gsl_linalg_QR_Qvec (W (m_state m1)) (tau (m_state m1))
                   (stored_point (List.length (m_dx m1)) x))
                (m_log m1 ++ range_errors (List.length (m_dx m1))))
    | None => DivByZero
    end.
Proof.
  unfold bind at 1. rewrite subspace2D_solution_run.
  destruct (reduced_point (m_state m1) lambda) as [x|]; [|reflexivity].
  destruct m1 as [s dx log]. cbn [m_state m_dx m_log] in *.
  unfold gsl_vector_set_dx, gsl_vector_set_zero, range_errors.
  destruct dx as [|d0 [|d1 dx]]; monad_run.
  - rewrite <- app_assoc. reflexivity.
  - reflexivity.
  - rewrite map_const, app_nil_r. reflexivity.
Qed.


(** The outcome of a call, branch by branch. *)
Lemma step_cases (m : mem) (delta : double) :
  let state := m_state m in
  subspace2D_step delta m =
  if Qle_bool (norm_gn state) delta then
    Ok (GSL_SUCCESS, Mem state (dx_gn state) (m_log m))
  else if (rank state <? 2)%nat then
    if Qeq_bool (norm_sd state) 0 then DivByZero
    else Ok (GSL_SUCCESS,
             Mem state (gsl_vector_scale (dx_sd state) (delta / norm_sd state))
                 (m_log m))
  else
    match quartic_coefficients state delta m with
    | DivByZero => DivByZero
    | Ok (a, _) =>
        let '(status, z, w) := gsl_poly_complex_solve a in
        if (status =? GSL_SUCCESS)%Z then
          match select_root state z (seq 0 4) 0 (-1) with
          | None => DivByZero
          | Some r =>
              if (snd r <? 0)%Z then
                Ok (GSL_SUCCESS,
                    Mem (set_perm (set_poly_p state w)
                           (loop_perm state z (seq 0 4) (perm state)))
                        (m_dx m)
                        (m_log m ++ [Stderr did_not_find_minimizer]))
              else
                let lambda := zget z (Z.to_nat (2 * snd r)) in
                match reduced_point state lambda with
                | None => DivByZero
                | Some x =>
                    Ok (GSL_SUCCESS,
                        Mem (set_perm (set_poly_p state w)
                               (solution_perm state lambda))
                            (gsl_linalg_QR_Qvec (W state) (tau state)
                               (stored_point (List.length (m_dx m)) x))
                            (m_log m ++ range_errors (List.length (m_dx m))))
                end
          end
        else
          Ok (status,
              Mem (set_poly_p state w) (m_dx m)
                  (m_log m
                   ++ [GslError "gsl_poly_complex_solve failed" status]))
    end.
Proof.
  intro state. subst state.
  destruct (Qle_bool (norm_gn (m_state m)) delta) eqn:Egn.
  { unfold subspace2D_step. monad_run. rewrite Egn. reflexivity. }
  destruct (rank (m_state m) <? 2)%nat eqn:Erank.
  { unfold subspace2D_step. monad_run. rewrite Egn, Erank.
    unfold fdiv. destruct (Qeq_bool (norm_sd (m_state m)) 0); reflexivity. }
  apply Qle_bool_false_iff in Egn. apply Nat.ltb_ge in Erank.
  rewrite (step_full_branch _ _ Egn Erank).
  destruct (Qeq_bool delta 0) eqn:Ed.
  { apply Qeq_bool_iff in Ed.
    rewrite (bind_DivByZero _ _ _ (quartic_coefficients_zero _ _ _ Ed)).
    rewrite (quartic_coefficients_zero _ _ _ Ed). reflexivity. }
  assert (Hd : ~ delta == 0).
  { intro E. apply Qeq_bool_iff in E. congruence. }
  rewrite (bind_Ok _ _ _ _ _ (quartic_coefficients_run _ _ _ Hd)).
  rewrite (quartic_coefficients_run _ _ _ Hd).
  destruct (gsl_poly_complex_solve _) as [[status z] w] eqn:Esolve.
  destruct (status =? GSL_SUCCESS)%Z eqn:Est.
  - apply Z.eqb_eq in Est. subst status.
    rewrite (solve_quartic_loop _ _ _ _ Esolve). cbv zeta.
    destruct (select_root (m_state m) z (seq 0 4) 0 (-1)) as [r|];
      [|reflexivity].
    destruct (snd r <? 0)%Z.
    + reflexivity.
    + rewrite step_store_run_any. cbn [m_state m_dx m_log].
      change (reduced_point
                (set_perm (set_poly_p (m_state m) w)
                   (loop_perm (m_state m) z (seq 0 4) (perm (m_state m))))
                (zget z (Z.to_nat (2 * snd r))))
        with (reduced_point (m_state m) (zget z (Z.to_nat (2 * snd r)))).
      destruct (reduced_point (m_state m) (zget z (Z.to_nat (2 * snd r))));
        reflexivity.
  - apply Z.eqb_neq in Est.
    apply (solve_quartic_failed _ _ _ _ _ Esolve Est).
Qed.

(** C3. In the third branch the root finder is called on the list of the
    five coefficients of lambda^4 + 2 trB lambda^3
    + (trB^2 + 2 detB - normg^2/delta^2) lambda^2
    + (2 detB trB - 2 term1/delta^2) lambda + (detB^2 - term0/delta^2),
    stored from the constant one, [a[0]], to the leading one, [a[4]]: what
    [gsl_poly_complex_solve] returns for that list is what the step goes on
    with, its status being the one the step returns and its workspace the
    one left in the state. *)
Theorem step_quartic_coefficients (m : mem) (delta : double) :
  0 < delta ->
  delta < norm_gn (m_state m) ->
  (2 <= rank (m_state m))%nat ->
  exists a0 a1 a2 a3 a4,
    quartic_coefficients (m_state m) delta m = Ok ([a0; a1; a2; a3; a4], m)
    /\ subspace2D_step delta m = solve_quartic [a0; a1; a2; a3; a4] m
    /\ a4 == 1
    /\ a3 == 2 * trB (m_state m)
    /\ a2 == trB (m_state m) ^ 2 + 2 * detB (m_state m)
             - normg (m_state m) ^ 2 / delta ^ 2
    /\ a1 == 2 * detB (m_state m) * trB (m_state m)
             - 2 * term1 (m_state m) / delta ^ 2
    /\ a0 == detB (m_state m) ^ 2 - term0 (m_state m) / delta ^ 2
    /\ forall (status : Z) (z : list double)
              (w : gsl_poly_complex_workspace),
         gsl_poly_complex_solve [a0; a1; a2; a3; a4] = (status, z, w) ->
         (status <> GSL_SUCCESS ->
          subspace2D_step delta m
            = Ok (status,
                  Mem (set_poly_p (m_state m) w) (m_dx m)
                      (m_log m
                       ++ [GslError "gsl_poly_complex_solve failed" status])))
         /\ (forall r m', subspace2D_step delta m = Ok (r, m') ->
               r = status /\ poly_p (m_state m') = w).
Proof.
  intros Hpos Hout Hrank.
  assert (Hd : ~ delta == 0) by (intro E; rewrite E in Hpos; discriminate Hpos).
  do 5 eexists. split; [apply quartic_coefficients_run, Hd|].
  split.
  { rewrite (step_full_branch _ _ Hout Hrank).
    apply bind_Ok, quartic_coefficients_run, Hd. }
  do 5 (split; [try reflexivity; field; exact Hd|]).
  intros status z w Hsolve.
  assert (Hstep : subspace2D_step delta m
                  = solve_quartic
                      [ detB (m_state m) * detB (m_state m)
                        - term0 (m_state m) / (delta * delta);
                        2 * detB (m_state m) * trB (m_state m)
                        - 2 * term1 (m_state m) / (delta * delta);
                        trB (m_state m) * trB (m_state m)
                        + 2 * detB (m_state m)
                        - normg (m_state m) / delta
                          * (normg (m_state m) / delta);
                        2 * trB (m_state m);
                        1 ] m).
  { rewrite (step_full_branch _ _ Hout Hrank).
    apply bind_Ok, quartic_coefficients_run, Hd. }
  rewrite Hstep. clear Hstep. split.
  - intro Hst. apply (solve_quartic_failed _ _ _ _ _ Hsolve Hst).
  - intros r m'.
    destruct (Z.eq_dec status GSL_SUCCESS) as [->|Hst].
    + rewrite (solve_quartic_loop _ _ _ _ Hsolve). cbv zeta.
      destruct (select_root (m_state m) z (seq 0 4) 0 (-1)) as [sel|];
        [|discriminate].
      destruct (snd sel <? 0)%Z.
      * intros [= <- <-]. split; reflexivity.
      * rewrite step_store_run_any.
        destruct (reduced_point _ _); [|discriminate].
        intros [= <- <-]. split; reflexivity.
    + rewrite (solve_quartic_failed _ _ _ _ _ Hsolve Hst).
      intros [= <- <-]. split; reflexivity.
Qed.

(** C6. When the root finder succeeds and no root passes the test
    [fabs(z[2*i + 1]) < GSL_DBL_EPSILON], the step prints its diagnostic,
    leaves [dx] as it was and returns [GSL_SUCCESS]; of the state only the
    root finder's workspace has been written. *)
Theorem step_no_real_root (m : mem) (delta : double) (a z : list double)
    (w : gsl_poly_complex_workspace) :
  delta < norm_gn (m_state m) ->
  (2 <= rank (m_state m))%nat ->
  quartic_coefficients (m_state m) delta m = Ok (a, m) ->
  gsl_poly_complex_solve a = (GSL_SUCCESS, z, w) ->
  (forall i, (i < 4)%nat ->
     ~ Qabs (zget z (2 * i + 1)) < GSL_DBL_EPSILON) ->
  subspace2D_step delta m
    = Ok (GSL_SUCCESS,
          Mem (set_poly_p (m_state m) w) (m_dx m)
              (m_log m ++ [Stderr did_not_find_minimizer])).
Proof.
  intros Hout Hrank Ha Hsolve Hnone.
  rewrite (step_full_branch _ _ Hout Hrank), (bind_Ok _ _ _ _ _ Ha).
  rewrite (solve_quartic_loop _ _ _ _ Hsolve).
  assert (Hfalse : forall j, In j (seq 0 4) -> is_real_root z j = false).
  { intros j Hj. apply in_seq_0_4 in Hj.
    destruct (is_real_root z j) eqn:E; [|reflexivity].
    apply is_real_root_iff in E. destruct (Hnone j Hj E). }
  destruct (select_root_none (m_state m) z (seq 0 4) 0 (-1)
              (perm (m_state m)) Hfalse) as [-> ->].
  cbn [snd Z.ltb Z.compare m_state].
  change (perm (m_state m)) with (perm (set_poly_p (m_state m) w)).
  rewrite set_perm_same. reflexivity.
Qed.

(** C8. When the root finder returns a status other than [GSL_SUCCESS], the
    step hands it to the error handler and returns it, and [dx] is as it
    was. *)
Theorem step_root_finder_failure (m : mem) (delta : double) (a z : list double)
    (w : gsl_poly_complex_workspace) (status : Z) :
  delta < norm_gn (m_state m) ->
  (2 <= rank (m_state m))%nat ->
  quartic_coefficients (m_state m) delta m = Ok (a, m) ->
  gsl_poly_complex_solve a = (status, z, w) ->
  status <> GSL_SUCCESS ->
  subspace2D_step delta m
    = Ok (status,
          Mem (set_poly_p (m_state m) w) (m_dx m)
              (m_log m ++ [GslError "gsl_poly_complex_solve failed" status])).
Proof.
  intros Hout Hrank Ha Hsolve Hst.
  rewrite (step_full_branch _ _ Hout Hrank), (bind_Ok _ _ _ _ _ Ha).
  apply (solve_quartic_failed _ _ _ _ _ Hsolve Hst).
Qed.


(** ** The frame of a call *)

Lemma frame_eq_scratch (s1 s2 : subspace2D_state_t) :
  frame s2 = frame s1 ->
  s2 = set_perm (set_poly_p s1 (poly_p s2)) (perm s2).
Proof.
  destruct s1, s2. unfold frame. cbn. intro H.
  injection H as -> -> -> -> -> -> -> -> -> -> -> -> -> -> -> -> -> -> ->.
  reflexivity.
Qed.

Lemma step_cases_scratch (s : subspace2D_state_t) (w : gsl_poly_complex_workspace)
    (q : gsl_permutation) (dx : gsl_vector) (log : list event)
    (delta : double) :
  subspace2D_step delta (Mem (set_perm (set_poly_p s w) q) dx log) =
  if Qle_bool (norm_gn s) delta then
    Ok (GSL_SUCCESS, Mem (set_perm (set_poly_p s w) q) (dx_gn s) log)
  else if (rank s <? 2)%nat then
    if Qeq_bool (norm_sd s) 0 then DivByZero
    else Ok (GSL_SUCCESS,
             Mem (set_perm (set_poly_p s w) q)
                 (gsl_vector_scale (dx_sd s) (delta / norm_sd s)) log)
  else
    match quartic_coefficients s delta (Mem s dx log) with
    | DivByZero => DivByZero
    | Ok (a, _) =>
        let '(status, z, w') := gsl_poly_complex_solve a in
        if (status =? GSL_SUCCESS)%Z then
          match select_root s z (seq 0 4) 0 (-1) with
          | None => DivByZero
          | Some r =>
              if (snd r <? 0)%Z then
                Ok (GSL_SUCCESS,
                    Mem (set_perm (set_poly_p s w')
                           (loop_perm s z (seq 0 4) q))
                        dx (log ++ [Stderr did_not_find_minimizer]))
              else
                let lambda := zget z (Z.to_nat (2 * snd r)) in
                match reduced_point s lambda with
                | None => DivByZero
                | Some x =>
                    Ok (GSL_SUCCESS,
                        Mem (set_perm (set_poly_p s w')
                               (solution_perm s lambda))
                            (gsl_linalg_QR_Qvec (W s) (tau s)
                               (stored_point (List.length dx) x))
                            (log ++ range_errors (List.length dx)))
                end
          end
        else
          Ok (status,
              Mem (set_perm (set_poly_p s w') q) dx
                  (log ++ [GslError "gsl_poly_complex_solve failed" status]))
    end.
Proof.
  rewrite step_cases. cbv zeta. cbn [m_state m_dx m_log].
  change (norm_gn (set_perm (set_poly_p s w) q)) with (norm_gn s).
  change (rank (set_perm (set_poly_p s w) q)) with (rank s).
  change (norm_sd (set_perm (set_poly_p s w) q)) with (norm_sd s).
  destruct (Qle_bool (norm_gn s) delta); [reflexivity|].
  destruct (rank s <? 2)%nat; [reflexivity|].
  destruct (Qeq_bool delta 0) eqn:Ed.
  { apply Qeq_bool_iff in Ed.
    rewrite !(quartic_coefficients_zero _ _ _ Ed). reflexivity. }
  assert (Hd : ~ delta == 0).
  { intro E. apply Qeq_bool_iff in E. congruence. }
  rewrite !(quartic_coefficients_run _ _ _ Hd).
  cbn [detB trB term0 term1 normg set_perm set_poly_p].
  destruct (gsl_poly_complex_solve _) as [[status z] w'].
  reflexivity.
Qed.

Lemma set_scratch_same (s : subspace2D_state_t) :
  set_perm (set_poly_p s (poly_p s)) (perm s) = s.
Proof. destruct s; reflexivity. Qed.

(** C10.  A call leaves every field of the state but the scratch objects
    [perm] and [poly_p] as it was, so the state that the preloop populated
    stays as it is through any number of calls.  On a state with the same
    fields and a [dx] of the same size, whatever calls came in between, a
    call with the same [delta] returns the same status and stores the same
    step in [dx]; in the two cases in which a call stores no step, [dx] is
    as the caller passed it. *)
Theorem step_frame_replay (m1 m2 : mem) (delta : double) (r : Z) (m1' : mem) :
  frame (m_state m2) = frame (m_state m1) ->
  List.length (m_dx m2) = List.length (m_dx m1) ->
  subspace2D_step delta m1 = Ok (r, m1') ->
  frame (m_state m1') = frame (m_state m1)
  /\ exists m2',
       subspace2D_step delta m2 = Ok (r, m2')
       /\ frame (m_state m2') = frame (m_state m1)
       /\ if step_writes_dx m1 delta
          then m_dx m2' = m_dx m1'
          else m_dx m1' = m_dx m1 /\ m_dx m2' = m_dx m2.
Proof.
  intros Hf Hlen.
  destruct m1 as [s1 dx1 log1], m2 as [s2 dx2 log2].
  cbn [m_state m_dx m_log] in *.
  apply frame_eq_scratch in Hf. rewrite Hf. clear Hf.
  generalize (poly_p s2) (perm s2). intros w2 q2.
  rewrite <- (set_scratch_same s1) at 1.
  rewrite !step_cases_scratch. unfold step_writes_dx. cbn [m_state].
  rewrite Hlen.
  destruct (Qle_bool (norm_gn s1) delta).
  { intros [= <- <-]. split; [reflexivity|].
    eexists. split; [reflexivity|]. split; reflexivity. }
  destruct (rank s1 <? 2)%nat.
  { destruct (Qeq_bool (norm_sd s1) 0); [discriminate|].
    intros [= <- <-]. split; [reflexivity|].
    eexists. split; [reflexivity|]. split; reflexivity. }
  destruct (Qeq_bool delta 0) eqn:Ed.
  { apply Qeq_bool_iff in Ed.
    rewrite !(quartic_coefficients_zero _ _ _ Ed). discriminate. }
  assert (Hd : ~ delta == 0).
  { intro E. apply Qeq_bool_iff in E. congruence. }
  rewrite !(quartic_coefficients_run _ _ _ Hd).
  destruct (gsl_poly_complex_solve _) as [[status z] w'].
  cbn [orb].
  destruct (status =? GSL_SUCCESS)%Z.
  - destruct (select_root s1 z (seq 0 4) 0 (-1)) as [sel|] eqn:Esel;
      [|discriminate].
    destruct (select_root_spec _ _ _ _ _ _ Esel) as (Hall & Hchoice & _).
    destruct (snd sel <? 0)%Z eqn:Emini.
    + assert (Hnone : existsb (is_real_root z) (seq 0 4) = false).
      { destruct (existsb _ _) eqn:Ex; [|reflexivity].
        apply existsb_exists in Ex. destruct Ex as (j & Hj & Hr).
        destruct (Hall j Hj Hr) as (_ & _ & Hnn & _).
        apply Z.ltb_lt in Emini. lia. }
      rewrite Hnone. intros [= <- <-]. split; [reflexivity|].
      eexists. split; [reflexivity|]. split; [reflexivity|].
      split; reflexivity.
    + assert (Hsome : existsb (is_real_root z) (seq 0 4) = true).
      { destruct Hchoice as [[E _]|(k & Hk & Hr & _)].
        - rewrite E in Emini. discriminate Emini.
        - apply existsb_exists. exists k. split; assumption. }
      rewrite Hsome. cbv zeta.
      destruct (reduced_point s1 _) as [x|]; [|discriminate].
      intros [= <- <-]. split; [reflexivity|].
      eexists. split; [reflexivity|]. split; reflexivity.
  - cbn [andb]. intros [= <- <-]. split; [reflexivity|].
    eexists. split; [reflexivity|]. split; [reflexivity|].
    split; reflexivity.
Qed.

End StepTheorems.

Section PreloopTheorems.

Context {K : gsl_kernels} {L : gsl_multifit_nlinear_solver}.

(** ** The steepest-descent division of the preloop *)

(** C5, as amended.  The preloop does not test [|| J g ||]: once the three
    calls of the linear solver have succeeded it forms
    [u = norm_g / norm_Jg] whatever [norm_Jg] is, so a zero [norm_Jg] is a
    division by zero and no error status; with a nonzero [norm_Jg] the
    preloop returns [GSL_SUCCESS]. *)
Theorem preloop_division_unguarded (trust : trust_state) (m : mem)
    (ss ss1 ss2 ss3 : solver_state) (x : gsl_vector) :
  init trust ss = (GSL_SUCCESS, ss1) ->
  presolve 0 trust ss1 = (GSL_SUCCESS, ss2) ->
  solve (ts_f trust) (ts_g trust) (dx_gn (m_state m)) trust ss2
    = (GSL_SUCCESS, x, ss3) ->
  let norm_Jg :=
    gsl_blas_dnrm2
      (gsl_blas_dgemv 1 (ts_J trust) (ts_g trust) 0 (workn (m_state m))) in
  (norm_Jg == 0 -> subspace2D_preloop trust ss m = DivByZero)
  /\ (~ norm_Jg == 0 ->
      exists m', subspace2D_preloop trust ss m = Ok ((GSL_SUCCESS, ss3), m')).
Proof.
  intros Hinit Hpre Hsolve norm_Jg.
  split; intro Hn;
    unfold subspace2D_preloop; rewrite Hinit; cbn [negb Z.eqb GSL_SUCCESS];
    rewrite Hpre; cbn [negb Z.eqb GSL_SUCCESS];
    unfold bind at 1, get_state at 1; rewrite Hsolve;
    unfold bind at 1, put_state at 1; cbn [negb Z.eqb GSL_SUCCESS];
    unfold bind at 1, modify at 1; unfold bind at 1, get_state at 1;
    cbn [m_state m_dx m_log workn set_workn set_dx_gn];
    fold norm_Jg.
  - apply bind_DivByZero, fdiv_zero, Hn.
  - match goal with
    | |- exists m', ?c ?m0 = _ =>
        destruct (wp_total c (fun r _ => r = (GSL_SUCCESS, ss3)) m0)
          as (r & m' & E & ->); [|exists m'; exact E]
    end.
    apply wp_bind, wp_fdiv; [intro Hz; exact (Hn Hz)|intros _].
    wp_forget.
    destruct (_ =? 2)%nat; wp_forget; apply wp_ret; reflexivity.
Qed.

(** The only error statuses of the preloop are those of the solver. *)
Lemma preloop_error_status (trust : trust_state) (m m' : mem)
    (ss ss' : solver_state) (status : Z) :
  subspace2D_preloop trust ss m = Ok ((status, ss'), m') ->
  status <> GSL_SUCCESS ->
  status = fst (init trust ss)
  \/ status = fst (presolve 0 trust (snd (init trust ss)))
  \/ status = fst (fst (solve (ts_f trust) (ts_g trust) (dx_gn (m_state m))
                          trust
                          (snd (presolve 0 trust (snd (init trust ss)))))).
Proof.
  intros Hrun Hne.
  pose (Q := fun (r : Z * solver_state) (_ : mem) =>
    fst r <> GSL_SUCCESS ->
    fst r = fst (init trust ss)
    \/ fst r = fst (presolve 0 trust (snd (init trust ss)))
    \/ fst r = fst (fst (solve (ts_f trust) (ts_g trust) (dx_gn (m_state m))
                           trust
                           (snd (presolve 0 trust (snd (init trust ss))))))).
  apply (wp_Ok _ Q _ _ _) in Hrun; [exact (Hrun Hne)|clear Hrun Hne].
  subst Q.
  unfold subspace2D_preloop.
  destruct (init trust ss) as [s1 ss1]. cbn [fst snd].
  destruct (negb (s1 =? 0)%Z).
  { apply wp_ret. intros _. left; reflexivity. }
  destruct (presolve 0 trust ss1) as [s2 ss2]. cbn [fst snd].
  destruct (negb (s2 =? 0)%Z).
  { apply wp_ret. intros _. right; left; reflexivity. }
  apply wp_bind, wp_get_state. cbv beta.
  destruct (solve _ _ _ _ _) as [[s3 x] ss3]. cbn [fst snd].
  apply wp_bind, wp_put_state.
  destruct (negb (s3 =? 0)%Z).
  { apply wp_ret. intros _. right; right; reflexivity. }
  wp_forget. apply wp_fdiv; [exact (fun _ => I)|intros _].
  wp_forget.
  destruct (_ =? 2)%nat; wp_forget; apply wp_ret; intros Hne;
    destruct (Hne eq_refl).
Qed.

(** ** The reduced model of the preloop *)

(** The two closed forms are the adjugate forms, for all entries. *)
Lemma closed_forms_adjugate (B00 B10 B11 g0 g1 : double) :
  let B := sym2 B00 B10 B11 in
  let g := (g0, g1) in
  (B10*B10 + B11*B11)*g0*g0 - 2*B10*(B00 + B11)*g0*g1
    + (B00*B00 + B10*B10)*g1*g1
    == gsl_blas_ddot g (mulv (transpose (adj B)) (mulv (adj B) g))
  /\ B11 * g0 * g0 + g1 * (B00*g1 - 2*B10*g0)
     == gsl_blas_ddot g (mulv (transpose (adj B)) g).
Proof.
  unfold gsl_blas_ddot, mulv, transpose, adj, sym2. cbn. split; ring.
Qed.

Lemma preloop_reduced_scalars (trust : trust_state) (m m' : mem)
    (ss ss' : solver_state) :
  subspace2D_preloop trust ss m = Ok ((GSL_SUCCESS, ss'), m') ->
  rank (m_state m') = 2%nat ->
  let state := m_state m' in
  let B00 := m00 (subB state) in
  let B10 := m10 (subB state) in
  let B11 := m11 (subB state) in
  let g0 := fst (subg state) in
  let g1 := snd (subg state) in
  trB state = B00 + B11
  /\ detB state = B00*B11 - B10*B10
  /\ normg state = gsl_blas_dnrm2 [g0; g1]
  /\ term0 state = (B10*B10 + B11*B11)*g0*g0 - 2*B10*(B00 + B11)*g0*g1
                   + (B00*B00 + B10*B10)*g1*g1
  /\ term1 state = B11 * g0 * g0 + g1 * (B00*g1 - 2*B10*g0).
Proof.
  intros Hrun Hrank.
  pose (Q := fun (r : Z * solver_state) (m' : mem) =>
    fst r = GSL_SUCCESS ->
    rank (m_state m') = 2%nat ->
    let state := m_state m' in
    let B00 := m00 (subB state) in
    let B10 := m10 (subB state) in
    let B11 := m11 (subB state) in
    let g0 := fst (subg state) in
    let g1 := snd (subg state) in
    trB state = B00 + B11
    /\ detB state = B00*B11 - B10*B10
    /\ normg state = gsl_blas_dnrm2 [g0; g1]
    /\ term0 state = (B10*B10 + B11*B11)*g0*g0 - 2*B10*(B00 + B11)*g0*g1
                     + (B00*B00 + B10*B10)*g1*g1
    /\ term1 state = B11 * g0 * g0 + g1 * (B00*g1 - 2*B10*g0)).
  apply (wp_Ok _ Q _ _ _) in Hrun; [exact (Hrun eq_refl Hrank)|].
  clear Hrun Hrank. subst Q. unfold subspace2D_preloop.
  destruct (init trust ss) as [s1 ss1].
  destruct (negb (s1 =? 0)%Z) eqn:E1.
  { apply wp_ret. cbn [fst]. intros ->. discriminate E1. }
  destruct (presolve 0 trust ss1) as [s2 ss2].
  destruct (negb (s2 =? 0)%Z) eqn:E2.
  { apply wp_ret. cbn [fst]. intros ->. discriminate E2. }
  apply wp_bind, wp_get_state. cbv beta.
  destruct (solve _ _ _ _ _) as [[s3 x] ss3].
  apply wp_bind, wp_put_state.
  destruct (negb (s3 =? 0)%Z) eqn:E3.
  { apply wp_ret. cbn [fst]. intros ->. discriminate E3. }
  wp_forget. apply wp_fdiv; [exact (fun _ => I)|intros _].
  do 18 wp_forget_step.
  destruct (rank _ =? 2)%nat eqn:Erank.
  - do 22 wp_forget_step. cbv zeta.
    do 5 (apply wp_bind, wp_modify; cbn [m_state m_dx m_log]).
    apply wp_ret. intros _ _. cbn. repeat split.
  - apply wp_ret. cbn [m_state]. intros _ Hr.
    rewrite Hr in Erank. discriminate Erank.
Qed.

(** C7. After a successful preloop that found rank 2, [term0] and [term1]
    are the closed forms in the entries of [subB = [[B00,B10],[B10,B11]]] and
    [subg = [g0,g1]], and these are [g^T adj(B)^T adj(B) g] and
    [g^T adj(B)^T g] for the adjugate [adj(B) = [[B11,-B10],[-B10,B00]]]. *)
Theorem preloop_adjugate_terms (trust : trust_state) (m m' : mem)
    (ss ss' : solver_state) :
  subspace2D_preloop trust ss m = Ok ((GSL_SUCCESS, ss'), m') ->
  rank (m_state m') = 2%nat ->
  let state := m_state m' in
  let B00 := m00 (subB state) in
  let B10 := m10 (subB state) in
  let B11 := m11 (subB state) in
  let g0 := fst (subg state) in
  let g1 := snd (subg state) in
  let B := sym2 B00 B10 B11 in
  let g := (g0, g1) in
  adj B = Mat2 B11 (- B10) (- B10) B00
  /\ term0 state == (B10^2 + B11^2) * g0^2 - 2 * B10 * (B00 + B11) * g0 * g1
                    + (B00^2 + B10^2) * g1^2
  /\ term0 state == gsl_blas_ddot g (mulv (transpose (adj B)) (mulv (adj B) g))
  /\ term1 state == B11 * g0^2 + g1 * (B00 * g1 - 2 * B10 * g0)
  /\ term1 state == gsl_blas_ddot g (mulv (transpose (adj B)) g).
Proof.
  intros Hrun Hrank state B00 B10 B11 g0 g1 B g.
  destruct (preloop_reduced_scalars _ _ _ _ _ Hrun Hrank)
    as (_ & _ & _ & E0 & E1).
  fold state in E0, E1. fold B00 B10 B11 g0 g1 in E0, E1.
  destruct (closed_forms_adjugate B00 B10 B11 g0 g1) as [A0 A1].
  fold B g in A0, A1.
  split; [reflexivity|]. rewrite E0, E1.
  split; [ring|]. split; [exact A0|]. split; [ring|exact A1].
Qed.

End PreloopTheorems.

(** * Examples

    Each theorem with hypotheses is applied to a concrete run, and the two
    claims that fail on the code are shown to fail on one. *)

Section Examples.

#[local] Existing Instance example_kernels.
#[local] Existing Instance exact_solver.

(** [rank2_state] with [delta = 1 >= norm_gn = 5/16]. *)
Lemma step_gauss_newton_feasible_witness :
  subspace2D_step 1 rank2_mem
    = Ok (GSL_SUCCESS, Mem rank2_state [3 # 16; - (1 # 4)] [])
  /\ exists D, 0 < D /\ forall delta', D <= delta' ->
       subspace2D_step delta' rank2_mem
         = Ok (GSL_SUCCESS, Mem rank2_state [3 # 16; - (1 # 4)] []).
Proof.
  apply (step_gauss_newton_feasible rank2_mem 1).
  - reflexivity.
  - vm_compute. discriminate.
Defined.

(** [rank1_state] with [delta = 1 < norm_gn = 5]: the step is [(-3/5, -4/5)]. *)
Lemma step_rank_deficient_witness :
  exists dx,
    subspace2D_step 1 rank1_mem = Ok (GSL_SUCCESS, Mem rank1_state dx [])
    /\ dx = map (fun x => x * (1 / 5)) [- 3; - 4]
    /\ (is_norm [- 3; - 4] 5 -> is_norm dx 1).
Proof.
  apply (step_rank_deficient rank1_mem 1).
  - reflexivity.
  - reflexivity.
  - repeat constructor.
  - reflexivity.
Defined.

(** [rank1_state] with [norm_sd = 5]. *)
Lemma step_rank_deficient_defined_witness :
  exists r, subspace2D_step 1 rank1_mem = Ok r.
Proof.
  apply (step_rank_deficient_defined rank1_mem 1).
  - reflexivity.
  - repeat constructor.
  - reflexivity.
Defined.

(** [rank2_state] with [delta = 37/349 < norm_gn]; the root finder of the
    examples leaves the coefficients it was given in its workspace. *)
Lemma step_quartic_coefficients_witness :
  exists a0 a1 a2 a3 a4,
    quartic_coefficients rank2_state (37 # 349) rank2_mem
      = Ok ([a0; a1; a2; a3; a4], rank2_mem)
    /\ subspace2D_step (37 # 349) rank2_mem
       = solve_quartic [a0; a1; a2; a3; a4] rank2_mem
    /\ a4 == 1
    /\ a3 == 2 * 41
    /\ a2 == 41 ^ 2 + 2 * 256 - 4 ^ 2 / (37 # 349) ^ 2
    /\ a1 == 2 * 256 * 41 - 2 * 256 / (37 # 349) ^ 2
    /\ a0 == 256 ^ 2 - 6400 / (37 # 349) ^ 2
    /\ forall (status : Z) (z : list double)
              (w : gsl_poly_complex_workspace),
         gsl_poly_complex_solve [a0; a1; a2; a3; a4] = (status, z, w) ->
         (status <> GSL_SUCCESS ->
          subspace2D_step (37 # 349) rank2_mem
            = Ok (status,
                  Mem (set_poly_p rank2_state w) [0; 0]
                      ([] ++ [GslError "gsl_poly_complex_solve failed"
                                status])))
         /\ (forall r m', subspace2D_step (37 # 349) rank2_mem = Ok (r, m') ->
               r = status /\ poly_p (m_state m') = w).
Proof.
  apply (step_quartic_coefficients rank2_mem (37 # 349)).
  - reflexivity.
  - reflexivity.
  - repeat constructor.
Defined.



(** [rank2_state] with [delta = 1/4] and the report [roots_1_4]. *)
Lemma step_no_real_root_witness :
  exists w,
    subspace2D_step (1 # 4) rank2_mem
      = Ok (GSL_SUCCESS,
            Mem (set_poly_p rank2_state w) [0; 0]
                [Stderr did_not_find_minimizer]).
Proof.
  eexists.
  eapply (step_no_real_root rank2_mem (1 # 4) _ roots_1_4 _).
  - reflexivity.
  - repeat constructor.
  - vm_compute. reflexivity.
  - vm_compute. reflexivity.
  - intros i Hi H.
    destruct i as [|[|[|[|i]]]]; [vm_compute in H; discriminate H ..|lia].
Defined.

(** [rank2_state] with [delta = 1/8], for which the root finder fails. *)
Lemma step_root_finder_failure_witness :
  exists w,
    subspace2D_step (1 # 8) rank2_mem
      = Ok (GSL_EFAILED,
            Mem (set_poly_p rank2_state w) [0; 0]
                [GslError "gsl_poly_complex_solve failed" GSL_EFAILED]).
Proof.
  eexists.
  eapply (step_root_finder_failure rank2_mem (1 # 8) _ [] _ GSL_EFAILED).
  - reflexivity.
  - repeat constructor.
  - vm_compute. reflexivity.
  - vm_compute. reflexivity.
  - discriminate.
Defined.

(** [rank2_state]: the call with [delta = 37/349] on the populated state,
    and the same call again after a call with [delta = 1] in between, on
    the state, the [dx] and the trace these two calls have left. *)
Lemma step_frame_replay_witness :
  exists r m1',
    subspace2D_step (37 # 349) rank2_mem = Ok (r, m1')
    /\ subspace2D_step 1 m1' = Ok (GSL_SUCCESS, replay_mem)
    /\ frame (m_state m1') = frame rank2_state
    /\ exists m2',
         subspace2D_step (37 # 349) replay_mem = Ok (r, m2')
         /\ frame (m_state m2') = frame rank2_state
         /\ m_dx m2' = m_dx m1'.
Proof.
  exists GSL_SUCCESS. eexists.
  assert (Hrun : subspace2D_step (37 # 349) rank2_mem
                 = Ok (GSL_SUCCESS,
                       Mem (set_poly_p rank2_state quartic_37_349)
                           [12 # 349; - (35 # 349)] [])).
  { vm_compute. reflexivity. }
  split; [exact Hrun|]. split; [vm_compute; reflexivity|].
  exact (step_frame_replay rank2_mem replay_mem
           (37 # 349) GSL_SUCCESS _ eq_refl eq_refl Hrun).
Defined.

(** The preloop of [rank2_trust], where [|| J g || = 20]. *)
Lemma preloop_division_unguarded_witness :
  (gsl_blas_dnrm2 (gsl_blas_dgemv 1 [[4; 3]; [0; 4]] [0; 4] 0 [0; 0]) == 0 ->
   @subspace2D_preloop example_kernels exact_solver rank2_trust tt blank_mem = DivByZero)
  /\ (~ gsl_blas_dnrm2 (gsl_blas_dgemv 1 [[4; 3]; [0; 4]] [0; 4] 0 [0; 0])
        == 0 ->
      exists m',
        @subspace2D_preloop example_kernels exact_solver rank2_trust tt blank_mem
          = Ok ((GSL_SUCCESS, tt), m')).
Proof.
  apply (preloop_division_unguarded (L := exact_solver) rank2_trust blank_mem
           tt tt tt tt
           [3 # 16; - (1 # 4)]).
  - reflexivity.
  - reflexivity.
  - vm_compute. reflexivity.
Defined.

(** C5 fails as stated: at a stationary point [|| J g ||] is zero and the
    preloop, instead of returning an error status, divides by it. *)
Lemma preloop_zero_curvature_counterexample :
  @init exact_solver stationary_trust tt = (GSL_SUCCESS, tt)
  /\ @presolve exact_solver 0 stationary_trust tt = (GSL_SUCCESS, tt)
  /\ @solve exact_solver [0; 0] [0; 0] [0; 0] stationary_trust tt
     = (GSL_SUCCESS, [- 0; - 0], tt)
  /\ gsl_blas_dgemv 1 (ts_J stationary_trust) (ts_g stationary_trust) 0 [0; 0]
     = [0; 0]
  /\ gsl_blas_dnrm2 [0; 0] == 0
  /\ @subspace2D_preloop example_kernels exact_solver stationary_trust tt blank_mem = DivByZero.
Proof. vm_compute. repeat split. Qed.

(** The preloop of [rank2_trust]: [term0 = 6400], [term1 = 256]. *)
Lemma preloop_adjugate_terms_witness :
  let state := m_state rank2_run in
  let B00 := m00 (subB state) in
  let B10 := m10 (subB state) in
  let B11 := m11 (subB state) in
  let g0 := fst (subg state) in
  let g1 := snd (subg state) in
  let B := sym2 B00 B10 B11 in
  let g := (g0, g1) in
  adj B = Mat2 B11 (- B10) (- B10) B00
  /\ term0 state == (B10^2 + B11^2) * g0^2
                    - 2 * B10 * (B00 + B11) * g0 * g1
                    + (B00^2 + B10^2) * g1^2
  /\ term0 state
     == gsl_blas_ddot g (mulv (transpose (adj B)) (mulv (adj B) g))
  /\ term1 state == B11 * g0^2 + g1 * (B00 * g1 - 2 * B10 * g0)
  /\ term1 state == gsl_blas_ddot g (mulv (transpose (adj B)) g).
Proof.
  apply (preloop_adjugate_terms (L := exact_solver) rank2_trust blank_mem
           rank2_run tt tt).
  - vm_compute. reflexivity.
  - reflexivity.
Defined.

End Examples.

End Subspace2D.

(** * Combinations: combination/combination.c

    A [gsl_combination] holds [k] indices out of [0 .. n-1] in the array
    [data].  The indices and [n] are [size_t] values, integers modulo 2^64
    with the wrap-around of their arithmetic written out; [k], the size of
    [data], and the loop counters, which stay within it, are natural
    numbers. *)

Module Combination.

Local Open Scope Z_scope.

Definition SIZE_BITS : Z := 64.

(** The value of a [size_t] expression. *)
Definition wrap (z : Z) : Z := z mod 2 ^ SIZE_BITS.

Record gsl_combination := {
  n : Z;
  k : nat;
  data : list Z
}.

Definition GSL_SUCCESS : Z := 0.
Definition GSL_FAILURE : Z := -1.
Definition GSL_EINVAL : Z := 4.

(** [data[i]]; outside the array, where C reads foreign memory, 0. *)
Definition get (d : list Z) (i : nat) : Z := nth i d 0.

(** [data[i] = x]; outside the array, where C writes foreign memory,
    nothing. *)
Fixpoint set (d : list Z) (i : nat) (x : Z) : list Z :=
  match d, i with
  | [], _ => []
  | _ :: t, O => x :: t
  | h :: t, S j => h :: set t j x
  end.

(** Modelled from the spec: [GSL_ERROR (reason, gsl_errno)] and
    [GSL_ERROR_VAL (reason, gsl_errno, value)] of gsl_errno.h: the error
    handler is called and the function returns the code, or the value.  A
    result is the calls of the handler and the value returned. *)
Definition GSL_ERROR (reason : string) (gsl_errno : Z)
  : list Subspace2D.event * Z :=
  ([Subspace2D.GslError reason gsl_errno], gsl_errno).

Definition GSL_ERROR_VAL (reason : string) (gsl_errno : Z) (value : Z)
  : list Subspace2D.event * Z :=
  ([Subspace2D.GslError reason gsl_errno], value).

(** ** gsl_combination_get; [check] is the global [gsl_check_range] *)

Definition gsl_combination_get (check : bool) (c : gsl_combination) (i : nat)
  : list Subspace2D.event * Z :=
  if check && (k c <=? i)%nat
  then GSL_ERROR_VAL "index out of range" GSL_EINVAL 0
  else ([], get (data c) i).

(** ** gsl_combination_valid *)

(** The loop [for (j = 0; j < i; j++)], on the indices [js] still to visit:
    the reason of the first error, if any. *)
Fixpoint valid_inner (d : list Z) (i : nat) (js : list nat) : option string :=
  match js with
  | [] => None
  | j :: js' =>
      if get d i =? get d j then Some "duplicate combination index"%string
      else if get d i >? get d j
      then Some "combination index no in increasing order"%string
      else valid_inner d i js'
  end.

(** The loop [for (i = 0; i < k; i++)]. *)
Fixpoint valid_outer (n : Z) (d : list Z) (todo : list nat) : option string :=
  match todo with
  | [] => None
  | i :: todo' =>
      if get d i >=? n then Some "combination index outside range"%string
      else
        match valid_inner d i (seq 0 i) with
        | Some reason => Some reason
        | None => valid_outer n d todo'
        end
  end.

Definition gsl_combination_valid (c : gsl_combination)
  : list Subspace2D.event * Z :=
  if Z.of_nat (k c) >? n c
  then GSL_ERROR "combination has k greater than n" GSL_FAILURE
  else
    match valid_outer (n c) (data c) (seq 0 (k c)) with
    | Some reason => GSL_ERROR reason GSL_FAILURE
    | None => ([], GSL_SUCCESS)
    end.

(** ** gsl_combination_next *)

(** [while (i > 0 && data[i] == n - k + i) i--;] *)
Fixpoint next_scan (n : Z) (k : nat) (d : list Z) (i : nat) : nat :=
  match i with
  | O => O
  | S i' =>
      if get d i =? wrap (n - Z.of_nat k + Z.of_nat i)
      then next_scan n k d i'
      else i
  end.

(** [for (; i < k - 1; i++) data[i + 1] = data[i] + 1;] with [count]
    iterations left. *)
Fixpoint next_fill (d : list Z) (i : nat) (count : nat) : list Z :=
  match count with
  | O => d
  | S count' => next_fill (set d (i + 1) (wrap (get d i + 1))) (S i) count'
  end.

Definition gsl_combination_next (c : gsl_combination) : Z * gsl_combination :=
  if (k c =? 0)%nat then (GSL_FAILURE, c)
  else
    let i := next_scan (n c) (k c) (data c) (k c - 1) in
    if (i =? 0)%nat && (get (data c) i =? wrap (n c - Z.of_nat (k c)))
    then (GSL_FAILURE, c)
    else
      let d := set (data c) i (wrap (get (data c) i + 1)) in
      (GSL_SUCCESS,
       {| n := n c; k := k c; data := next_fill d i (k c - 1 - i) |}).

(** ** gsl_combination_prev *)

(** [while (i > 0 && data[i] == data[i-1] + 1) i--;] *)
Fixpoint prev_scan (d : list Z) (i : nat) : nat :=
  match i with
  | O => O
  | S i' => if get d i =? wrap (get d i' + 1) then prev_scan d i' else i
  end.

(** [for (; i < k; i++) data[i] = n - k + i;] with [count] iterations
    left. *)
Fixpoint prev_fill (n : Z) (k : nat) (d : list Z) (i : nat) (count : nat)
  : list Z :=
  match count with
  | O => d
  | S count' =>
      prev_fill n k (set d i (wrap (n - Z.of_nat k + Z.of_nat i))) (S i) count'
  end.

Definition gsl_combination_prev (c : gsl_combination) : Z * gsl_combination :=
  if (k c =? 0)%nat then (GSL_FAILURE, c)
  else
    let i := prev_scan (data c) (k c - 1) in
    if (i =? 0)%nat && (get (data c) i =? 0)
    then (GSL_FAILURE, c)
    else
      let d := set (data c) i (wrap (get (data c) i - 1)) in
      (GSL_SUCCESS,
       {| n := n c; k := k c;
          data := prev_fill (n c) (k c) d (S i) (k c - S i) |}).

(** ** Vocabulary of the statements *)

(** A combination as [gsl_combination_calloc] and the two steps make them:
    [k] indices below [n], in increasing order. *)
Definition proper (c : gsl_combination) : Prop :=
  List.length (data c) = k c
  /\ 0 <= n c < 2 ^ SIZE_BITS
  /\ (forall i, (i < k c)%nat -> 0 <= get (data c) i < n c)
  /\ (forall i, (S i < k c)%nat -> get (data c) i < get (data c) (S i)).

Fixpoint increasingb (d : list Z) : bool :=
  match d with
  | x :: (y :: _) as t => (x <? y) && increasingb t
  | _ => true
  end.

Definition properb (c : gsl_combination) : bool :=
  (List.length (data c) =? k c)%nat
  && (0 <=? n c) && (n c <? 2 ^ SIZE_BITS)
  && forallb (fun x => (0 <=? x) && (x <? n c)) (data c)
  && increasingb (data c).

(** The lexicographic order on index arrays. *)
Definition lex_lt (d d' : list Z) : Prop :=
  exists i, (i < List.length d)%nat
            /\ (forall j, (j < i)%nat -> get d j = get d' j)
            /\ get d i < get d' i.

(** The last combination: every index is as large as it can be. *)
Definition is_last (c : gsl_combination) : Prop :=
  forall j, (j < k c)%nat ->
    get (data c) j = n c - Z.of_nat (k c) + Z.of_nat j.

(** The first combination: [0, 1, ..., k-1]. *)
Definition is_first (c : gsl_combination) : Prop :=
  forall j, (j < k c)%nat -> get (data c) j = Z.of_nat j.

(** [m] calls of [gsl_combination_next], all of which succeed. *)
Fixpoint iter_next (m : nat) (c : gsl_combination) : option gsl_combination :=
  match m with
  | O => Some c
  | S m' =>
      let '(status, c') := gsl_combination_next c in
      if status =? GSL_SUCCESS then iter_next m' c' else None
  end.

(** An index array read as a number in base [n], first index first. *)
Fixpoint value (n : Z) (d : list Z) : Z :=
  match d with
  | [] => 0
  | x :: t => x * n ^ Z.of_nat (List.length t) + value n t
  end.

(** Combinations of three out of five, used as examples. *)
Definition c_024 : gsl_combination := {| n := 5; k := 3; data := [0; 2; 4] |}.
Definition c_034 : gsl_combination := {| n := 5; k := 3; data := [0; 3; 4] |}.
Definition c_012 : gsl_combination := {| n := 5; k := 3; data := [0; 1; 2] |}.
Definition c_234 : gsl_combination := {| n := 5; k := 3; data := [2; 3; 4] |}.
Definition c_420 : gsl_combination := {| n := 5; k := 3; data := [4; 2; 0] |}.

(** ** Arrays *)

(** Case analysis on the comparisons of the goal. *)
Ltac nat_cases :=
  repeat match goal with
         | |- context [(?a <? ?b)%nat] => destruct (Nat.ltb_spec a b)
         | |- context [(?a <=? ?b)%nat] => destruct (Nat.leb_spec a b)
         | |- context [(?a =? ?b)%nat] => destruct (Nat.eqb_spec a b)
         end;
  cbn [andb orb negb]; try lia.

Lemma length_set (d : list Z) (i : nat) (x : Z) :
  List.length (set d i x) = List.length d.
Proof.
  revert i. induction d as [|h t IH]; intros [|i]; cbn; try reflexivity.
  rewrite IH. reflexivity.
Qed.

Lemma get_set_eq (d : list Z) (i : nat) (x : Z) :
  (i < List.length d)%nat -> get (set d i x) i = x.
Proof.
  revert i. induction d as [|h t IH]; intros [|i] H; cbn in *; try lia.
  apply IH. lia.
Qed.

Lemma get_set_neq (d : list Z) (i j : nat) (x : Z) :
  i <> j -> get (set d i x) j = get d j.
Proof.
  revert i j. induction d as [|h t IH]; intros [|i] [|j] H; cbn;
    try reflexivity; try lia.
  apply IH. lia.
Qed.

Lemma get_ext (d d' : list Z) :
  List.length d = List.length d' ->
  (forall j, (j < List.length d)%nat -> get d j = get d' j) ->
  d = d'.
Proof. intros Hlen H. apply (nth_ext d d' 0 0 Hlen H). Qed.

Lemma wrap_small (z : Z) : 0 <= z < 2 ^ SIZE_BITS -> wrap z = z.
Proof. intro H. apply Z.mod_small, H. Qed.

(** ** The two fill loops *)

Lemma next_fill_spec (count : nat) :
  forall (d : list Z) (i : nat),
    (i + count < List.length d)%nat ->
    0 <= get d i ->
    get d i + Z.of_nat count < 2 ^ SIZE_BITS ->
    List.length (next_fill d i count) = List.length d
    /\ forall j,
         get (next_fill d i count) j
         = if (i <? j)%nat && (j <=? i + count)%nat
           then get d i + Z.of_nat (j - i)
           else get d j.
Proof.
  induction count as [|count IH]; intros d i Hlen Hlo Hhi.
  - cbn [next_fill]. split; [reflexivity|]. intro j.
    destruct ((i <? j)%nat && (j <=? i + 0)%nat) eqn:E; [|reflexivity].
    apply andb_true_iff in E. destruct E as [E1 E2].
    apply Nat.ltb_lt in E1. apply Nat.leb_le in E2. lia.
  - cbn [next_fill].
    assert (Hw : wrap (get d i + 1) = get d i + 1) by (apply wrap_small; lia).
    rewrite Hw.
    assert (Hnext : get (set d (i + 1) (get d i + 1)) (S i) = get d i + 1).
    { replace (S i) with (i + 1)%nat by lia. apply get_set_eq. lia. }
    destruct (IH (set d (i + 1) (get d i + 1)) (S i)) as [L G].
    + rewrite length_set. lia.
    + rewrite Hnext. lia.
    + rewrite Hnext. lia.
    + rewrite length_set in L. split; [exact L|]. intro j. rewrite G, Hnext.
      destruct (Nat.eq_dec j (i + 1)) as [->|Hne].
      * assert ((S i <? i + 1)%nat = false) as -> by (apply Nat.ltb_ge; lia).
        assert ((i <? i + 1)%nat = true) as -> by (apply Nat.ltb_lt; lia).
        assert ((i + 1 <=? i + S count)%nat = true) as ->
          by (apply Nat.leb_le; lia).
        cbn [andb]. rewrite get_set_eq by lia. lia.
      * rewrite get_set_neq by lia.
        nat_cases.
Qed.

Lemma prev_fill_spec (n : Z) (k : nat) (count : nat) :
  forall (d : list Z) (i : nat),
    (i + count <= List.length d)%nat ->
    List.length (prev_fill n k d i count) = List.length d
    /\ forall j,
         get (prev_fill n k d i count) j
         = if (i <=? j)%nat && (j <? i + count)%nat
           then wrap (n - Z.of_nat k + Z.of_nat j)
           else get d j.
Proof.
  induction count as [|count IH]; intros d i Hlen.
  - cbn [prev_fill]. split; [reflexivity|]. intro j.
    destruct ((i <=? j)%nat && (j <? i + 0)%nat) eqn:E; [|reflexivity].
    apply andb_true_iff in E. destruct E as [E1 E2].
    apply Nat.leb_le in E1. apply Nat.ltb_lt in E2. lia.
  - cbn [prev_fill].
    destruct (IH (set d i (wrap (n - Z.of_nat k + Z.of_nat i))) (S i))
      as [L G].
    + rewrite length_set. lia.
    + rewrite length_set in L. split; [exact L|]. intro j. rewrite G.
      destruct (Nat.eq_dec j i) as [->|Hne].
      * assert ((S i <=? i)%nat = false) as -> by (apply Nat.leb_gt; lia).
        assert ((i <=? i)%nat = true) as -> by (apply Nat.leb_le; lia).
        assert ((i <? i + S count)%nat = true) as ->
          by (apply Nat.ltb_lt; lia).
        cbn [andb]. apply get_set_eq. lia.
      * rewrite get_set_neq by lia.
        nat_cases.
Qed.

(** ** The two scans *)

Lemma next_scan_spec (n : Z) (k : nat) (d : list Z) (i : nat) :
  let r := next_scan n k d i in
  (r <= i)%nat
  /\ (forall j, (r < j <= i)%nat ->
        get d j = wrap (n - Z.of_nat k + Z.of_nat j))
  /\ (r = O \/ get d r <> wrap (n - Z.of_nat k + Z.of_nat r)).
Proof.
  induction i as [|i IH]; cbn [next_scan].
  - cbv zeta. split; [lia|]. split; [intros j Hj; lia|left; reflexivity].
  - destruct (get d (S i) =? wrap (n - Z.of_nat k + Z.of_nat (S i))) eqn:E.
    + cbv zeta in *. destruct IH as (H1 & H2 & H3).
      split; [lia|]. split; [|exact H3].
      intros j Hj. destruct (Nat.eq_dec j (S i)) as [->|Hne].
      * apply Z.eqb_eq, E.
      * apply H2. lia.
    + cbv zeta. split; [lia|]. split; [intros j Hj; lia|].
      right. apply Z.eqb_neq, E.
Qed.

Lemma prev_scan_spec (d : list Z) (i : nat) :
  let r := prev_scan d i in
  (r <= i)%nat
  /\ (forall j, (r <= j < i)%nat -> get d (S j) = wrap (get d j + 1))
  /\ (r = O \/ exists r', r = S r' /\ get d r <> wrap (get d r' + 1)).
Proof.
  induction i as [|i IH]; cbn [prev_scan].
  - cbv zeta. split; [lia|]. split; [intros j Hj; lia|left; reflexivity].
  - destruct (get d (S i) =? wrap (get d i + 1)) eqn:E.
    + cbv zeta in *. destruct IH as (H1 & H2 & H3).
      split; [lia|]. split; [|exact H3].
      intros j Hj. destruct (Nat.eq_dec j i) as [->|Hne].
      * apply Z.eqb_eq, E.
      * apply H2. lia.
    + cbv zeta. split; [lia|]. split; [intros j Hj; lia|].
      right. exists i. split; [reflexivity|]. apply Z.eqb_neq, E.
Qed.

(** ** Proper combinations *)

Lemma increasingb_spec (d : list Z) :
  increasingb d = true ->
  forall i, (S i < List.length d)%nat -> get d i < get d (S i).
Proof.
  induction d as [|x [|y t] IH]; cbn [increasingb List.length]; intros H i Hi;
    try lia.
  apply andb_true_iff in H. destruct H as [Hxy Ht].
  destruct i as [|i].
  - cbn. apply Z.ltb_lt, Hxy.
  - apply (IH Ht i). cbn [List.length]. lia.
Qed.

Lemma properb_spec (c : gsl_combination) : properb c = true -> proper c.
Proof.
  unfold properb, proper. intro H.
  repeat (apply andb_true_iff in H; destruct H as [H ?]).
  match goal with Hl : (_ =? _)%nat = true |- _ =>
    apply Nat.eqb_eq in Hl; rename Hl into Hlen end.
  split; [exact Hlen|]. split; [lia|]. split.
  - intros i Hi.
    match goal with Hf : forallb _ _ = true |- _ =>
      rewrite forallb_forall in Hf;
      specialize (Hf (get (data c) i)); rename Hf into Hall end.
    assert (Hin : In (get (data c) i) (data c)) by (apply nth_In; lia).
    apply Hall in Hin. lia.
  - intros i Hi. apply increasingb_spec; [assumption|lia].
Qed.

Lemma proper_gap (c : gsl_combination) :
  proper c ->
  forall i j, (i <= j < k c)%nat ->
    get (data c) i + Z.of_nat (j - i) <= get (data c) j.
Proof.
  intros (_ & _ & _ & Hinc) i j. induction j as [|j IH]; intro H.
  - replace i with O by lia. cbn. lia.
  - destruct (Nat.eq_dec i (S j)) as [->|Hne].
    + replace (S j - S j)%nat with O by lia. lia.
    + assert (get (data c) j < get (data c) (S j)) by (apply Hinc; lia).
      assert (get (data c) i + Z.of_nat (j - i) <= get (data c) j)
        by (apply IH; lia).
      lia.
Qed.

Lemma proper_bounds (c : gsl_combination) :
  proper c ->
  forall j, (j < k c)%nat ->
    Z.of_nat j <= get (data c) j <= n c - Z.of_nat (k c) + Z.of_nat j.
Proof.
  intros Hp j Hj. pose proof (proper_gap c Hp) as Hgap.
  destruct Hp as (_ & _ & Hrange & _).
  pose proof (Hgap O j ltac:(lia)) as H0.
  pose proof (Hgap j (k c - 1)%nat ltac:(lia)) as H1.
  pose proof (Hrange O ltac:(lia)) as R0.
  pose proof (Hrange (k c - 1)%nat ltac:(lia)) as R1.
  lia.
Qed.

Lemma proper_k_le_n (c : gsl_combination) :
  proper c -> Z.of_nat (k c) <= n c.
Proof.
  intro Hp. destruct (k c) as [|k'] eqn:Ek.
  - destruct Hp as (_ & Hn & _). lia.
  - pose proof (proper_bounds c Hp k') as H. rewrite Ek in H. lia.
Qed.

Lemma proper_wrap (c : gsl_combination) (j : nat) :
  proper c -> (j < k c)%nat ->
  wrap (n c - Z.of_nat (k c) + Z.of_nat j) = n c - Z.of_nat (k c) + Z.of_nat j.
Proof.
  intros Hp Hj. pose proof (proper_k_le_n c Hp).
  destruct Hp as (_ & Hn & _). apply wrap_small. lia.
Qed.

(** ** The two steps on proper combinations *)

Lemma next_cases (c : gsl_combination) :
  proper c ->
  (is_last c /\ gsl_combination_next c = (GSL_FAILURE, c))
  \/ exists i d',
       gsl_combination_next c
         = (GSL_SUCCESS, {| n := n c; k := k c; data := d' |})
       /\ (i < k c)%nat
       /\ List.length d' = k c
       /\ get (data c) i < n c - Z.of_nat (k c) + Z.of_nat i
       /\ (forall j, (i < j < k c)%nat ->
             get (data c) j = n c - Z.of_nat (k c) + Z.of_nat j)
       /\ (forall j, (j < i)%nat -> get d' j = get (data c) j)
       /\ (forall j, (i <= j < k c)%nat ->
             get d' j = get (data c) i + 1 + Z.of_nat (j - i)).
Proof.
  intro Hp. unfold gsl_combination_next.
  destruct (Nat.eqb_spec (k c) 0) as [Hk0|Hk0].
  { left. split; [|reflexivity]. intros j Hj. lia. }
  pose proof (next_scan_spec (n c) (k c) (data c) (k c - 1)) as Hscan.
  cbv zeta in Hscan. cbv zeta.
  set (i := next_scan (n c) (k c) (data c) (k c - 1)) in *.
  destruct Hscan as (Hle & Hmax & Hstop).
  assert (Hi : (i < k c)%nat) by lia.
  assert (Hmax' : forall j, (i < j < k c)%nat ->
            get (data c) j = n c - Z.of_nat (k c) + Z.of_nat j).
  { intros j Hj. rewrite (Hmax j) by lia. apply proper_wrap; [exact Hp|lia]. }
  pose proof (proper_bounds c Hp i Hi) as Hbi.
  destruct ((i =? 0)%nat && (get (data c) i =? wrap (n c - Z.of_nat (k c))))
    eqn:Elast.
  - left. split; [|reflexivity].
    apply andb_true_iff in Elast. destruct Elast as [E0 Eq].
    apply Nat.eqb_eq in E0. apply Z.eqb_eq in Eq.
    pose proof (proper_wrap c O Hp ltac:(lia)) as Hw.
    rewrite Z.add_0_r in Hw. rewrite Hw in Eq.
    intros j Hj. destruct (Nat.eq_dec j i) as [->|Hne].
    + rewrite E0 in *. cbn. lia.
    + apply Hmax'. lia.
  - right.
    assert (Hlt : get (data c) i < n c - Z.of_nat (k c) + Z.of_nat i).
    { apply andb_false_iff in Elast.
      destruct Hstop as [E0|Hne].
      - destruct Elast as [E|E].
        + apply Nat.eqb_neq in E. lia.
        + apply Z.eqb_neq in E.
          pose proof (proper_wrap c O Hp ltac:(lia)) as Hw.
          rewrite Z.add_0_r in Hw. rewrite Hw in E.
          rewrite E0 in *. cbn in *. lia.
      - rewrite (proper_wrap c i Hp Hi) in Hne. lia. }
    destruct Hp as (Hlen & Hn & Hrange & Hinc).
    pose proof (Hrange i Hi) as Hri.
    assert (Hw : wrap (get (data c) i + 1) = get (data c) i + 1)
      by (apply wrap_small; lia).
    rewrite Hw.
    destruct (next_fill_spec (k c - 1 - i)
                (set (data c) i (get (data c) i + 1)) i) as [L G].
    + rewrite length_set. lia.
    + rewrite get_set_eq by lia. lia.
    + rewrite get_set_eq by lia. lia.
    + rewrite length_set in L. rewrite get_set_eq in G by lia.
      eexists i, _. split; [reflexivity|].
      split; [exact Hi|]. split; [lia|]. split; [exact Hlt|].
      split; [exact Hmax'|]. split.
      * intros j Hj. rewrite G. rewrite get_set_neq by lia. nat_cases.
      * intros j Hj. rewrite G.
        destruct (Nat.eq_dec j i) as [->|Hne].
        -- rewrite get_set_eq by lia. nat_cases.
        -- nat_cases.
Qed.

Lemma prev_cases (c : gsl_combination) :
  proper c ->
  (is_first c /\ gsl_combination_prev c = (GSL_FAILURE, c))
  \/ exists i d',
       gsl_combination_prev c
         = (GSL_SUCCESS, {| n := n c; k := k c; data := d' |})
       /\ (i < k c)%nat
       /\ List.length d' = k c
       /\ Z.of_nat i < get (data c) i
       /\ (forall i', i = S i' -> get (data c) i' + 1 < get (data c) i)
       /\ (forall j, (i <= j < k c)%nat ->
             get (data c) j = get (data c) i + Z.of_nat (j - i))
       /\ (forall j, (j < i)%nat -> get d' j = get (data c) j)
       /\ get d' i = get (data c) i - 1
       /\ (forall j, (i < j < k c)%nat ->
             get d' j = n c - Z.of_nat (k c) + Z.of_nat j).
Proof.
  intro Hp. unfold gsl_combination_prev.
  destruct (Nat.eqb_spec (k c) 0) as [Hk0|Hk0].
  { left. split; [|reflexivity]. intros j Hj. lia. }
  pose proof (prev_scan_spec (data c) (k c - 1)) as Hscan.
  cbv zeta in Hscan. cbv zeta.
  set (i := prev_scan (data c) (k c - 1)) in *.
  destruct Hscan as (Hle & Hrun & Hstop).
  assert (Hi : (i < k c)%nat) by lia.
  pose proof (proper_bounds c Hp) as Hb.
  pose proof Hp as (Hlen & Hn & Hrange & Hinc).
  assert (Hrun' : forall j, (i <= j)%nat -> (S j < k c)%nat ->
            get (data c) (S j) = get (data c) j + 1).
  { intros j Hj Hjk. rewrite (Hrun j) by lia.
    pose proof (Hrange j ltac:(lia)). apply wrap_small. lia. }
  assert (Hstep : forall j, (i <= j < k c)%nat ->
            get (data c) j = get (data c) i + Z.of_nat (j - i)).
  { intros j. induction j as [|j IH]; intro Hj.
    - replace i with O by lia. cbn. lia.
    - destruct (Nat.eq_dec i (S j)) as [->|Hne].
      + replace (S j - S j)%nat with O by lia. lia.
      + rewrite Hrun' by lia. rewrite IH by lia. lia. }
  destruct ((i =? 0)%nat && (get (data c) i =? 0)) eqn:Efirst.
  - left. split; [|reflexivity].
    apply andb_true_iff in Efirst. destruct Efirst as [E0 Eq].
    apply Nat.eqb_eq in E0. apply Z.eqb_eq in Eq.
    intros j Hj. rewrite (Hstep j) by lia. rewrite Eq, E0. lia.
  - right.
    assert (Hgt : Z.of_nat i < get (data c) i
                  /\ forall i', i = S i' ->
                       get (data c) i' + 1 < get (data c) i).
    { apply andb_false_iff in Efirst.
      destruct Hstop as [E0|(i' & Ei & Hne)].
      - split; [|intros i' Ei; lia].
        destruct Efirst as [E|E].
        + apply Nat.eqb_neq in E. lia.
        + apply Z.eqb_neq in E. pose proof (Hrange i Hi). lia.
      - pose proof (Hrange i' ltac:(lia)) as Hr'.
        rewrite wrap_small in Hne by lia.
        pose proof (Hinc i' ltac:(lia)) as Hlt. rewrite <- Ei in Hlt.
        pose proof (Hb i' ltac:(lia)).
        split; [lia|]. intros i'' Ei'. assert (i'' = i') as -> by lia. lia. }
    destruct Hgt as [Hgt0 Hgt1].
    assert (Hw : wrap (get (data c) i - 1) = get (data c) i - 1).
    { pose proof (Hrange i Hi). apply wrap_small. lia. }
    rewrite Hw.
    destruct (prev_fill_spec (n c) (k c) (k c - S i)
                (set (data c) i (get (data c) i - 1)) (S i)) as [L G].
    + rewrite length_set. lia.
    + rewrite length_set in L.
      eexists i, _. split; [reflexivity|].
      split; [exact Hi|]. split; [lia|]. split; [exact Hgt0|].
      split; [exact Hgt1|]. split; [exact Hstep|]. split; [|split].
      * intros j Hj. rewrite G. rewrite get_set_neq by lia. nat_cases.
      * rewrite G. rewrite get_set_eq by lia. nat_cases.
      * intros j Hj. rewrite G. rewrite (proper_wrap c j Hp) by lia.
        nat_cases.
Qed.

(** ** What the two steps guarantee *)

Lemma next_proper (c c' : gsl_combination) :
  proper c ->
  gsl_combination_next c = (GSL_SUCCESS, c') ->
  proper c'.
Proof.
  intros Hp Hnext. pose proof (proper_bounds c Hp) as Hb.
  destruct (next_cases c Hp) as [[_ E]|(i & d' & E & Hi & Hlen' & Hlt & Hmax
                                         & Hpre & Hsuf)];
    rewrite E in Hnext; [discriminate Hnext|].
  injection Hnext as <-.
  destruct Hp as (Hlen & Hn & Hrange & Hinc).
  unfold proper. cbn [n k data].
  split; [exact Hlen'|]. split; [exact Hn|]. split.
  - intros j Hj. destruct (Nat.lt_ge_cases j i) as [Hji|Hji].
    + rewrite Hpre by lia. apply Hrange, Hj.
    + rewrite Hsuf by lia. pose proof (Hrange i Hi). lia.
  - intros j Hj. destruct (Nat.lt_ge_cases (S j) i) as [Hji|Hji].
    + rewrite !Hpre by lia. apply Hinc, Hj.
    + destruct (Nat.eq_dec (S j) i) as [Ei|Hne].
      * rewrite Hpre by lia. rewrite Hsuf by lia.
        pose proof (Hinc j ltac:(lia)) as Hlt'. rewrite Ei in Hlt'. lia.
      * rewrite !Hsuf by lia. lia.
Qed.

(** [gsl_combination_next] keeps a combination proper, and leaves [n] and
    [k] as they are. *)
Theorem next_keeps_proper (c c' : gsl_combination) :
  proper c ->
  gsl_combination_next c = (GSL_SUCCESS, c') ->
  proper c' /\ n c' = n c /\ k c' = k c.
Proof.
  intros Hp Hnext. split; [exact (next_proper c c' Hp Hnext)|].
  unfold gsl_combination_next in Hnext.
  destruct (k c =? 0)%nat; [discriminate Hnext|].
  cbv zeta in Hnext.
  destruct (_ && _); [discriminate Hnext|].
  injection Hnext as <-. split; reflexivity.
Qed.

Lemma prev_proper (c c' : gsl_combination) :
  proper c ->
  gsl_combination_prev c = (GSL_SUCCESS, c') ->
  proper c'.
Proof.
  intros Hp Hprev. pose proof (proper_bounds c Hp) as Hb.
  pose proof (proper_k_le_n c Hp) as Hkn.
  destruct (prev_cases c Hp) as [[_ E]|(i & d' & E & Hi & Hlen' & Hgt0 & Hgt1
                                         & Hrun & Hpre & Hat & Hsuf)];
    rewrite E in Hprev; [discriminate Hprev|].
  injection Hprev as <-.
  destruct Hp as (Hlen & Hn & Hrange & Hinc).
  unfold proper. cbn [n k data].
  split; [exact Hlen'|]. split; [exact Hn|]. split.
  - intros j Hj. destruct (Nat.lt_trichotomy j i) as [Hji|[->|Hji]].
    + rewrite Hpre by lia. apply Hrange, Hj.
    + rewrite Hat. pose proof (Hrange i Hi). lia.
    + rewrite Hsuf by lia. lia.
  - intros j Hj. destruct (Nat.lt_trichotomy (S j) i) as [Hji|[Ei|Hji]].
    + rewrite !Hpre by lia. apply Hinc, Hj.
    + rewrite Hpre by lia. rewrite <- Ei in Hat. rewrite Hat.
      pose proof (Hgt1 j ltac:(lia)) as Hlt'. rewrite <- Ei in Hlt'. lia.
    + destruct (Nat.eq_dec j i) as [->|Hne].
      * rewrite Hat, Hsuf by lia. pose proof (Hb i Hi). lia.
      * rewrite !Hsuf by lia. lia.
Qed.

(** [gsl_combination_prev] keeps a combination proper, and leaves [n] and
    [k] as they are. *)
Theorem prev_keeps_proper (c c' : gsl_combination) :
  proper c ->
  gsl_combination_prev c = (GSL_SUCCESS, c') ->
  proper c' /\ n c' = n c /\ k c' = k c.
Proof.
  intros Hp Hprev. split; [exact (prev_proper c c' Hp Hprev)|].
  unfold gsl_combination_prev in Hprev.
  destruct (k c =? 0)%nat; [discriminate Hprev|].
  cbv zeta in Hprev.
  destruct (_ && _); [discriminate Hprev|].
  injection Hprev as <-. split; reflexivity.
Qed.

Lemma combination_eta (c : gsl_combination) :
  {| n := n c; k := k c; data := data c |} = c.
Proof. destruct c; reflexivity. Qed.

(** Stepping forward and then back gives the combination back. *)
Theorem prev_next (c c' : gsl_combination) :
  proper c ->
  gsl_combination_next c = (GSL_SUCCESS, c') ->
  gsl_combination_prev c' = (GSL_SUCCESS, c).
Proof.
  intros Hp Hnext.
  pose proof (next_proper c c' Hp Hnext) as Hp'.
  pose proof (proper_bounds c Hp) as Hb.
  destruct (next_cases c Hp) as [[_ E]|(i & d' & E & Hi & Hlen' & Hlt & Hmax
                                         & Hpre & Hsuf)];
    rewrite E in Hnext; [discriminate Hnext|].
  injection Hnext as <-. cbn [n k data] in *.
  destruct (prev_cases _ Hp') as [[Hfirst _]|(i2 & d2 & E2 & Hi2 & Hlen2 & Hgt0
                                             & Hgt1 & Hrun & Hpre2 & Hat2
                                             & Hsuf2)];
    cbn [n k data] in *.
  { specialize (Hfirst i Hi). rewrite Hsuf in Hfirst by lia.
    pose proof (Hb i Hi). lia. }
  destruct Hp as (Hlen & Hn & Hrange & Hinc).
  assert (i2 = i) as ->.
  { destruct (Nat.lt_trichotomy i2 i) as [Hlt2|[Heq|Hgt2]]; [|exact Heq|].
    - exfalso. destruct i as [|i1]; [lia|].
      pose proof (Hrun (S i1) ltac:(lia)) as R1.
      pose proof (Hrun i1 ltac:(lia)) as R0.
      rewrite Hsuf in R1 by lia. rewrite Hpre in R0 by lia.
      pose proof (Hinc i1 ltac:(lia)). lia.
    - exfalso. destruct i2 as [|i3]; [lia|].
      pose proof (Hgt1 i3 eq_refl) as G.
      rewrite !Hsuf in G by lia.
      replace (Z.of_nat (S i3 - i)) with (Z.of_nat (i3 - i) + 1) in G by lia.
      lia. }
  rewrite E2. f_equal. rewrite <- (combination_eta c). f_equal.
  apply get_ext; [lia|]. intros j Hj. rewrite Hlen2 in Hj.
  destruct (Nat.lt_trichotomy j i) as [Hji|[->|Hji]].
  - rewrite Hpre2, Hpre by lia. reflexivity.
  - rewrite Hat2, Hsuf by lia. replace (i - i)%nat with O by lia. lia.
  - rewrite Hsuf2, Hmax by lia. reflexivity.
Qed.

(** Stepping back and then forward gives the combination back. *)
Theorem next_prev (c c' : gsl_combination) :
  proper c ->
  gsl_combination_prev c = (GSL_SUCCESS, c') ->
  gsl_combination_next c' = (GSL_SUCCESS, c).
Proof.
  intros Hp Hprev.
  pose proof (prev_proper c c' Hp Hprev) as Hp'.
  pose proof (proper_bounds c Hp) as Hb.
  destruct (prev_cases c Hp) as [[_ E]|(i & d' & E & Hi & Hlen' & Hgt0 & Hgt1
                                         & Hrun & Hpre & Hat & Hsuf)];
    rewrite E in Hprev; [discriminate Hprev|].
  injection Hprev as <-. cbn [n k data] in *.
  destruct (next_cases _ Hp') as [[Hlast _]|(i2 & d2 & E2 & Hi2 & Hlen2 & Hlt2
                                            & Hmax2 & Hpre2 & Hsuf2)];
    cbn [n k data] in *.
  { specialize (Hlast i Hi). cbn [n k data] in Hlast. rewrite Hat in Hlast.
    pose proof (Hb i Hi). lia. }
  destruct Hp as (Hlen & Hn & Hrange & Hinc).
  assert (i2 = i) as ->.
  { destruct (Nat.lt_trichotomy i2 i) as [Hl|[Heq|Hg]]; [|exact Heq|].
    - exfalso. pose proof (Hmax2 i ltac:(lia)) as M. rewrite Hat in M.
      pose proof (Hb i Hi). lia.
    - exfalso. rewrite Hsuf in Hlt2 by lia. lia. }
  rewrite E2. f_equal. rewrite <- (combination_eta c). f_equal.
  apply get_ext; [lia|]. intros j Hj. rewrite Hlen2 in Hj.
  destruct (Nat.lt_ge_cases j i) as [Hji|Hji].
  - rewrite Hpre2, Hpre by lia. reflexivity.
  - rewrite Hsuf2, Hat by lia. rewrite (Hrun j) by lia. lia.
Qed.

(** [gsl_combination_next] fails exactly on the last combination, and then
    leaves it as it is; it never returns a third status. *)
Theorem next_fails_on_last (c : gsl_combination) :
  proper c ->
  (fst (gsl_combination_next c) = GSL_FAILURE <-> is_last c)
  /\ (fst (gsl_combination_next c) = GSL_SUCCESS <-> ~ is_last c)
  /\ (is_last c -> snd (gsl_combination_next c) = c).
Proof.
  intro Hp.
  destruct (next_cases c Hp) as [[Hl E]|(i & d' & E & Hi & _ & Hlt & _)];
    rewrite E; cbn [fst snd].
  - split; [tauto|]. split; [|reflexivity].
    split; [discriminate|tauto].
  - assert (Hnl : ~ is_last c).
    { intro Hl. specialize (Hl i Hi). lia. }
    split; [split; [discriminate|tauto]|]. split; [tauto|tauto].
Qed.

(** [gsl_combination_prev] fails exactly on the first combination, and
    then leaves it as it is. *)
Theorem prev_fails_on_first (c : gsl_combination) :
  proper c ->
  (fst (gsl_combination_prev c) = GSL_FAILURE <-> is_first c)
  /\ (fst (gsl_combination_prev c) = GSL_SUCCESS <-> ~ is_first c)
  /\ (is_first c -> snd (gsl_combination_prev c) = c).
Proof.
  intro Hp.
  destruct (prev_cases c Hp) as [[Hf E]|(i & d' & E & Hi & _ & Hgt & _)];
    rewrite E; cbn [fst snd].
  - split; [tauto|]. split; [|reflexivity].
    split; [discriminate|tauto].
  - assert (Hnf : ~ is_first c).
    { intro Hf. specialize (Hf i Hi). lia. }
    split; [split; [discriminate|tauto]|]. split; [tauto|tauto].
Qed.

(** ** The order of the steps *)

Lemma first_difference (d : list Z) :
  forall e, List.length d = List.length e ->
    d = e
    \/ exists q, (q < List.length d)%nat
                 /\ (forall j, (j < q)%nat -> get d j = get e j)
                 /\ get d q <> get e q.
Proof.
  induction d as [|x d IH]; intros [|y e] Hlen; cbn [List.length] in Hlen;
    try lia.
  - left; reflexivity.
  - destruct (Z.eq_dec x y) as [->|Hxy].
    + destruct (IH e ltac:(lia)) as [->|(q & Hq & Hpre & Hne)].
      * left; reflexivity.
      * right. exists (S q). cbn [List.length]. split; [lia|]. split.
        -- intros [|j] Hj; [reflexivity|]. apply Hpre. lia.
        -- exact Hne.
    + right. exists O. cbn [List.length]. split; [lia|]. split.
      * intros j Hj. lia.
      * exact Hxy.
Qed.

Lemma next_increases (c c' : gsl_combination) :
  proper c ->
  gsl_combination_next c = (GSL_SUCCESS, c') ->
  lex_lt (data c) (data c').
Proof.
  intros Hp Hnext.
  destruct (next_cases c Hp) as [[_ E]|(i & d' & E & Hi & Hlen' & Hlt & Hmax
                                         & Hpre & Hsuf)];
    rewrite E in Hnext; [discriminate Hnext|].
  injection Hnext as <-. cbn [n k data] in *.
  pose proof Hp as (Hlen & _).
  exists i. split; [lia|]. split.
  - intros j Hj. symmetry. apply Hpre, Hj.
  - rewrite Hsuf by lia. lia.
Qed.

Lemma next_least_above (c c' e : gsl_combination) :
  proper c ->
  gsl_combination_next c = (GSL_SUCCESS, c') ->
  proper e -> n e = n c -> k e = k c ->
  lex_lt (data c) (data e) ->
  data e = data c' \/ lex_lt (data c') (data e).
Proof.
  intros Hp Hnext. pose proof (proper_bounds c Hp) as Hb.
  destruct (next_cases c Hp) as [[_ E]|(i & d' & E & Hi & Hlen' & Hlt & Hmax
                                         & Hpre & Hsuf)];
    rewrite E in Hnext; [discriminate Hnext|].
  injection Hnext as <-. cbn [n k data] in *.
  pose proof Hp as (Hlen & Hn & Hrange & Hinc).
  intros He Hne Hke (q & Hq & Heq & Hless).
  pose proof (proper_bounds e He) as Hbe.
  pose proof (proper_gap e He) as Hge.
  pose proof He as (Hlene & _).
  rewrite Hne, Hke in *. rewrite Hlen in Hq.
  assert (Hqi : (q <= i)%nat).
  { destruct (Nat.le_gt_cases q i) as [H|H]; [exact H|].
    exfalso. rewrite Hmax in Hless by lia. pose proof (Hbe q Hq). lia. }
  assert (Hsame : forall j, (j < q)%nat -> get d' j = get (data e) j).
  { intros j Hj. rewrite Hpre by lia. apply Heq, Hj. }
  destruct (Nat.eq_dec q i) as [->|Hqne].
  - (* the two differ first where the step writes *)
    assert (Hge' : forall j, (i <= j < k c)%nat -> get d' j <= get (data e) j).
    { intros j Hj. rewrite Hsuf by lia.
      pose proof (Hge i j ltac:(lia)). lia. }
    destruct (first_difference d' (data e) ltac:(lia))
      as [->|(r & Hr & Hrpre & Hrne)]; [left; reflexivity|].
    right. exists r. split; [exact Hr|]. split; [exact Hrpre|].
    rewrite Hlen' in Hr.
    destruct (Nat.lt_ge_cases r i) as [Hri|Hri].
    + exfalso. apply Hrne. apply Hsame, Hri.
    + pose proof (Hge' r ltac:(lia)). lia.
  - right. exists q. split; [lia|]. split; [exact Hsame|].
    rewrite Hpre by lia. exact Hless.
Qed.

(** [gsl_combination_next] moves to the next combination of the
    lexicographic order: the result is larger, and no proper combination of
    the same [n] and [k] lies strictly between the two. *)
Theorem next_is_successor (c c' : gsl_combination) :
  proper c ->
  gsl_combination_next c = (GSL_SUCCESS, c') ->
  lex_lt (data c) (data c')
  /\ forall e, proper e -> n e = n c -> k e = k c ->
       lex_lt (data c) (data e) ->
       data e = data c' \/ lex_lt (data c') (data e).
Proof.
  intros Hp Hnext. split.
  - exact (next_increases c c' Hp Hnext).
  - intros e He Hn Hk Hlt.
    exact (next_least_above c c' e Hp Hnext He Hn Hk Hlt).
Qed.

(** ** gsl_combination_valid *)

Lemma valid_inner_none (d : list Z) (i : nat) (js : list nat) :
  valid_inner d i js = None <-> forall j, In j js -> get d i < get d j.
Proof.
  induction js as [|j js IH]; cbn [valid_inner].
  - split; [intros _ j []|reflexivity].
  - destruct (Z.eqb_spec (get d i) (get d j)) as [Heq|Hne].
    + split; [discriminate|]. intro H.
      specialize (H j (or_introl eq_refl)). lia.
    + destruct (get d i >? get d j) eqn:Hgt.
      * split; [discriminate|]. intro H.
        specialize (H j (or_introl eq_refl)).
        apply Z.gtb_lt in Hgt. lia.
      * rewrite IH. split.
        -- intros H j' [<-|Hin]; [|apply H, Hin].
           assert (~ get d j < get d i).
           { intro L. apply Z.gtb_lt in L. congruence. }
           lia.
        -- intros H j' Hin. apply H. right; exact Hin.
Qed.

Lemma valid_outer_none (n : Z) (d : list Z) (todo : list nat) :
  valid_outer n d todo = None
  <-> forall i, In i todo ->
        get d i < n /\ forall j, (j < i)%nat -> get d i < get d j.
Proof.
  induction todo as [|i todo IH]; cbn [valid_outer].
  - split; [intros _ i []|reflexivity].
  - destruct (get d i >=? n) eqn:Hge.
    + split; [discriminate|]. intro H.
      destruct (H i (or_introl eq_refl)) as [Hlt _].
      apply Z.geb_le in Hge. lia.
    + assert (Hlt : get d i < n).
      { destruct (Z.lt_ge_cases (get d i) n) as [L|L]; [exact L|].
        apply Z.geb_le in L. congruence. }
      destruct (valid_inner d i (seq 0 i)) as [reason|] eqn:Hin.
      * split; [discriminate|]. intro H.
        destruct (H i (or_introl eq_refl)) as [_ Hdec].
        assert (Hnone : valid_inner d i (seq 0 i) = None).
        { apply valid_inner_none. intros j Hj. apply in_seq in Hj.
          apply Hdec. lia. }
        congruence.
      * rewrite IH. pose proof (proj1 (valid_inner_none _ _ _) Hin) as Hdec.
        split.
        -- intros H i' [<-|Hi']; [|apply H, Hi'].
           split; [exact Hlt|]. intros j Hj. apply Hdec, in_seq. lia.
        -- intros H i' Hi'. apply H. right; exact Hi'.
Qed.

(** On a combination whose array has its [k] entries,
    [gsl_combination_valid] returns [GSL_SUCCESS] exactly when [k <= n], the
    indices are below [n] and each index is smaller than all the indices
    before it; every other combination gets [GSL_FAILURE]. *)
Theorem valid_accepts_decreasing (c : gsl_combination) :
  List.length (data c) = k c ->
  (snd (gsl_combination_valid c) = GSL_SUCCESS
   <-> Z.of_nat (k c) <= n c
       /\ (forall i, (i < k c)%nat -> get (data c) i < n c)
       /\ (forall j i, (j < i < k c)%nat -> get (data c) i < get (data c) j))
  /\ (snd (gsl_combination_valid c) = GSL_SUCCESS
      \/ snd (gsl_combination_valid c) = GSL_FAILURE).
Proof.
  intros _. unfold gsl_combination_valid.
  destruct (Z.of_nat (k c) >? n c) eqn:Hk.
  - cbn. apply Z.gtb_lt in Hk. split; [|right; reflexivity].
    split; [discriminate|]. intros (H & _). lia.
  - assert (Hkn : Z.of_nat (k c) <= n c).
    { destruct (Z.le_gt_cases (Z.of_nat (k c)) (n c)) as [L|L]; [exact L|].
      apply Z.gtb_lt in L. congruence. }
    destruct (valid_outer (n c) (data c) (seq 0 (k c))) as [reason|] eqn:Ho.
    + cbn. split; [|right; reflexivity].
      split; [discriminate|]. intros (_ & Hr & Hd).
      assert (Hnone : valid_outer (n c) (data c) (seq 0 (k c)) = None).
      { apply valid_outer_none. intros i Hi. apply in_seq in Hi.
        split; [apply Hr; lia|]. intros j Hj. apply Hd. lia. }
      congruence.
    + cbn. split; [|left; reflexivity].
      split; [|reflexivity]. intros _.
      pose proof (proj1 (valid_outer_none _ _ _) Ho) as H.
      split; [exact Hkn|]. split.
      * intros i Hi. apply H, in_seq. lia.
      * intros j i Hji. destruct (H i) as [_ Hd]; [apply in_seq; lia|].
        apply Hd. lia.
Qed.

(** [gsl_combination_valid] rejects every proper combination of two or more
    indices, with the error that they are not in increasing order. *)
Theorem valid_rejects_increasing (c : gsl_combination) :
  proper c ->
  (2 <= k c)%nat ->
  gsl_combination_valid c
  = GSL_ERROR "combination index no in increasing order" GSL_FAILURE.
Proof.
  intros Hp Hk. pose proof (proper_k_le_n c Hp) as Hkn.
  destruct Hp as (_ & _ & Hrange & Hinc).
  unfold gsl_combination_valid.
  assert ((Z.of_nat (k c) >? n c) = false) as ->.
  { destruct (Z.of_nat (k c) >? n c) eqn:E; [|reflexivity].
    apply Z.gtb_lt in E. lia. }
  destruct (k c) as [|[|k']] eqn:Ek; try lia.
  cbn [seq valid_outer valid_inner].
  pose proof (Hrange 0%nat ltac:(lia)) as R0.
  pose proof (Hrange 1%nat ltac:(lia)) as R1.
  pose proof (Hinc 0%nat ltac:(lia)) as I0.
  assert ((get (data c) 0 >=? n c) = false) as ->.
  { destruct (get (data c) 0 >=? n c) eqn:E; [|reflexivity].
    apply Z.geb_le in E. lia. }
  assert ((get (data c) 1 >=? n c) = false) as ->.
  { destruct (get (data c) 1 >=? n c) eqn:E; [|reflexivity].
    apply Z.geb_le in E. lia. }
  assert ((get (data c) 1 =? get (data c) 0) = false) as ->
    by (apply Z.eqb_neq; lia).
  assert ((get (data c) 1 >? get (data c) 0) = true) as ->
    by (apply Z.gtb_lt; lia).
  reflexivity.
Qed.

(** ** Enumeration *)

Lemma value_bound (n : Z) (d : list Z) :
  (forall i, (i < List.length d)%nat -> 0 <= get d i < n) ->
  0 <= value n d < n ^ Z.of_nat (List.length d).
Proof.
  induction d as [|x t IH]; intro H; cbn [value List.length].
  - cbn. lia.
  - assert (Hx : 0 <= x < n) by (apply (H O); cbn; lia).
    assert (Ht : 0 <= value n t < n ^ Z.of_nat (List.length t)).
    { apply IH. intros i Hi. apply (H (S i)). cbn. lia. }
    rewrite Nat2Z.inj_succ, Z.pow_succ_r by lia. nia.
Qed.

Lemma lex_lt_value (n : Z) (d : list Z) :
  forall e, List.length d = List.length e ->
    (forall i, (i < List.length d)%nat -> 0 <= get d i < n) ->
    (forall i, (i < List.length e)%nat -> 0 <= get e i < n) ->
    lex_lt d e -> value n d < value n e.
Proof.
  induction d as [|x t IH]; intros [|y u] Hlen Hd He (q & Hq & Hpre & Hlt);
    cbn [List.length] in *; try lia.
  assert (Ht : forall i, (i < List.length t)%nat -> 0 <= get t i < n).
  { intros i Hi. apply (Hd (S i)). lia. }
  assert (Hu : forall i, (i < List.length u)%nat -> 0 <= get u i < n).
  { intros i Hi. apply (He (S i)). lia. }
  pose proof (value_bound n t Ht) as Bt.
  pose proof (value_bound n u Hu) as Bu.
  assert (Hl : List.length t = List.length u) by lia.
  rewrite <- Hl in Bu. cbn [value]. rewrite <- Hl.
  destruct q as [|q].
  - cbn in Hlt. nia.
  - assert (x = y) as -> by (apply (Hpre O); lia).
    assert (value n t < value n u).
    { apply IH; try assumption. exists q. split; [lia|]. split.
      - intros j Hj. apply (Hpre (S j)). lia.
      - exact Hlt. }
    lia.
Qed.

Lemma iter_next_step (m : nat) (c c' : gsl_combination) :
  gsl_combination_next c = (GSL_SUCCESS, c') ->
  iter_next (S m) c = iter_next m c'.
Proof. intro E. cbn [iter_next]. rewrite E. reflexivity. Qed.

(** Repeated calls of [gsl_combination_next] enumerate the combinations in
    the lexicographic order: they reach every proper combination of the
    same [n] and [k] that is larger than the starting one, and started on
    the first combination they reach every proper combination. *)
Theorem next_enumerates (c e : gsl_combination) :
  proper c -> proper e -> n e = n c -> k e = k c ->
  lex_lt (data c) (data e) \/ is_first c ->
  exists m, iter_next m c = Some e.
Proof.
  intros Hc He Hn Hk Hstart.
  assert (Hcases : lex_lt (data c) (data e) \/ data c = data e).
  { destruct Hstart as [Hlt|Hfirst]; [left; exact Hlt|].
    pose proof Hc as (Hlenc & _). pose proof He as (Hlene & _).
    destruct (first_difference (data c) (data e) ltac:(lia))
      as [Heq|(q & Hq & Hpre & Hne)]; [right; exact Heq|].
    left. exists q. split; [exact Hq|]. split; [exact Hpre|].
    rewrite Hlenc in Hq. rewrite (Hfirst q Hq) in *.
    pose proof (proper_bounds e He q ltac:(lia)). lia. }
  clear Hstart. destruct Hcases as [Hlt|Heq].
  2:{ exists O. cbn [iter_next]. f_equal.
      rewrite <- (combination_eta e), <- (combination_eta c).
      rewrite Hn, Hk, Heq. reflexivity. }
  remember (Z.to_nat (value (n c) (data e) - value (n c) (data c))) as dist
    eqn:Hdist.
  revert c Hc Hn Hk Hlt Hdist.
  induction dist as [dist IH] using lt_wf_ind.
  intros c Hc Hn Hk Hlt Hdist.
  pose proof Hc as (Hlenc & _ & Hrc & _).
  pose proof He as (Hlene & _ & Hre & _).
  destruct (next_cases c Hc) as [[Hlast _]|(i & d' & E & Hi & Hlen' & Hlti
                                            & Hmax & Hpre & Hsuf)].
  { exfalso. destruct Hlt as (q & Hq & _ & Hless).
    rewrite Hlenc in Hq. rewrite (Hlast q Hq) in Hless.
    pose proof (proper_bounds e He q ltac:(lia)). lia. }
  pose proof (next_proper c _ Hc E) as Hc'.
  pose proof (next_increases c _ Hc E) as Hup.
  pose proof (next_least_above c _ e Hc E He Hn Hk Hlt) as Hsucc.
  cbn [n k data] in *.
  destruct Hsucc as [Heq|Hlt'].
  - exists 1%nat. rewrite (iter_next_step _ _ _ E). cbn [iter_next].
    f_equal. rewrite <- (combination_eta e). rewrite Hn, Hk, Heq. reflexivity.
  - assert (Hv : value (n c) (data c) < value (n c) d').
    { apply lex_lt_value; [lia| | |exact Hup].
      - intros j Hj. apply Hrc. lia.
      - intros j Hj. destruct Hc' as (_ & _ & Hr' & _). apply Hr'.
        cbn [k]. lia. }
    assert (Hv' : value (n c) d' < value (n c) (data e)).
    { apply lex_lt_value; [lia| | |exact Hlt'].
      - intros j Hj. destruct Hc' as (_ & _ & Hr' & _). apply Hr'.
        cbn [k]. lia.
      - intros j Hj. rewrite <- Hn. apply Hre. lia. }
    destruct (IH (Z.to_nat (value (n c) (data e) - value (n c) d'))
                ltac:(lia) {| n := n c; k := k c; data := d' |})
      as [m Hm]; cbn [n k data]; try assumption; try reflexivity.
    exists (S m). rewrite (iter_next_step _ _ _ E). exact Hm.
Qed.

(** ** The theorems at three out of five *)

Lemma proper_c_024 : proper c_024.
Proof. apply properb_spec. reflexivity. Defined.

Lemma proper_c_034 : proper c_034.
Proof. apply properb_spec. reflexivity. Defined.

Lemma proper_c_012 : proper c_012.
Proof. apply properb_spec. reflexivity. Defined.

Lemma proper_c_234 : proper c_234.
Proof. apply properb_spec. reflexivity. Defined.

Lemma next_keeps_proper_witness :
  proper c_034 /\ n c_034 = n c_024 /\ k c_034 = k c_024.
Proof.
  apply (next_keeps_proper c_024 c_034); [exact proper_c_024|reflexivity].
Defined.

Lemma prev_keeps_proper_witness :
  proper c_024 /\ n c_024 = n c_034 /\ k c_024 = k c_034.
Proof.
  apply (prev_keeps_proper c_034 c_024); [exact proper_c_034|reflexivity].
Defined.

Lemma prev_next_witness :
  gsl_combination_next c_024 = (GSL_SUCCESS, c_034)
  /\ gsl_combination_prev c_034 = (GSL_SUCCESS, c_024).
Proof.
  split; [reflexivity|].
  apply (prev_next c_024 c_034); [exact proper_c_024|reflexivity].
Defined.

Lemma next_prev_witness :
  gsl_combination_prev c_034 = (GSL_SUCCESS, c_024)
  /\ gsl_combination_next c_024 = (GSL_SUCCESS, c_034).
Proof.
  split; [reflexivity|].
  apply (next_prev c_034 c_024); [exact proper_c_034|reflexivity].
Defined.

Lemma next_fails_on_last_witness :
  (fst (gsl_combination_next c_234) = GSL_FAILURE <-> is_last c_234)
  /\ (fst (gsl_combination_next c_234) = GSL_SUCCESS <-> ~ is_last c_234)
  /\ (is_last c_234 -> snd (gsl_combination_next c_234) = c_234).
Proof. apply (next_fails_on_last c_234). exact proper_c_234. Defined.

Lemma prev_fails_on_first_witness :
  (fst (gsl_combination_prev c_012) = GSL_FAILURE <-> is_first c_012)
  /\ (fst (gsl_combination_prev c_012) = GSL_SUCCESS <-> ~ is_first c_012)
  /\ (is_first c_012 -> snd (gsl_combination_prev c_012) = c_012).
Proof. apply (prev_fails_on_first c_012). exact proper_c_012. Defined.

Lemma next_is_successor_witness :
  lex_lt (data c_024) (data c_034)
  /\ forall e, proper e -> n e = n c_024 -> k e = k c_024 ->
       lex_lt (data c_024) (data e) ->
       data e = data c_034 \/ lex_lt (data c_034) (data e).
Proof.
  apply (next_is_successor c_024 c_034); [exact proper_c_024|reflexivity].
Defined.

Lemma valid_accepts_decreasing_witness :
  (snd (gsl_combination_valid c_420) = GSL_SUCCESS
   <-> Z.of_nat (k c_420) <= n c_420
       /\ (forall i, (i < k c_420)%nat -> get (data c_420) i < n c_420)
       /\ (forall j i, (j < i < k c_420)%nat ->
             get (data c_420) i < get (data c_420) j))
  /\ (snd (gsl_combination_valid c_420) = GSL_SUCCESS
      \/ snd (gsl_combination_valid c_420) = GSL_FAILURE).
Proof. apply (valid_accepts_decreasing c_420). reflexivity. Defined.

Lemma valid_rejects_increasing_witness :
  gsl_combination_valid c_024
  = GSL_ERROR "combination index no in increasing order" GSL_FAILURE.
Proof.
  apply (valid_rejects_increasing c_024); [exact proper_c_024|cbn; lia].
Defined.

(** From the first of the ten combinations to the one with indices 0, 2
    and 4. *)
Lemma next_enumerates_witness :
  exists m, iter_next m c_012 = Some c_024.
Proof.
  apply (next_enumerates c_012 c_024);
    [exact proper_c_012|exact proper_c_024|reflexivity|reflexivity|].
  right. intros j Hj. cbn in Hj.
  destruct j as [|[|[|j]]]; [reflexivity|reflexivity|reflexivity|lia].
Defined.

End Combination.

(** * The preloop and the step together

    What [subspace2D_preloop] leaves in the state, and what
    [subspace2D_step] can rely on afterwards. *)

Module Subspace2DPreloop.

Import Subspace2D.

Local Open Scope Q_scope.

Section Views.

Context {K : gsl_kernels}.

(** The state after a preloop whose three solver calls succeeded, [x] being
    the Gauss-Newton step the solver stored, written field by field. *)
Definition preloop_state (trust : trust_state) (x : gsl_vector)
    (s : subspace2D_state_t) : subspace2D_state_t :=
  let g := ts_g trust in
  let workn1 := gsl_blas_dgemv 1 (ts_J trust) g 0 (workn s) in
  let u := gsl_blas_dnrm2 g / gsl_blas_dnrm2 workn1 in
  let dx_sd1 := gsl_vector_scale g (- (u * u)) in
  let W1 := set_column (set_column (W s) 0 dx_sd1) 1 x in
  let QR := fst (fst (gsl_linalg_QRPT_decomp W1)) in
  let tau1 := snd (fst (gsl_linalg_QRPT_decomp W1)) in
  let perm1 := snd (gsl_linalg_QRPT_decomp W1) in
  let r := qr_nonsing QR in
  if (r =? 2)%nat then
    let workp1 := gsl_linalg_QR_QTvec QR tau1 g in
    let g0 := nth 0 workp1 0 in
    let g1 := nth 1 workp1 0 in
    let J1 := gsl_linalg_QR_matQ QR tau1 (ts_J trust) in
    let B := gsl_blas_dsyrk 1
               (gsl_matrix_submatrix J1 0 0 (n s) (Nat.min 2 (p s))) 0
               (subB s) in
    {| n := n s; p := p s; dx_gn := x; dx_sd := dx_sd1;
       norm_gn := gsl_blas_dnrm2 x; norm_sd := gsl_blas_dnrm2 dx_sd1;
       workp := workp1; workn := workn1; W := QR; J := J1; tau := tau1;
       subg := (g0, g1); subB := B; perm := perm1;
       trB := m00 B + m11 B;
       detB := m00 B * m11 B - m10 B * m10 B;
       normg := gsl_blas_dnrm2 [g0; g1];
       term0 := (m10 B * m10 B + m11 B * m11 B) * g0 * g0
                - 2 * m10 B * (m00 B + m11 B) * g0 * g1
                + (m00 B * m00 B + m10 B * m10 B) * g1 * g1;
       term1 := m11 B * g0 * g0 + g1 * (m00 B * g1 - 2 * m10 B * g0);
       rank := r; poly_p := poly_p s |}
  else
    {| n := n s; p := p s; dx_gn := x; dx_sd := dx_sd1;
       norm_gn := gsl_blas_dnrm2 x; norm_sd := gsl_blas_dnrm2 dx_sd1;
       workp := workp s; workn := workn1; W := QR; J := J s; tau := tau1;
       subg := subg s; subB := subB s; perm := perm1;
       trB := trB s; detB := detB s; normg := normg s;
       term0 := term0 s; term1 := term1 s;
       rank := r; poly_p := poly_p s |}.

(** The calls of the error handler that the two reads
    [gsl_vector_get (state->workp, 0)] and [gsl_vector_get (state->workp, 1)]
    make when [workp] has fewer than two entries. *)
Definition preloop_events (s' : subspace2D_state_t) : list event :=
  if (rank s' =? 2)%nat then range_errors (List.length (workp s')) else [].

End Views.

(** ** Runs for the examples *)

(** A Jacobian of rank 1: the normal equations of the exact solver are
    singular and its [solve] fails. *)
Definition singular_trust : trust_state :=
  {| ts_f := [1; 0]; ts_g := [1; 0]; ts_J := [[1; 0]; [0; 0]] |}.

(** [J = I], [f = g = (3,4)]: both steps are [(-3,-4)], the rank is 1. *)
Definition rank1_trust : trust_state :=
  {| ts_f := [3; 4]; ts_g := [3; 4]; ts_J := [[1; 0]; [0; 1]] |}.

Definition rank1_run : mem :=
  Eval vm_compute in
    match @subspace2D_preloop example_kernels exact_solver rank1_trust tt
            blank_mem with
    | Ok (_, m') => m'
    | DivByZero => blank_mem
    end.

Section PreloopRun.

Context {K : gsl_kernels} {L : gsl_multifit_nlinear_solver}.

Lemma wp_Ok_intro {A} D (c : M A) (Q : A -> mem -> Prop) m a m' :
  c m = Ok (a, m') -> Q a m' -> wp D c Q m.
Proof.
  intros E H. assert (G : wp D (ret a) Q m') by (apply wp_ret; exact H).
  revert G. Transparent wp. unfold wp, ret. rewrite E. Opaque wp.
  intro G. exact G.
Qed.

(** One step of a run, the state kept as a record of its fields. *)
Ltac wp_exec :=
  lazymatch goal with
  | |- wp _ (bind _ _) _ _ => apply wp_bind
  | _ => idtac
  end;
  lazymatch goal with
  | |- wp _ (modify _) _ _ => apply wp_modify
  | |- wp _ get_state _ _ => apply wp_get_state
  end;
  cbv beta;
  cbn [m_state m_dx m_log fst snd
       n p dx_gn dx_sd norm_gn norm_sd workp workn W J tau subg subB perm
       trB detB normg term0 term1 rank poly_p
       set_dx_gn set_dx_sd set_norm_gn set_norm_sd set_workp set_workn
       set_W set_J set_tau set_subg set_subB set_perm set_trB set_detB
       set_normg set_term0 set_term1 set_rank set_poly_p].

Lemma wp_gsl_vector_get_exact D (v : gsl_vector) i
    (Q : double -> mem -> Prop) m :
  Q (nth i v 0)
    (Mem (m_state m) (m_dx m)
         (m_log m ++ if (List.length v <=? i)%nat
                     then [GslError "index out of range" GSL_EINVAL]
                     else [])) ->
  wp D (gsl_vector_get v i) Q m.
Proof.
  intro H. unfold gsl_vector_get, GSL_ERROR_RETURN.
  destruct (List.length v <=? i)%nat eqn:E.
  - apply Nat.leb_le in E. rewrite (nth_overflow _ _ E) in H.
    apply wp_Ok_intro with (a := 0) (m' := Mem (m_state m) (m_dx m)
      (m_log m ++ [GslError "index out of range" GSL_EINVAL]));
      [reflexivity|exact H].
  - rewrite app_nil_r in H. destruct m as [s dx log].
    apply wp_ret. exact H.
Qed.

Lemma preloop_success_run (trust : trust_state) (s : subspace2D_state_t)
    (dx : gsl_vector) (log : list event)
    (ss ss1 ss2 ss3 : solver_state) (x : gsl_vector) :
  init trust ss = (GSL_SUCCESS, ss1) ->
  presolve 0 trust ss1 = (GSL_SUCCESS, ss2) ->
  solve (ts_f trust) (ts_g trust) (dx_gn s) trust ss2
    = (GSL_SUCCESS, x, ss3) ->
  ~ gsl_blas_dnrm2
      (gsl_blas_dgemv 1 (ts_J trust) (ts_g trust) 0 (workn s)) == 0 ->
  subspace2D_preloop trust ss (Mem s dx log)
  = Ok ((GSL_SUCCESS, ss3),
        Mem (preloop_state trust x s) dx
            (log ++ preloop_events (preloop_state trust x s))).
Proof.
  intros Hinit Hpre Hsolve Hn.
  match goal with
  | |- ?c ?m0 = Ok (?r0, ?m1) =>
      destruct (wp_total c (fun r m' => r = r0 /\ m' = m1) m0)
        as (r & m' & E & -> & ->); [|exact E]
  end.
  unfold subspace2D_preloop. rewrite Hinit. cbn [negb Z.eqb GSL_SUCCESS].
  rewrite Hpre. cbn [negb Z.eqb GSL_SUCCESS].
  apply wp_bind, wp_get_state. cbn [m_state]. rewrite Hsolve.
  apply wp_bind, wp_put_state. cbn [negb Z.eqb GSL_SUCCESS m_dx m_log].
  wp_exec. wp_exec.
  apply wp_bind, wp_fdiv; [exact Hn|intros _].
  unfold preloop_events, preloop_state, gsl_vector_memcpy, gsl_matrix_memcpy.
  cbv zeta.
  do 6 wp_exec.
  apply wp_bind, wp_modify. cbv beta. cbn [m_state m_dx m_log W].
  destruct (gsl_linalg_QRPT_decomp _) as [[QR tau1] perm1].
  cbn [fst snd].
  do 2 wp_exec.
  destruct (qr_nonsing QR =? 2)%nat eqn:Er.
  - repeat wp_exec.
    apply wp_bind, wp_gsl_vector_get_exact. repeat wp_exec.
    apply wp_bind, wp_gsl_vector_get_exact. repeat wp_exec.
    apply wp_ret. split; [reflexivity|].
    cbn [rank workp]. rewrite Er. f_equal.
    rewrite <- !app_assoc. f_equal. unfold range_errors.
    destruct (gsl_linalg_QR_QTvec QR tau1 (ts_g trust)) as [|a [|b t]];
      reflexivity.
  - apply wp_ret. split; [reflexivity|].
    cbn [rank]. rewrite Er, app_nil_r. reflexivity.
Qed.

Lemma preloop_cases (trust : trust_state) (s : subspace2D_state_t)
    (dx : gsl_vector) (log : list event) (ss : solver_state) :
  subspace2D_preloop trust ss (Mem s dx log) =
  let '(s1, ss1) := init trust ss in
  if negb (s1 =? 0)%Z then Ok ((s1, ss1), Mem s dx log) else
  let '(s2, ss2) := presolve 0 trust ss1 in
  if negb (s2 =? 0)%Z then Ok ((s2, ss2), Mem s dx log) else
  let '(s3, x, ss3) :=
    solve (ts_f trust) (ts_g trust) (dx_gn s) trust ss2 in
  if negb (s3 =? 0)%Z then Ok ((s3, ss3), Mem (set_dx_gn s x) dx log) else
  if Qeq_bool
       (gsl_blas_dnrm2
          (gsl_blas_dgemv 1 (ts_J trust) (ts_g trust) 0 (workn s))) 0
  then DivByZero
  else Ok ((GSL_SUCCESS, ss3),
           Mem (preloop_state trust x s) dx
               (log ++ preloop_events (preloop_state trust x s))).
Proof.
  destruct (init trust ss) as [s1 ss1] eqn:Hinit.
  destruct (negb (s1 =? 0)%Z) eqn:E1.
  { unfold subspace2D_preloop. rewrite Hinit, E1. reflexivity. }
  destruct (presolve 0 trust ss1) as [s2 ss2] eqn:Hpre.
  destruct (negb (s2 =? 0)%Z) eqn:E2.
  { unfold subspace2D_preloop. rewrite Hinit, E1, Hpre, E2. reflexivity. }
  destruct (solve (ts_f trust) (ts_g trust) (dx_gn s) trust ss2)
    as [[s3 x] ss3] eqn:Hsolve.
  destruct (negb (s3 =? 0)%Z) eqn:E3.
  { unfold subspace2D_preloop. rewrite Hinit, E1, Hpre, E2.
    unfold bind at 1, get_state at 1. cbn [m_state]. rewrite Hsolve.
    unfold bind at 1, put_state at 1. rewrite E3. reflexivity. }
  apply negb_false_iff, Z.eqb_eq in E1, E2, E3. subst s1 s2 s3.
  destruct (Qeq_bool _ 0) eqn:En.
  - apply Qeq_bool_iff in En.
    unfold subspace2D_preloop. rewrite Hinit. cbn [negb Z.eqb].
    rewrite Hpre. cbn [negb Z.eqb].
    unfold bind at 1, get_state at 1. cbn [m_state]. rewrite Hsolve.
    unfold bind at 1, put_state at 1. cbn [negb Z.eqb].
    unfold bind at 1, modify at 1. unfold bind at 1, get_state at 1.
    cbn [m_state m_dx m_log workn set_workn set_dx_gn].
    apply bind_DivByZero, fdiv_zero, En.
  - apply (preloop_success_run trust s dx log ss ss1 ss2 ss3 x);
      try assumption.
    intro H. apply Qeq_bool_iff in H. congruence.
Qed.

(** ** A failing preloop *)

(** A preloop that returns an error status returns the status of the first
    solver call that failed; it calls no error handler and leaves [dx] and
    the state as they were, up to [dx_gn], which holds what a failing
    [solve] left in it. *)
Theorem preloop_failure_frame (trust : trust_state) (m m' : mem)
    (ss ss' : solver_state) (status : Z) :
  subspace2D_preloop trust ss m = Ok ((status, ss'), m') ->
  status <> GSL_SUCCESS ->
  let r1 := init trust ss in
  let r2 := presolve 0 trust (snd r1) in
  let r3 := solve (ts_f trust) (ts_g trust) (dx_gn (m_state m)) trust
              (snd r2) in
  m_dx m' = m_dx m /\ m_log m' = m_log m
  /\ ((status = fst r1 /\ ss' = snd r1 /\ m_state m' = m_state m)
      \/ (fst r1 = GSL_SUCCESS /\ status = fst r2 /\ ss' = snd r2
          /\ m_state m' = m_state m)
      \/ (fst r1 = GSL_SUCCESS /\ fst r2 = GSL_SUCCESS
          /\ status = fst (fst r3) /\ ss' = snd r3
          /\ m_state m' = set_dx_gn (m_state m) (snd (fst r3)))).
Proof.
  destruct m as [s dx log]. rewrite preloop_cases. cbn [m_state m_dx m_log].
  destruct (init trust ss) as [s1 ss1]. cbn [fst snd].
  destruct (negb (s1 =? 0)%Z) eqn:E1.
  { intros [= <- <- <-] _. cbn [m_state m_dx m_log]. auto 10. }
  apply negb_false_iff, Z.eqb_eq in E1. subst s1.
  destruct (presolve 0 trust ss1) as [s2 ss2]. cbn [fst snd].
  destruct (negb (s2 =? 0)%Z) eqn:E2.
  { intros [= <- <- <-] _. cbn [m_state m_dx m_log]. auto 10. }
  apply negb_false_iff, Z.eqb_eq in E2. subst s2.
  destruct (solve _ _ _ _ _) as [[s3 x] ss3]. cbn [fst snd].
  destruct (negb (s3 =? 0)%Z) eqn:E3.
  { intros [= <- <- <-] _. cbn [m_state m_dx m_log].
    split; [reflexivity|]. split; [reflexivity|]. right; right. auto 10. }
  destruct (Qeq_bool _ 0); [discriminate|].
  intros [= <- <- <-] Hne. destruct (Hne eq_refl).
Qed.

(** ** What a successful preloop stores *)

(** When the three calls of the linear solver succeed and [|| J g ||] is
    not zero, the preloop returns [GSL_SUCCESS] and has stored: the solver's
    step in [dx_gn], [workn = J g], [dx_sd = -(|g|/|Jg|)^2 g], the norms of
    the two stored steps, the factorization of [[dx_sd | dx_gn]] in [W],
    [tau] and [perm], and the rank found in it; [n], [p], the root finder's
    workspace and the caller's [dx] are untouched. *)
Theorem preloop_stores_steps_and_norms (trust : trust_state) (m : mem)
    (ss ss1 ss2 ss3 : solver_state) (x : gsl_vector) :
  init trust ss = (GSL_SUCCESS, ss1) ->
  presolve 0 trust ss1 = (GSL_SUCCESS, ss2) ->
  solve (ts_f trust) (ts_g trust) (dx_gn (m_state m)) trust ss2
    = (GSL_SUCCESS, x, ss3) ->
  ~ gsl_blas_dnrm2
      (gsl_blas_dgemv 1 (ts_J trust) (ts_g trust) 0 (workn (m_state m)))
    == 0 ->
  exists m',
    subspace2D_preloop trust ss m = Ok ((GSL_SUCCESS, ss3), m')
    /\ let s := m_state m in
       let s' := m_state m' in
       let u := gsl_blas_dnrm2 (ts_g trust) / gsl_blas_dnrm2 (workn s') in
       dx_gn s' = x
       /\ workn s' = gsl_blas_dgemv 1 (ts_J trust) (ts_g trust) 0 (workn s)
       /\ dx_sd s' = gsl_vector_scale (ts_g trust) (- (u * u))
       /\ norm_gn s' = gsl_blas_dnrm2 (dx_gn s')
       /\ norm_sd s' = gsl_blas_dnrm2 (dx_sd s')
       /\ (W s', tau s', perm s')
          = gsl_linalg_QRPT_decomp
              (set_column (set_column (W s) 0 (dx_sd s')) 1 (dx_gn s'))
       /\ rank s' = qr_nonsing (W s')
       /\ n s' = n s /\ p s' = p s /\ poly_p s' = poly_p s
       /\ m_dx m' = m_dx m.
Proof.
  intros Hinit Hpre Hsolve Hn. destruct m as [s dx log].
  cbn [m_state m_dx m_log] in *.
  eexists. split.
  { apply (preloop_success_run trust s dx log ss ss1 ss2 ss3 x);
      assumption. }
  cbn [m_state m_dx]. unfold preloop_state. cbv zeta.
  destruct (gsl_linalg_QRPT_decomp _) as [[QR tau1] perm1] eqn:Ed.
  cbn [fst snd].
  destruct (qr_nonsing QR =? 2)%nat;
    cbn [n p dx_gn dx_sd norm_gn norm_sd workn W tau perm rank poly_p];
    repeat match goal with |- _ /\ _ => split end;
    try reflexivity; symmetry; exact Ed.
Qed.

(** After a successful preloop that found rank 2, the reduced model is the
    one of the stored factorization: [workp = Q^T g], [subg] its first two
    entries, [J] the Jacobian times [Q], [subB] the product [dsyrk] forms
    from its first columns; the error handler has been called once for each
    of the two entries that [workp] lacks. *)
Theorem preloop_reduced_model (trust : trust_state) (m m' : mem)
    (ss ss' : solver_state) :
  subspace2D_preloop trust ss m = Ok ((GSL_SUCCESS, ss'), m') ->
  rank (m_state m') = 2%nat ->
  let s := m_state m in
  let s' := m_state m' in
  workp s' = gsl_linalg_QR_QTvec (W s') (tau s') (ts_g trust)
  /\ subg s' = (nth 0 (workp s') 0, nth 1 (workp s') 0)
  /\ J s' = gsl_linalg_QR_matQ (W s') (tau s') (ts_J trust)
  /\ subB s' = gsl_blas_dsyrk 1
                 (gsl_matrix_submatrix (J s') 0 0 (n s') (Nat.min 2 (p s')))
                 0 (subB s)
  /\ m_log m' = m_log m ++ range_errors (List.length (workp s')).
Proof.
  destruct m as [s dx log]. rewrite preloop_cases. cbn [m_state m_dx m_log].
  destruct (init trust ss) as [s1 ss1].
  destruct (negb (s1 =? 0)%Z) eqn:E1.
  { intros [= -> <- <-]. discriminate E1. }
  destruct (presolve 0 trust ss1) as [s2 ss2].
  destruct (negb (s2 =? 0)%Z) eqn:E2.
  { intros [= -> <- <-]. discriminate E2. }
  destruct (solve _ _ _ _ _) as [[s3 x] ss3].
  destruct (negb (s3 =? 0)%Z) eqn:E3.
  { intros [= -> <- <-]. discriminate E3. }
  destruct (Qeq_bool _ 0) eqn:En; [discriminate|].
  intros [= <- <-]. cbn [m_state m_log].
  unfold preloop_events, preloop_state. cbv zeta.
  destruct (gsl_linalg_QRPT_decomp _) as [[QR tau1] perm1]. cbn [fst snd].
  destruct (qr_nonsing QR =? 2)%nat eqn:Er; cbn [rank]; intro Hr.
  - cbn [n p workp W J tau subg subB rank]. rewrite Er.
    repeat split; reflexivity.
  - rewrite Hr in Er. discriminate Er.
Qed.

(** A preloop that does not leave rank 2 in the state leaves the reduced
    model ([subg], [subB], [trB], [detB], [normg], [term0], [term1]) and the
    work objects [workp] and [J] as they were, and calls no error handler. *)
Theorem preloop_rank_deficient_keeps_model (trust : trust_state) (m m' : mem)
    (ss : solver_state) (r : Z * solver_state) :
  subspace2D_preloop trust ss m = Ok (r, m') ->
  rank (m_state m') <> 2%nat ->
  let s := m_state m in
  let s' := m_state m' in
  subg s' = subg s /\ subB s' = subB s /\ trB s' = trB s
  /\ detB s' = detB s /\ normg s' = normg s /\ term0 s' = term0 s
  /\ term1 s' = term1 s /\ workp s' = workp s /\ J s' = J s
  /\ m_log m' = m_log m.
Proof.
  destruct m as [s dx log]. rewrite preloop_cases. cbn [m_state m_dx m_log].
  destruct (init trust ss) as [s1 ss1].
  destruct (negb (s1 =? 0)%Z).
  { intros [= <- <-] _. cbn [m_state m_log]. repeat split; reflexivity. }
  destruct (presolve 0 trust ss1) as [s2 ss2].
  destruct (negb (s2 =? 0)%Z).
  { intros [= <- <-] _. cbn [m_state m_log]. repeat split; reflexivity. }
  destruct (solve _ _ _ _ _) as [[s3 x] ss3].
  destruct (negb (s3 =? 0)%Z).
  { intros [= <- <-] _. cbn [m_state m_log]. repeat split; reflexivity. }
  destruct (Qeq_bool _ 0); [discriminate|].
  intros [= <- <-]. cbn [m_state m_log].
  unfold preloop_events, preloop_state. cbv zeta.
  destruct (gsl_linalg_QRPT_decomp _) as [[QR tau1] perm1]. cbn [fst snd].
  destruct (qr_nonsing QR =? 2)%nat eqn:Er; cbn [rank]; intro Hr.
  - apply Nat.eqb_eq in Er. destruct (Hr Er).
  - cbn [subg subB trB detB normg term0 term1 workp J rank]. rewrite Er.
    rewrite app_nil_r. repeat split; reflexivity.
Qed.

End PreloopRun.

Section Boundary.

Context {K : gsl_kernels}.

(** ** The divisions of the step *)


(** ** The quartic and the boundary of the trust region *)

Lemma quartic_boundary_identity
    (B00 B10 B11 g0 g1 tr det ng t0 t1 delta lambda x0 x1 : Q) :
  tr == B00 + B11 ->
  det == B00 * B11 - B10 * B10 ->
  ng * ng == g0 * g0 + g1 * g1 ->
  t0 == (B10*B10 + B11*B11)*g0*g0 - 2*B10*(B00 + B11)*g0*g1
        + (B00*B00 + B10*B10)*g1*g1 ->
  t1 == B11 * g0 * g0 + g1 * (B00*g1 - 2*B10*g0) ->
  ~ delta == 0 ->
  (B00 + lambda) * x0 + B10 * x1 == - g0 ->
  B10 * x0 + (B11 + lambda) * x1 == - g1 ->
  ~ (B00 + lambda) * (B11 + lambda) - B10 * B10 == 0 ->
  (poly_eval [ det * det - t0 / (delta * delta);
               2 * det * tr - 2 * t1 / (delta * delta);
               tr * tr + 2 * det - ng / delta * (ng / delta);
               2 * tr;
               1 ] lambda == 0
   <-> x0 * x0 + x1 * x1 == delta * delta).
Proof.
  intros Htr Hdet Hng Ht0 Ht1 Hd H0 H1 Hc.
  set (c := (B00 + lambda) * (B11 + lambda) - B10 * B10) in *.
  assert (Hx0 : c * x0 == - ((B11 + lambda) * g0 - B10 * g1)).
  { transitivity ((B11 + lambda) * ((B00 + lambda) * x0 + B10 * x1)
                  - B10 * (B10 * x0 + (B11 + lambda) * x1)).
    - unfold c. ring.
    - rewrite H0, H1. ring. }
  assert (Hx1 : c * x1 == - ((B00 + lambda) * g1 - B10 * g0)).
  { transitivity ((B00 + lambda) * (B10 * x0 + (B11 + lambda) * x1)
                  - B10 * ((B00 + lambda) * x0 + B10 * x1)).
    - unfold c. ring.
    - rewrite H0, H1. ring. }
  assert (Hsq : ~ delta * delta == 0).
  { intro E. destruct (Qmult_integral _ _ E); contradiction. }
  assert (Hc2 : ~ c * c == 0).
  { intro E. destruct (Qmult_integral _ _ E); contradiction. }
  assert (Hp : poly_eval [ det * det - t0 / (delta * delta);
                           2 * det * tr - 2 * t1 / (delta * delta);
                           tr * tr + 2 * det - ng / delta * (ng / delta);
                           2 * tr;
                           1 ] lambda * (delta * delta)
               == (c * c) * (delta * delta - (x0 * x0 + x1 * x1))).
  { transitivity ((delta * delta) * (c * c)
                  - ((c * x0) * (c * x0) + (c * x1) * (c * x1))); [|ring].
    rewrite Hx0, Hx1. cbn [poly_eval].
    transitivity
      ((delta * delta)
       * ((det + tr * lambda + lambda * lambda)
          * (det + tr * lambda + lambda * lambda))
       - (t0 + 2 * lambda * t1 + lambda * lambda * (ng * ng))).
    - field. exact Hd.
    - rewrite Hng, Ht0, Ht1, Hdet, Htr. unfold c. ring. }
  split; intro H.
  - rewrite H in Hp. rewrite Qmult_0_l in Hp. symmetry in Hp.
    destruct (Qmult_integral _ _ Hp) as [E|E]; [destruct (Hc2 E)|].
    lra.
  - assert (E : poly_eval
                  [ det * det - t0 / (delta * delta);
                    2 * det * tr - 2 * t1 / (delta * delta);
                    tr * tr + 2 * det - ng / delta * (ng / delta);
                    2 * tr;
                    1 ] lambda * (delta * delta) == 0).
    { rewrite Hp, H. ring. }
    destruct (Qmult_integral _ _ E) as [E'|E']; [exact E'|destruct (Hsq E')].
Qed.

End Boundary.

Section Composition.

Context {K : gsl_kernels} {L : gsl_multifit_nlinear_solver}.

(** After a successful preloop that found rank 2, with [normg] the norm of
    [subg]: for every nonzero [delta] the coefficients of the step are
    defined, and at a [lambda] where [B + lambda I] is regular and the
    2-by-2 solve is exact, the quartic vanishes exactly when the point [x]
    of [subspace2D_solution] lies on the boundary of the trust region,
    [|x|^2 = delta^2]. *)
Theorem preloop_quartic_root_on_boundary (trust : trust_state) (m m' : mem)
    (ss ss' : solver_state) (delta lambda : double) (x : vec2) :
  subspace2D_preloop trust ss m = Ok ((GSL_SUCCESS, ss'), m') ->
  rank (m_state m') = 2%nat ->
  let state := m_state m' in
  let B00 := m00 (subB state) in
  let B10 := m10 (subB state) in
  let B11 := m11 (subB state) in
  let g0 := fst (subg state) in
  let g1 := snd (subg state) in
  reduced_point state lambda = Some x ->
  normg state * normg state == g0 * g0 + g1 * g1 ->
  ~ delta == 0 ->
  (B00 + lambda) * fst x + B10 * snd x == - g0 ->
  B10 * fst x + (B11 + lambda) * snd x == - g1 ->
  ~ (B00 + lambda) * (B11 + lambda) - B10 * B10 == 0 ->
  exists a,
    quartic_coefficients state delta m' = Ok (a, m')
    /\ (poly_eval a lambda == 0
        <-> fst x * fst x + snd x * snd x == delta * delta).
Proof.
  intros Hrun Hrank state B00 B10 B11 g0 g1 _ Hng Hd H0 H1 Hc.
  destruct (preloop_reduced_scalars _ _ _ _ _ Hrun Hrank)
    as (Etr & Edet & _ & Et0 & Et1).
  fold state in Etr, Edet, Et0, Et1.
  fold B00 B10 B11 g0 g1 in Etr, Edet, Et0, Et1.
  eexists. split; [apply quartic_coefficients_run, Hd|].
  apply (quartic_boundary_identity B00 B10 B11 g0 g1); try assumption.
  - rewrite Etr. reflexivity.
  - rewrite Edet. reflexivity.
  - rewrite Et0. reflexivity.
  - rewrite Et1. reflexivity.
Qed.

End Composition.

(** ** The theorems on the example runs *)

Section Examples.

#[local] Existing Instance example_kernels.
#[local] Existing Instance exact_solver.

(** The preloop of [singular_trust]: [solve] fails with [GSL_EDOM]. *)
Lemma preloop_failure_frame_witness :
  let r1 := @init exact_solver singular_trust tt in
  let r2 := @presolve exact_solver 0 singular_trust (snd r1) in
  let r3 := @solve exact_solver (ts_f singular_trust) (ts_g singular_trust)
              (dx_gn (m_state blank_mem)) singular_trust (snd r2) in
  m_dx blank_mem = m_dx blank_mem /\ m_log blank_mem = m_log blank_mem
  /\ ((GSL_EDOM = fst r1 /\ tt = snd r1
       /\ m_state blank_mem = m_state blank_mem)
      \/ (fst r1 = GSL_SUCCESS /\ GSL_EDOM = fst r2 /\ tt = snd r2
          /\ m_state blank_mem = m_state blank_mem)
      \/ (fst r1 = GSL_SUCCESS /\ fst r2 = GSL_SUCCESS
          /\ GSL_EDOM = fst (fst r3) /\ tt = snd r3
          /\ m_state blank_mem
             = set_dx_gn (m_state blank_mem) (snd (fst r3)))).
Proof.
  apply (preloop_failure_frame (L := exact_solver) singular_trust blank_mem
           blank_mem tt tt GSL_EDOM).
  - vm_compute. reflexivity.
  - discriminate.
Defined.

(** The preloop of [rank2_trust], where [|| J g || = 20]. *)
Lemma preloop_stores_steps_and_norms_witness :
  exists m',
    subspace2D_preloop rank2_trust tt blank_mem = Ok ((GSL_SUCCESS, tt), m')
    /\ let s := m_state blank_mem in
       let s' := m_state m' in
       let u := gsl_blas_dnrm2 (ts_g rank2_trust)
                / gsl_blas_dnrm2 (workn s') in
       dx_gn s' = [3 # 16; - (1 # 4)]
       /\ workn s'
          = gsl_blas_dgemv 1 (ts_J rank2_trust) (ts_g rank2_trust) 0 (workn s)
       /\ dx_sd s' = gsl_vector_scale (ts_g rank2_trust) (- (u * u))
       /\ norm_gn s' = gsl_blas_dnrm2 (dx_gn s')
       /\ norm_sd s' = gsl_blas_dnrm2 (dx_sd s')
       /\ (W s', tau s', perm s')
          = gsl_linalg_QRPT_decomp
              (set_column (set_column (W s) 0 (dx_sd s')) 1 (dx_gn s'))
       /\ rank s' = qr_nonsing (W s')
       /\ n s' = n s /\ p s' = p s /\ poly_p s' = poly_p s
       /\ m_dx m' = m_dx blank_mem.
Proof.
  apply (preloop_stores_steps_and_norms (L := exact_solver) rank2_trust
           blank_mem tt tt tt tt [3 # 16; - (1 # 4)]).
  - reflexivity.
  - reflexivity.
  - vm_compute. reflexivity.
  - intro H. vm_compute in H. discriminate H.
Defined.

Lemma preloop_reduced_model_witness :
  let s := m_state blank_mem in
  let s' := m_state rank2_run in
  workp s' = gsl_linalg_QR_QTvec (W s') (tau s') (ts_g rank2_trust)
  /\ subg s' = (nth 0 (workp s') 0, nth 1 (workp s') 0)
  /\ J s' = gsl_linalg_QR_matQ (W s') (tau s') (ts_J rank2_trust)
  /\ subB s' = gsl_blas_dsyrk 1
                 (gsl_matrix_submatrix (J s') 0 0 (n s') (Nat.min 2 (p s')))
                 0 (subB s)
  /\ m_log rank2_run
     = m_log blank_mem ++ range_errors (List.length (workp s')).
Proof.
  apply (preloop_reduced_model (L := exact_solver) rank2_trust blank_mem
           rank2_run tt tt).
  - vm_compute. reflexivity.
  - reflexivity.
Defined.

(** The preloop of [rank1_trust], which finds rank 1. *)
Lemma preloop_rank_deficient_keeps_model_witness :
  let s := m_state blank_mem in
  let s' := m_state rank1_run in
  subg s' = subg s /\ subB s' = subB s /\ trB s' = trB s
  /\ detB s' = detB s /\ normg s' = normg s /\ term0 s' = term0 s
  /\ term1 s' = term1 s /\ workp s' = workp s /\ J s' = J s
  /\ m_log rank1_run = m_log blank_mem.
Proof.
  apply (preloop_rank_deficient_keeps_model (L := exact_solver) rank1_trust
           blank_mem rank1_run tt (GSL_SUCCESS, tt)).
  - vm_compute. reflexivity.
  - vm_compute. discriminate.
Defined.

(** The preloop of [rank2_trust] with [delta = 37/349]: [lambda = 19] is a
    root of the quartic, and the point of that [lambda], (12/349, -35/349),
    has norm 37/349. *)
Lemma preloop_quartic_root_on_boundary_witness :
  exists a,
    quartic_coefficients (m_state rank2_run) (37 # 349) rank2_run
    = Ok (a, rank2_run)
    /\ (poly_eval a 19 == 0
        <-> (12 # 349) * (12 # 349) + - (35 # 349) * - (35 # 349)
            == (37 # 349) * (37 # 349)).
Proof.
  apply (preloop_quartic_root_on_boundary (L := exact_solver) rank2_trust
           blank_mem rank2_run tt tt (37 # 349) 19 (12 # 349, - (35 # 349))).
  - vm_compute. reflexivity.
  - reflexivity.
  - vm_compute. reflexivity.
  - vm_compute. reflexivity.
  - discriminate.
  - vm_compute. reflexivity.
  - vm_compute. reflexivity.
  - discriminate.
Defined.

End Examples.

End Subspace2DPreloop.

(** * The symmetric band matrix-vector product of cblas/source_sbmv.h

    The body that [cblas_ssbmv] and [cblas_dsbmv] include, [y := alpha*A*x +
    beta*y] for a symmetric band matrix [A] with [K] off-diagonals, in exact
    rational arithmetic.  The arrays are lists; the loop counters [i] and
    [j], which run below [N], and [N], [K] and [lda], which the callers pass
    as non-negative [int]s, are natural numbers.  The positions [ix], [iy],
    [jx], [jy] in [X] and [Y] are [size_t] values that the code advances by
    the [int] increments [incX] and [incY], which may be negative: they are
    integers with the wrap-around of 64 bits written out. *)

Module Sbmv.

Local Open Scope Q_scope.

(** ** Arrays and positions *)

(** [BASE] is [float] or [double] in the callers. *)
Local Notation "'BASE'" := Q (only parsing).

Definition SIZE_BITS : Z := 64.

(** The value of an integer expression as a [size_t]. *)
Definition wrap (z : Z) : Z := (z mod 2 ^ SIZE_BITS)%Z.

(** [a[i]] and [a[i] = x]. *)
Definition rd (a : list BASE) (i : Z) : BASE := nth (Z.to_nat i) a 0.

Fixpoint update (a : list BASE) (i : nat) (x : BASE) : list BASE :=
  match a, i with
  | [], _ => []
  | _ :: t, O => x :: t
  | h :: t, S i' => h :: update t i' x
  end.

Definition wr (a : list BASE) (i : Z) (x : BASE) : list BASE :=
  update a (Z.to_nat i) x.

(** Modelled from the spec: the macro [OFFSET (N, incX)] of cblas.h, the
    position of the first entry of a vector of [N] entries:
    [((incX) > 0 ? 0 : ((N) - 1) * (-(incX)))]. *)
Definition OFFSET (N : nat) (inc : Z) : Z :=
  (if inc >? 0 then 0 else (Z.of_nat N - 1) * (- inc))%Z.

(** The values of [enum CBLAS_ORDER] and [enum CBLAS_UPLO]. *)
Definition CblasRowMajor : Z := 101.
Definition CblasColMajor : Z := 102.
Definition CblasUpper : Z := 121.
Definition CblasLower : Z := 122.

(** ** The loops *)

(** [for (i = 0; i < N; i++) { Y[iy] = body (Y[iy]); iy += incY; }], on the
    iterations still to run. *)
Fixpoint scale_loop (body : BASE -> BASE) (incY : Z) (count : nat) (iy : Z)
    (Y : list BASE) : list BASE :=
  match count with
  | O => Y
  | S count' =>
      let Y := wr Y iy (body (rd Y iy)) in
      scale_loop body incY count' (wrap (iy + incY)) Y
  end.

Section Rows.

(** The four branches differ in the bounds of [j] and in the places of the
    diagonal entry and of [Aij] in [A]. *)
Variable j_min j_max : nat -> nat.
Variable diag : nat -> nat.
Variable band : nat -> nat -> nat.

Variable N : nat.
Variable alpha : BASE.
Variable A X : list BASE.
Variable incX incY : Z.

(** [for (j = j_min; j < j_max; j++)] of row [i], on the iterations still
    to run. *)
Fixpoint inner_loop (i : nat) (tmp1 : BASE) (count : nat) (j : nat)
    (jx jy : Z) (tmp2 : BASE) (Y : list BASE) : BASE * list BASE :=
  match count with
  | O => (tmp2, Y)
  | S count' =>
      let Aij := rd A (Z.of_nat (band i j)) in
      let Y := wr Y jy (rd Y jy + tmp1 * Aij) in
      let tmp2 := tmp2 + Aij * rd X jx in
      inner_loop i tmp1 count' (S j) (wrap (jx + incX)) (wrap (jy + incY))
        tmp2 Y
  end.

(** [for (i = 0; i < N; i++)], on the iterations still to run. *)
Fixpoint row_loop (count : nat) (i : nat) (ix iy : Z) (Y : list BASE)
  : list BASE :=
  match count with
  | O => Y
  | S count' =>
      let tmp1 := alpha * rd X ix in
      let tmp2 := 0 in
      let jx := wrap (OFFSET N incX + Z.of_nat (j_min i) * incX) in
      let jy := wrap (OFFSET N incY + Z.of_nat (j_min i) * incY) in
      let Y := wr Y iy (rd Y iy + tmp1 * rd A (Z.of_nat (diag i))) in
      let '(tmp2, Y) :=
        inner_loop i tmp1 (j_max i - j_min i)%nat (j_min i) jx jy tmp2 Y in
      let Y := wr Y iy (rd Y iy + alpha * tmp2) in
      row_loop count' (S i) (wrap (ix + incX)) (wrap (iy + incY)) Y
  end.

End Rows.

(** Modelled from the spec: [BLAS_ERROR (x)] of cblas.h hands the message to
    [cblas_xerbla]; the result carries the messages handed over. *)
Definition sbmv (order Uplo : Z) (N K : nat) (alpha : BASE) (A : list BASE)
    (lda : nat) (X : list BASE) (incX : Z) (beta : BASE) (Y : list BASE)
    (incY : Z) : list BASE * list string :=
  if Qeq_bool alpha 0 && Qeq_bool beta 1 then (Y, []) else
  (* form  y := beta*y *)
  let Y :=
    if Qeq_bool beta 0 then
      scale_loop (fun _ => 0) incY N (wrap (OFFSET N incY)) Y
    else if negb (Qeq_bool beta 1) then
      scale_loop (fun y => y * beta) incY N (wrap (OFFSET N incY)) Y
    else Y in
  if Qeq_bool alpha 0 then (Y, []) else
  (* form  y := alpha*A*x + y *)
  let ix := wrap (OFFSET N incX) in
  let iy := wrap (OFFSET N incY) in
  if (order =? CblasRowMajor)%Z && (Uplo =? CblasUpper)%Z then
    (row_loop (fun i => i + 1)%nat (fun i => Nat.min N (i + K + 1))%nat
       (fun i => lda * K + i)%nat (fun i j => lda * (K + i - j) + j)%nat
       N alpha A X incX incY N 0%nat ix iy Y, [])
  else if (order =? CblasColMajor)%Z && (Uplo =? CblasLower)%Z then
    (row_loop (fun i => if i <? K then 0 else i - K)%nat (fun i => i)
       (fun i => 0 + lda * i)%nat (fun i j => (i - j) + lda * j)%nat
       N alpha A X incX incY N 0%nat ix iy Y, [])
  else if (order =? CblasRowMajor)%Z && (Uplo =? CblasLower)%Z then
    (row_loop (fun i => if i <? K then 0 else i - K)%nat (fun i => i)
       (fun i => lda * 0 + i)%nat (fun i j => lda * (i - j) + j)%nat
       N alpha A X incX incY N 0%nat ix iy Y, [])
  else if (order =? CblasColMajor)%Z && (Uplo =? CblasUpper)%Z then
    (row_loop (fun i => i + 1)%nat (fun i => Nat.min N (i + K + 1))%nat
       (fun i => K + lda * i)%nat (fun i j => (K + i - j) + lda * j)%nat
       N alpha A X incX incY N 0%nat ix iy Y, [])
  else
    (Y, ["unrecognized operation"%string]).

(** ** Vocabulary of the statements *)

(** The position of entry [i] of a vector of [N] entries with increment
    [inc]. *)
Definition pos (N : nat) (inc : Z) (i : nat) : Z :=
  (OFFSET N inc + Z.of_nat i * inc)%Z.

(** [f lo + f (lo+1) + ... + f (lo+count-1)]. *)
Fixpoint sum_from (f : nat -> Q) (lo count : nat) : Q :=
  match count with
  | O => 0
  | S count' => f lo + sum_from f (S lo) count'
  end.

(** The four operations the body recognizes. *)
Definition recognized (order Uplo : Z) : bool :=
  ((order =? CblasRowMajor) || (order =? CblasColMajor))%Z
  && ((Uplo =? CblasUpper) || (Uplo =? CblasLower))%Z.

(** The band storage of the BLAS.  The stored triangle of a symmetric
    matrix of order [N] with [K] off-diagonals is kept in a band array of
    [K + 1] rows and [N] columns, whose column [j] holds the part of column
    [j] of the triangle that lies in the band: entry (i, j) of the upper
    triangle, [i <= j <= i + K], is in row [K + i - j] of the band array, and
    entry (i, j) of the lower triangle, [j <= i <= j + K], in row [i - j]. *)
Definition in_triangle (Uplo : Z) (N K : nat) (i j : nat) : Prop :=
  (i < N)%nat /\ (j < N)%nat
  /\ if (Uplo =? CblasUpper)%Z
     then (i <= j <= i + K)%nat
     else (j <= i <= j + K)%nat.

Definition band_row (Uplo : Z) (K : nat) (i j : nat) : nat :=
  if (Uplo =? CblasUpper)%Z then K + i - j else i - j.

(** The cell of entry (r, c) of a two-dimensional array with leading
    dimension [lda]: a row is contiguous for [CblasRowMajor], a column
    otherwise. *)
Definition cell (order : Z) (lda : nat) (r c : nat) : nat :=
  if (order =? CblasRowMajor)%Z then r * lda + c else r + c * lda.

(** The cell of [A] that holds entry (i, j) of the stored triangle. *)
Definition band_cell (order Uplo : Z) (K lda : nat) (i j : nat) : nat :=
  cell order lda (band_row Uplo K i j) j.

(** The dimensions of [A]: the leading dimension holds a row, respectively
    a column, of the band array, and [A] has room for all of them. *)
Definition dimensions_ok (order : Z) (N K lda : nat) (len : nat) : Prop :=
  if (order =? CblasRowMajor)%Z
  then (N <= lda)%nat /\ ((K + 1) * lda <= len)%nat
  else (K + 1 <= lda)%nat /\ (N * lda <= len)%nat.

(** [A] represents the symmetric matrix [S] with [K] off-diagonals. *)
Definition represents (order Uplo : Z) (N K lda : nat) (A : list BASE)
    (S : nat -> nat -> Q) : Prop :=
  (forall i j, in_triangle Uplo N K i j ->
     rd A (Z.of_nat (band_cell order Uplo K lda i j)) == S i j)
  /\ (forall i j, (i < N)%nat -> (j < N)%nat -> S i j == S j i)
  /\ (forall i j, (i < N)%nat -> (j < N)%nat ->
        (K < Nat.max i j - Nat.min i j)%nat -> S i j == 0).

(** The place in [A] of entry (i, j) of the symmetric matrix, which is that
    of the entry of the stored triangle equal to it, and the matrix that
    [A] holds: zero outside the band. *)
Definition entry_place (order Uplo : Z) (K lda : nat) (i j : nat) : nat :=
  if (Uplo =? CblasUpper)%Z
  then band_cell order Uplo K lda (Nat.min i j) (Nat.max i j)
  else band_cell order Uplo K lda (Nat.max i j) (Nat.min i j).

Definition entry (order Uplo : Z) (K lda : nat) (A : list BASE) (i j : nat)
  : BASE :=
  if (K <? Nat.max i j - Nat.min i j)%nat then 0
  else rd A (Z.of_nat (entry_place order Uplo K lda i j)).

(** What row [i] of the loop adds to entry [q] of [Y]. *)
Definition contribution (j_min j_max : nat -> nat) (diag : nat -> nat)
    (band : nat -> nat -> nat) (N : nat) (alpha : BASE) (A X : list BASE)
    (incX : Z) (i q : nat) : Q :=
  (if (q =? i)%nat
   then alpha * rd X (pos N incX i) * rd A (Z.of_nat (diag i))
        + alpha * sum_from (fun j => rd A (Z.of_nat (band i j))
                                     * rd X (pos N incX j))
                    (j_min i) (j_max i - j_min i)
   else 0)
  + (if (j_min i <=? q)%nat && (q <? j_min i + (j_max i - j_min i))%nat
     then alpha * rd X (pos N incX i) * rd A (Z.of_nat (band i q))
     else 0).

(** What the statements say of the array [Y'] that a run leaves: the
    entries of the vector hold [beta*y + alpha*S*x] for the matrix with
    entries [S], the cells between them are untouched. *)
Definition holds_product (N : nat) (alpha beta : BASE) (X Y : list BASE)
    (incX incY : Z) (S : nat -> nat -> Q) (Y' : list BASE) : Prop :=
  List.length Y' = List.length Y
  /\ (forall q, (q < N)%nat ->
        rd Y' (pos N incY q)
        == beta * rd Y (pos N incY q)
           + alpha * sum_from (fun j => S q j * rd X (pos N incX j)) 0 N)
  /\ (forall c, (0 <= c)%Z ->
        (forall q, (q < N)%nat -> c <> pos N incY q) ->
        rd Y' c = rd Y c).

(** A band matrix with one off-diagonal, [[1,2,0],[2,3,4],[0,4,5]], and its
    upper triangle in the band array [[*,2,4],[1,3,5]], stored by columns
    with [lda = 2] and by rows with [lda = 3]. *)
Definition matrix_3 (i j : nat) : Q :=
  nth j (nth i [[1; 2; 0]; [2; 3; 4]; [0; 4; 5]] []) 0.

Definition band_3 : list BASE := [0; 1; 2; 3; 4; 5].

Definition band_3_by_rows : list BASE := [0; 2; 4; 1; 3; 5].

(** * Theorems *)

(** ** Arrays *)

Lemma length_update (a : list BASE) (i : nat) (x : BASE) :
  List.length (update a i x) = List.length a.
Proof.
  revert i. induction a as [|h t IH]; intros [|i]; cbn; try reflexivity.
  rewrite IH. reflexivity.
Qed.

Lemma nth_update_same (a : list BASE) (i : nat) (x : BASE) :
  (i < List.length a)%nat -> nth i (update a i x) 0 = x.
Proof.
  revert i. induction a as [|h t IH]; intros [|i] H; cbn in *; try lia.
  - reflexivity.
  - apply IH. lia.
Qed.

Lemma nth_update_other (a : list BASE) (i j : nat) (x : BASE) :
  i <> j -> nth j (update a i x) 0 = nth j a 0.
Proof.
  revert i j. induction a as [|h t IH]; intros [|i] [|j] H; cbn;
    try reflexivity; try lia.
  apply IH. lia.
Qed.

Lemma length_wr (a : list BASE) (i : Z) (x : BASE) :
  List.length (wr a i x) = List.length a.
Proof. apply length_update. Qed.

Lemma rd_wr_same (a : list BASE) (i : Z) (x : BASE) :
  (0 <= i < Z.of_nat (List.length a))%Z -> rd (wr a i x) i = x.
Proof. intro H. apply nth_update_same. lia. Qed.

Lemma rd_wr_other (a : list BASE) (i j : Z) (x : BASE) :
  (0 <= i)%Z -> (0 <= j)%Z -> i <> j -> rd (wr a i x) j = rd a j.
Proof. intros Hi Hj H. apply nth_update_other. lia. Qed.

Lemma wrap_in_range (z : Z) : (0 <= z < 2 ^ SIZE_BITS)%Z -> wrap z = z.
Proof. apply Z.mod_small. Qed.

Lemma wrap_add (a b : Z) : wrap (wrap a + b) = wrap (a + b).
Proof. unfold wrap. apply Zplus_mod_idemp_l. Qed.

(** ** Positions *)

Lemma wrap_pos_next (N : nat) (inc : Z) (i : nat) :
  wrap (wrap (pos N inc i) + inc) = wrap (pos N inc (S i)).
Proof. rewrite wrap_add. f_equal. unfold pos. lia. Qed.

Section Positions.

Variable N : nat.
Variable inc : Z.
Variable len : nat.

Hypothesis inc_nonzero : inc <> 0%Z.
Hypothesis fits : ((Z.of_nat N - 1) * Z.abs inc < Z.of_nat len)%Z.
Hypothesis addressable : (Z.of_nat len <= 2 ^ SIZE_BITS)%Z.

Lemma pos_range (i : nat) :
  (i < N)%nat -> (0 <= pos N inc i < Z.of_nat len)%Z.
Proof using fits.
  clear inc_nonzero addressable.
  intro Hi. unfold pos, OFFSET.
  destruct (inc >? 0)%Z eqn:E.
  - apply Z.gtb_lt in E. rewrite Z.abs_eq in fits by lia. nia.
  - assert (inc <= 0)%Z.
    { destruct (Z.gtb_spec inc 0); [discriminate|lia]. }
    rewrite Z.abs_neq in fits by lia. nia.
Qed.

Lemma wrap_pos (i : nat) : (i < N)%nat -> wrap (pos N inc i) = pos N inc i.
Proof using fits addressable.
  clear inc_nonzero.
  intro Hi. apply wrap_in_range. pose proof (pos_range i Hi). lia.
Qed.

Lemma pos_inj (i j : nat) : pos N inc i = pos N inc j -> i = j.
Proof using inc_nonzero.
  clear fits addressable. unfold pos. intro H. nia. Qed.

End Positions.

(** ** Sums *)

Lemma sum_from_ext (f g : nat -> Q) (lo count : nat) :
  (forall i, (lo <= i < lo + count)%nat -> f i == g i) ->
  sum_from f lo count == sum_from g lo count.
Proof.
  revert lo. induction count as [|c IH]; intros lo H; cbn [sum_from].
  - reflexivity.
  - rewrite (H lo) by lia. rewrite (IH (S lo)); [reflexivity|].
    intros i Hi. apply H. lia.
Qed.

Lemma sum_from_plus (f g : nat -> Q) (lo count : nat) :
  sum_from (fun i => f i + g i) lo count
  == sum_from f lo count + sum_from g lo count.
Proof.
  revert lo. induction count as [|c IH]; intro lo; cbn [sum_from].
  - ring.
  - rewrite IH. ring.
Qed.

Lemma sum_from_scale (c : Q) (f : nat -> Q) (lo count : nat) :
  sum_from (fun i => c * f i) lo count == c * sum_from f lo count.
Proof.
  revert lo. induction count as [|n IH]; intro lo; cbn [sum_from].
  - ring.
  - rewrite IH. ring.
Qed.

Lemma sum_from_zero (f : nat -> Q) (lo count : nat) :
  (forall i, (lo <= i < lo + count)%nat -> f i == 0) ->
  sum_from f lo count == 0.
Proof.
  revert lo. induction count as [|c IH]; intros lo H; cbn [sum_from].
  - reflexivity.
  - rewrite (H lo) by lia. rewrite IH; [ring|].
    intros i Hi. apply H. lia.
Qed.

Lemma sum_from_snoc (f : nat -> Q) (lo count : nat) :
  sum_from f lo (S count) == sum_from f lo count + f (lo + count)%nat.
Proof.
  revert lo. induction count as [|c IH]; intro lo.
  - cbn [sum_from]. rewrite Nat.add_0_r. ring.
  - change (sum_from f lo (S (S c)))
      with (f lo + sum_from f (S lo) (S c)).
    rewrite IH. cbn [sum_from].
    replace (S lo + c)%nat with (lo + S c)%nat by lia. ring.
Qed.

(** The sum of a function that vanishes off one index. *)
Lemma sum_from_single (f : nat -> Q) (r lo count : nat) :
  (lo <= r < lo + count)%nat ->
  (forall i, (lo <= i < lo + count)%nat -> i <> r -> f i == 0) ->
  sum_from f lo count == f r.
Proof.
  revert lo. induction count as [|c IH]; intros lo Hr H; [lia|].
  cbn [sum_from].
  destruct (Nat.eq_dec lo r) as [->|Hne].
  - rewrite sum_from_zero; [ring|].
    intros i Hi. apply H; lia.
  - rewrite (H lo) by lia. rewrite IH; [ring|lia|].
    intros i Hi Hir. apply H; lia.
Qed.

(** A sum over a part of a range, as a sum over the range. *)
Lemma sum_from_part (f : nat -> Q) (a cnt lo count : nat) :
  (lo <= a)%nat -> (a + cnt <= lo + count)%nat ->
  sum_from f a cnt
  == sum_from (fun j => if (a <=? j)%nat && (j <? a + cnt)%nat
                        then f j else 0) lo count.
Proof.
  destruct cnt as [|cnt'].
  { intros _ _. cbn [sum_from]. symmetry. apply sum_from_zero.
    intros i _.
    destruct (a <=? i)%nat eqn:E1, (i <? a + 0)%nat eqn:E2; cbn [andb];
      try reflexivity.
    apply Nat.leb_le in E1. apply Nat.ltb_lt in E2. lia. }
  revert lo a cnt'. induction count as [|c IH]; intros lo a cnt' Hlo Hhi.
  - lia.
  - cbn [sum_from].
    destruct (Nat.eq_dec lo a) as [->|Hne].
    + replace ((a <=? a)%nat && (a <? a + S cnt')%nat) with true.
      2:{ symmetry. apply andb_true_intro. split;
            [apply Nat.leb_le|apply Nat.ltb_lt]; lia. }
      apply Qplus_comp; [reflexivity|].
      destruct cnt' as [|cnt''].
      * cbn [sum_from]. symmetry. apply sum_from_zero. intros i Hi.
        replace (i <? a + 1)%nat with false
          by (symmetry; apply Nat.ltb_ge; lia).
        rewrite andb_false_r. reflexivity.
      * rewrite (IH (S a) (S a) cnt'') by lia.
        apply sum_from_ext. intros i Hi.
        replace (a <=? i)%nat with true by (symmetry; apply Nat.leb_le; lia).
        replace (S a <=? i)%nat with true
          by (symmetry; apply Nat.leb_le; lia).
        replace (S a + S cnt'')%nat with (a + S (S cnt''))%nat by lia.
        reflexivity.
    + replace ((a <=? lo)%nat) with false
        by (symmetry; apply Nat.leb_gt; lia).
      cbn [andb]. rewrite (IH (S lo) a cnt') by lia. ring.
Qed.

(** ** The loops *)

(** Case analysis on the comparisons of natural numbers in the goal. *)
Ltac cases_nat :=
  repeat match goal with
  | |- context [(?a <=? ?b)%nat] => destruct (Nat.leb_spec a b)
  | |- context [(?a <? ?b)%nat] => destruct (Nat.ltb_spec a b)
  | |- context [(?a =? ?b)%nat] => destruct (Nat.eqb_spec a b)
  end;
  cbn [andb orb negb]; try lia.

Section Loops.

Variable N : nat.
Variable incX incY : Z.
Variable X : list BASE.
Variable lenY : nat.

Hypothesis incY_nonzero : incY <> 0%Z.
Hypothesis X_fits :
  ((Z.of_nat N - 1) * Z.abs incX < Z.of_nat (List.length X))%Z.
Hypothesis Y_fits : ((Z.of_nat N - 1) * Z.abs incY < Z.of_nat lenY)%Z.
Hypothesis X_addressable : (Z.of_nat (List.length X) <= 2 ^ SIZE_BITS)%Z.
Hypothesis Y_addressable : (Z.of_nat lenY <= 2 ^ SIZE_BITS)%Z.

Local Notation "'posX'" := (pos N incX).
Local Notation "'posY'" := (pos N incY).

Lemma posY_range (q : nat) :
  (q < N)%nat -> (0 <= posY q < Z.of_nat lenY)%Z.
Proof using Y_fits.
  clear incY_nonzero X_fits X_addressable Y_addressable. intro Hq. apply pos_range; assumption. Qed.

Lemma wrap_posX (i : nat) : (i < N)%nat -> wrap (posX i) = posX i.
Proof using X_fits X_addressable.
  clear incY_nonzero Y_fits Y_addressable. intro Hi. apply (wrap_pos N incX (List.length X)); assumption. Qed.

Lemma wrap_posY (i : nat) : (i < N)%nat -> wrap (posY i) = posY i.
Proof using Y_fits Y_addressable.
  clear incY_nonzero X_fits X_addressable. intro Hi. apply (wrap_pos N incY lenY); assumption. Qed.

Lemma posY_inj (i j : nat) : posY i = posY j -> i = j.
Proof using incY_nonzero.
  clear X_fits Y_fits X_addressable Y_addressable. apply (pos_inj N incY); assumption. Qed.

Lemma rd_wr_posY_same (Y : list BASE) (q : nat) (x : BASE) :
  List.length Y = lenY -> (q < N)%nat ->
  rd (wr Y (posY q) x) (posY q) = x.
Proof using Y_fits.
  clear incY_nonzero X_fits X_addressable Y_addressable.
  intros HY Hq. apply rd_wr_same. rewrite HY. apply posY_range, Hq.
Qed.

Lemma rd_wr_posY_other (Y : list BASE) (i q : nat) (x : BASE) :
  (i < N)%nat -> (q < N)%nat -> q <> i ->
  rd (wr Y (posY i) x) (posY q) = rd Y (posY q).
Proof using Y_fits incY_nonzero.
  clear X_fits X_addressable Y_addressable.
  intros Hi Hq Hne.
  pose proof (posY_range i Hi).
  pose proof (posY_range q Hq).
  apply rd_wr_other; try lia.
  intro E. apply Hne. symmetry. exact (posY_inj _ _ E).
Qed.

Lemma rd_wr_off_posY (Y : list BASE) (i : nat) (c : Z) (x : BASE) :
  (i < N)%nat -> (0 <= c)%Z -> (forall q, (q < N)%nat -> c <> posY q) ->
  rd (wr Y (posY i) x) c = rd Y c.
Proof using Y_fits.
  clear incY_nonzero X_fits X_addressable Y_addressable.
  intros Hi Hc Hoff.
  pose proof (posY_range i Hi).
  apply rd_wr_other; try lia.
  intro E. exact (Hoff i Hi (eq_sym E)).
Qed.

Lemma scale_loop_spec (body : BASE -> BASE) (count : nat) :
  forall (i : nat) (iy : Z) (Y : list BASE),
    (i + count <= N)%nat ->
    List.length Y = lenY ->
    iy = wrap (posY i) ->
    let Y' := scale_loop body incY count iy Y in
    List.length Y' = lenY
    /\ (forall q, (q < N)%nat ->
          rd Y' (posY q)
          = if (i <=? q)%nat && (q <? i + count)%nat
            then body (rd Y (posY q)) else rd Y (posY q))
    /\ (forall c, (0 <= c)%Z -> (forall q, (q < N)%nat -> c <> posY q) ->
          rd Y' c = rd Y c).
Proof using incY_nonzero Y_fits Y_addressable.
  clear X_fits X_addressable.
  induction count as [|count IH]; intros i iy Y Hi HY Hiy; cbn [scale_loop].
  - split; [exact HY|]. split; [|reflexivity].
    intros q Hq. cases_nat; reflexivity.
  - cbv zeta.
    assert (Ei : iy = posY i).
    { rewrite Hiy. apply wrap_posY. lia. }
    destruct (IH (S i) (wrap (iy + incY)) (wr Y iy (body (rd Y iy))))
      as (Hlen & Hval & Hoff).
    + lia.
    + rewrite length_wr. exact HY.
    + rewrite Hiy. exact (wrap_pos_next N incY i).
    + split; [exact Hlen|]. split.
      * intros q Hq. rewrite (Hval q Hq). rewrite Ei.
        destruct (Nat.eq_dec q i) as [->|Hne].
        -- rewrite rd_wr_posY_same by (assumption || lia).
           cases_nat; reflexivity.
        -- rewrite rd_wr_posY_other by (assumption || lia).
           cases_nat; reflexivity.
      * intros c Hc Hc'. rewrite (Hoff c Hc Hc'). rewrite Ei.
        apply rd_wr_off_posY; (assumption || lia).
Qed.

Variable j_min j_max : nat -> nat.
Variable diag : nat -> nat.
Variable band : nat -> nat -> nat.
Variable alpha : BASE.
Variable A : list BASE.

Lemma inner_loop_spec (i : nat) (tmp1 : BASE) (count : nat) :
  forall (j : nat) (jx jy : Z) (tmp2 : BASE) (Y : list BASE),
    (j + count <= N)%nat ->
    List.length Y = lenY ->
    jx = wrap (posX j) ->
    jy = wrap (posY j) ->
    let r := inner_loop band A X incX incY i tmp1 count j jx jy tmp2 Y in
    fst r == tmp2 + sum_from (fun j' => rd A (Z.of_nat (band i j'))
                                        * rd X (posX j')) j count
    /\ List.length (snd r) = lenY
    /\ (forall q, (q < N)%nat ->
          rd (snd r) (posY q)
          == rd Y (posY q)
             + (if (j <=? q)%nat && (q <? j + count)%nat
                then tmp1 * rd A (Z.of_nat (band i q)) else 0))
    /\ (forall c, (0 <= c)%Z -> (forall q, (q < N)%nat -> c <> posY q) ->
          rd (snd r) c = rd Y c).
Proof using incY_nonzero Y_fits Y_addressable X_fits X_addressable.
  induction count as [|count IH]; intros j jx jy tmp2 Y Hj HY Hjx Hjy;
    cbn [inner_loop].
  - cbn [fst snd sum_from]. split; [ring|]. split; [exact HY|].
    split; [|reflexivity]. intros q Hq. cases_nat; ring.
  - cbv zeta.
    assert (Ex : jx = posX j).
    { rewrite Hjx. apply wrap_posX. lia. }
    assert (Ey : jy = posY j).
    { rewrite Hjy. apply wrap_posY. lia. }
    destruct (IH (S j) (wrap (jx + incX)) (wrap (jy + incY))
                (tmp2 + rd A (Z.of_nat (band i j)) * rd X jx)
                (wr Y jy (rd Y jy + tmp1 * rd A (Z.of_nat (band i j)))))
      as (Hsum & Hlen & Hval & Hoff).
    + lia.
    + rewrite length_wr. exact HY.
    + rewrite Hjx. exact (wrap_pos_next N incX j).
    + rewrite Hjy. exact (wrap_pos_next N incY j).
    + split.
      { rewrite Hsum. cbn [sum_from]. rewrite Ex. ring. }
      split; [exact Hlen|]. split.
      * intros q Hq. rewrite (Hval q Hq). rewrite Ey.
        destruct (Nat.eq_dec q j) as [->|Hne].
        -- rewrite rd_wr_posY_same by (assumption || lia).
           cases_nat; ring.
        -- rewrite rd_wr_posY_other by (assumption || lia).
           cases_nat; ring.
      * intros c Hc Hc'. rewrite (Hoff c Hc Hc'). rewrite Ey.
        apply rd_wr_off_posY; (assumption || lia).
Qed.

Hypothesis j_bounds :
  forall i, (i < N)%nat -> (j_min i + (j_max i - j_min i) <= N)%nat.

Lemma row_loop_spec (count : nat) :
  forall (i : nat) (ix iy : Z) (Y : list BASE),
    (i + count <= N)%nat ->
    List.length Y = lenY ->
    ix = wrap (posX i) ->
    iy = wrap (posY i) ->
    let Y' := row_loop j_min j_max diag band N alpha A X incX incY
                count i ix iy Y in
    List.length Y' = lenY
    /\ (forall q, (q < N)%nat ->
          rd Y' (posY q)
          == rd Y (posY q)
             + sum_from (fun i' => contribution j_min j_max diag band N alpha
                                     A X incX i' q) i count)
    /\ (forall c, (0 <= c)%Z -> (forall q, (q < N)%nat -> c <> posY q) ->
          rd Y' c = rd Y c).
Proof using incY_nonzero Y_fits Y_addressable X_fits X_addressable j_bounds.
  induction count as [|count IH]; intros i ix iy Y Hi HY Hix Hiy;
    cbn [row_loop].
  - split; [exact HY|]. split; [|reflexivity].
    intros q Hq. cbn [sum_from]. ring.
  - cbv zeta.
    assert (Ex : ix = posX i).
    { rewrite Hix. apply wrap_posX. lia. }
    assert (Ey : iy = posY i).
    { rewrite Hiy. apply wrap_posY. lia. }
    assert (HiN : (i < N)%nat) by lia.
    set (Y1 := wr Y iy (rd Y iy + alpha * rd X ix * rd A (Z.of_nat (diag i)))).
    assert (HY1 : List.length Y1 = lenY).
    { unfold Y1. rewrite length_wr. exact HY. }
    destruct (inner_loop_spec i (alpha * rd X ix) (j_max i - j_min i)
                (j_min i)
                (wrap (OFFSET N incX + Z.of_nat (j_min i) * incX))
                (wrap (OFFSET N incY + Z.of_nat (j_min i) * incY))
                0 Y1 (j_bounds i HiN) HY1 eq_refl eq_refl)
      as (Hsum & Hlen2 & Hval2 & Hoff2).
    destruct (inner_loop _ _ _ _ _ _ _ _ _ _ _ _ _) as [tmp2 Y2].
    cbn [fst snd] in Hsum, Hlen2, Hval2, Hoff2.
    destruct (IH (S i) (wrap (ix + incX)) (wrap (iy + incY))
                (wr Y2 iy (rd Y2 iy + alpha * tmp2)))
      as (Hlen & Hval & Hoff).
    + lia.
    + rewrite length_wr. exact Hlen2.
    + rewrite Hix. exact (wrap_pos_next N incX i).
    + rewrite Hiy. exact (wrap_pos_next N incY i).
    + split; [exact Hlen|]. split.
      * intros q Hq. rewrite (Hval q Hq). cbn [sum_from].
        unfold contribution at 2. fold posX. rewrite Ey.
        destruct (Nat.eq_dec q i) as [->|Hne].
        -- rewrite rd_wr_posY_same by (assumption || lia).
           rewrite (Hval2 i HiN). unfold Y1. rewrite Ey.
           rewrite rd_wr_posY_same by (assumption || lia).
           rewrite Hsum. rewrite Ex. rewrite Nat.eqb_refl. ring.
        -- rewrite rd_wr_posY_other by (assumption || lia).
           rewrite (Hval2 q Hq). unfold Y1. rewrite Ey.
           rewrite rd_wr_posY_other by (assumption || lia).
           rewrite Ex.
           replace (q =? i)%nat with false
             by (symmetry; apply Nat.eqb_neq; exact Hne).
           ring.
      * intros c Hc Hc'. rewrite (Hoff c Hc Hc'). rewrite Ey.
        rewrite rd_wr_off_posY by (assumption || lia).
        rewrite (Hoff2 c Hc Hc'). unfold Y1. rewrite Ey.
        apply rd_wr_off_posY; (assumption || lia).
Qed.

(** All rows together: entry [q] of [Y] has received [alpha] times row [q]
    of the matrix whose entry (q, j) is the diagonal entry, the [Aij] that
    row [q] reads at [j], and the [Aij] that row [j] reads at [q]. *)
Lemma contribution_total (q : nat) :
  (q < N)%nat ->
  sum_from (fun i => contribution j_min j_max diag band N alpha A X incX i q)
    0 N
  == alpha
     * sum_from
         (fun j =>
            ((if (j =? q)%nat then rd A (Z.of_nat (diag q)) else 0)
             + (if (j_min q <=? j)%nat
                   && (j <? j_min q + (j_max q - j_min q))%nat
                then rd A (Z.of_nat (band q j)) else 0)
             + (if (j_min j <=? q)%nat
                   && (q <? j_min j + (j_max j - j_min j))%nat
                then rd A (Z.of_nat (band j q)) else 0))
            * rd X (posX j)) 0 N.
Proof using j_bounds.
  clear incY_nonzero X_fits Y_fits X_addressable Y_addressable.
  intro Hq.
  set (inq := fun q j => (j_min q <=? j)%nat
                         && (j <? j_min q + (j_max q - j_min q))%nat).
  transitivity
    (alpha * rd X (posX q) * rd A (Z.of_nat (diag q))
     + alpha * sum_from (fun j => if inq q j
                                  then rd A (Z.of_nat (band q j))
                                       * rd X (posX j)
                                  else 0) 0 N
     + sum_from (fun i => if inq i q
                          then alpha * rd X (posX i)
                               * rd A (Z.of_nat (band i q))
                          else 0) 0 N).
  - unfold contribution. rewrite sum_from_plus.
    apply Qplus_comp; [|reflexivity].
    rewrite (sum_from_single _ q) by (lia || (intros i _ Hne; cases_nat;
                                              reflexivity)).
    rewrite Nat.eqb_refl.
    rewrite (sum_from_part _ (j_min q) (j_max q - j_min q) 0 N)
      by (pose proof (j_bounds q Hq); lia).
    reflexivity.
  - symmetry.
    match goal with
    | |- alpha * sum_from ?f _ _ == _ => rewrite <- (sum_from_scale alpha f)
    end.
    set (a := fun j : nat => if (j =? q)%nat
                             then alpha * rd X (posX q)
                                  * rd A (Z.of_nat (diag q))
                             else 0).
    set (b := fun j : nat => alpha * (if inq q j
                                      then rd A (Z.of_nat (band q j))
                                           * rd X (posX j)
                                      else 0)).
    set (c := fun i : nat => if inq i q
                             then alpha * rd X (posX i)
                                  * rd A (Z.of_nat (band i q))
                             else 0).
    transitivity (sum_from (fun j => a j + b j + c j) 0 N).
    + apply sum_from_ext. intros j _. unfold a, b, c.
      fold (inq q j). fold (inq j q).
      destruct (Nat.eqb_spec j q) as [E|Hne]; try rewrite E;
        repeat match goal with
               | |- context [inq ?u ?v] => destruct (inq u v)
               end; ring.
    + rewrite (sum_from_plus (fun j => a j + b j) c).
      rewrite (sum_from_plus a b).
      apply Qplus_comp; [apply Qplus_comp|reflexivity].
      * rewrite (sum_from_single a q)
          by (lia || (intros i _ Hne; unfold a; cases_nat; reflexivity)).
        unfold a. rewrite Nat.eqb_refl. reflexivity.
      * unfold b. apply sum_from_scale.
Qed.

End Loops.

(** ** The product *)

Section Scaling.

Variable N : nat.
Variable incY : Z.
Variable beta : Q.
Variable Y : list BASE.

Hypothesis incY_nonzero : incY <> 0%Z.
Hypothesis Y_fits :
  ((Z.of_nat N - 1) * Z.abs incY < Z.of_nat (List.length Y))%Z.
Hypothesis Y_addressable : (Z.of_nat (List.length Y) <= 2 ^ SIZE_BITS)%Z.

(** The first part of the body, [y := beta*y]. *)
Lemma scaling_spec :
  let Y1 :=
    if Qeq_bool beta 0 then
      scale_loop (fun _ => 0) incY N (wrap (OFFSET N incY)) Y
    else if negb (Qeq_bool beta 1) then
      scale_loop (fun y => y * beta) incY N (wrap (OFFSET N incY)) Y
    else Y in
  List.length Y1 = List.length Y
  /\ (forall q, (q < N)%nat ->
        rd Y1 (pos N incY q) == beta * rd Y (pos N incY q))
  /\ (forall c, (0 <= c)%Z ->
        (forall q, (q < N)%nat -> c <> pos N incY q) ->
        rd Y1 c = rd Y c).
Proof.
  assert (Hstart : wrap (OFFSET N incY) = wrap (pos N incY 0)).
  { f_equal. unfold pos. lia. }
  destruct (Qeq_bool beta 0) eqn:E0; [|destruct (Qeq_bool beta 1) eqn:E1];
    cbn [negb]; cbv zeta.
  - apply Qeq_bool_iff in E0.
    destruct (scale_loop_spec N incY (List.length Y) incY_nonzero Y_fits
                Y_addressable (fun _ => 0) N 0%nat (wrap (OFFSET N incY)) Y)
      as (Hlen & Hval & Hoff); try (reflexivity || lia || exact Hstart).
    split; [exact Hlen|]. split; [|exact Hoff].
    intros q Hq. rewrite (Hval q Hq). rewrite E0.
    replace ((0 <=? q)%nat && (q <? 0 + N)%nat) with true; [ring|].
    symmetry. apply andb_true_intro.
    split; [apply Nat.leb_le|apply Nat.ltb_lt]; lia.
  - apply Qeq_bool_iff in E1.
    split; [reflexivity|]. split; [|reflexivity].
    intros q Hq. rewrite E1. ring.
  - destruct (scale_loop_spec N incY (List.length Y) incY_nonzero Y_fits
                Y_addressable (fun y => y * beta) N 0%nat
                (wrap (OFFSET N incY)) Y)
      as (Hlen & Hval & Hoff); try (reflexivity || lia || exact Hstart).
    split; [exact Hlen|]. split; [|exact Hoff].
    intros q Hq. rewrite (Hval q Hq).
    replace ((0 <=? q)%nat && (q <? 0 + N)%nat) with true; [ring|].
    symmetry. apply andb_true_intro.
    split; [apply Nat.leb_le|apply Nat.ltb_lt]; lia.
Qed.

End Scaling.

(** The entries that the rows read are the entries of the symmetric band
    matrix, for the two shapes of the row loop. *)
Lemma upper_rows_entry (order : Z) (N K lda : nat) (A : list BASE)
    (diag : nat -> nat) (band : nat -> nat -> nat) (q j : nat) :
  (forall i, diag i = band_cell order CblasUpper K lda i i) ->
  (forall i j, band i j = band_cell order CblasUpper K lda i j) ->
  (q < N)%nat -> (j < N)%nat ->
  let j_min := fun i => (i + 1)%nat in
  let j_max := fun i => Nat.min N (i + K + 1) in
  (if (j =? q)%nat then rd A (Z.of_nat (diag q)) else 0)
  + (if (j_min q <=? j)%nat && (j <? j_min q + (j_max q - j_min q))%nat
     then rd A (Z.of_nat (band q j)) else 0)
  + (if (j_min j <=? q)%nat && (q <? j_min j + (j_max j - j_min j))%nat
     then rd A (Z.of_nat (band j q)) else 0)
  == entry order CblasUpper K lda A q j.
Proof.
  intros Hdiag Hband Hq Hj. cbv zeta. rewrite Hdiag, !Hband.
  unfold entry, entry_place.
  change (CblasUpper =? CblasUpper)%Z with true. cbv iota.
  destruct (Nat.lt_trichotomy q j) as [H|[H|H]].
  - rewrite (Nat.min_l q j), (Nat.max_r q j) by lia. cases_nat; ring.
  - subst j. rewrite Nat.min_id, Nat.max_id. cases_nat; ring.
  - rewrite (Nat.min_r q j), (Nat.max_l q j) by lia. cases_nat; ring.
Qed.

Lemma lower_rows_entry (order : Z) (N K lda : nat) (A : list BASE)
    (diag : nat -> nat) (band : nat -> nat -> nat) (q j : nat) :
  (forall i, diag i = band_cell order CblasLower K lda i i) ->
  (forall i j, band i j = band_cell order CblasLower K lda i j) ->
  (q < N)%nat -> (j < N)%nat ->
  let j_min := fun i => if (i <? K)%nat then 0%nat else (i - K)%nat in
  let j_max := fun i : nat => i in
  (if (j =? q)%nat then rd A (Z.of_nat (diag q)) else 0)
  + (if (j_min q <=? j)%nat && (j <? j_min q + (j_max q - j_min q))%nat
     then rd A (Z.of_nat (band q j)) else 0)
  + (if (j_min j <=? q)%nat && (q <? j_min j + (j_max j - j_min j))%nat
     then rd A (Z.of_nat (band j q)) else 0)
  == entry order CblasLower K lda A q j.
Proof.
  intros Hdiag Hband Hq Hj. cbv zeta. rewrite Hdiag, !Hband.
  unfold entry, entry_place.
  change (CblasLower =? CblasUpper)%Z with false. cbv iota.
  destruct (Nat.ltb_spec q K) as [HqK|HqK], (Nat.ltb_spec j K) as [HjK|HjK];
  (destruct (Nat.lt_trichotomy q j) as [Hqj|[Hqj|Hqj]];
   [ rewrite (Nat.min_l q j), (Nat.max_r q j) by lia
   | subst j; rewrite Nat.min_id, Nat.max_id
   | rewrite (Nat.min_r q j), (Nat.max_l q j) by lia ]);
  cases_nat; ring.
Qed.

Section Product.

Variable order Uplo : Z.
Variable N K lda : nat.
Variable alpha beta : Q.
Variable A X Y : list BASE.
Variable incX incY : Z.

Hypothesis incY_nonzero : incY <> 0%Z.
Hypothesis X_fits :
  ((Z.of_nat N - 1) * Z.abs incX < Z.of_nat (List.length X))%Z.
Hypothesis Y_fits :
  ((Z.of_nat N - 1) * Z.abs incY < Z.of_nat (List.length Y))%Z.
Hypothesis X_addressable : (Z.of_nat (List.length X) <= 2 ^ SIZE_BITS)%Z.
Hypothesis Y_addressable : (Z.of_nat (List.length Y) <= 2 ^ SIZE_BITS)%Z.

Lemma rows_product (j_min j_max diag : nat -> nat)
    (band : nat -> nat -> nat) (S : nat -> nat -> Q) (Y1 : list BASE) :
  (forall i, (i < N)%nat -> (j_min i + (j_max i - j_min i) <= N)%nat) ->
  (forall q j, (q < N)%nat -> (j < N)%nat ->
     (if (j =? q)%nat then rd A (Z.of_nat (diag q)) else 0)
     + (if (j_min q <=? j)%nat && (j <? j_min q + (j_max q - j_min q))%nat
        then rd A (Z.of_nat (band q j)) else 0)
     + (if (j_min j <=? q)%nat && (q <? j_min j + (j_max j - j_min j))%nat
        then rd A (Z.of_nat (band j q)) else 0)
     == S q j) ->
  List.length Y1 = List.length Y ->
  (forall q, (q < N)%nat ->
     rd Y1 (pos N incY q) == beta * rd Y (pos N incY q)) ->
  (forall c, (0 <= c)%Z -> (forall q, (q < N)%nat -> c <> pos N incY q) ->
     rd Y1 c = rd Y c) ->
  holds_product N alpha beta X Y incX incY S
    (row_loop j_min j_max diag band N alpha A X incX incY N 0
       (wrap (OFFSET N incX)) (wrap (OFFSET N incY)) Y1).
Proof.
  intros Hjb HS Hlen1 Hval1 Hoff1.
  destruct (row_loop_spec N incX incY X (List.length Y) incY_nonzero X_fits
              Y_fits X_addressable Y_addressable j_min j_max diag band alpha
              A Hjb N 0%nat (wrap (OFFSET N incX)) (wrap (OFFSET N incY)) Y1)
    as (Hlen & Hval & Hoff).
  - lia.
  - exact Hlen1.
  - f_equal. unfold pos. lia.
  - f_equal. unfold pos. lia.
  - split; [exact Hlen|]. split.
    + intros q Hq. rewrite (Hval q Hq), (Hval1 q Hq).
      rewrite (contribution_total N incX X j_min j_max diag band alpha A Hjb
                 q Hq).
      apply Qplus_comp; [reflexivity|].
      apply Qmult_comp; [reflexivity|].
      apply sum_from_ext. intros j Hj.
      apply Qmult_comp; [|reflexivity].
      apply HS; lia.
    + intros c Hc Hc'. rewrite (Hoff c Hc Hc'). apply Hoff1; assumption.
Qed.

End Product.

(** Evaluates the comparisons of the enumeration constants in the goal. *)
Ltac decide_operation :=
  repeat match goal with
  | |- context [(?a =? ?b)%Z] =>
      let v := eval vm_compute in (a =? b)%Z in
      change (a =? b)%Z with v
  end;
  cbn [andb orb].

(** The index expressions of the four branches are the cells of the band
    storage. *)
Lemma branch_cells (order Uplo : Z) (K lda : nat) (i j : nat) :
  band_cell order Uplo K lda i j
  = if (order =? CblasRowMajor)%Z then
      if (Uplo =? CblasUpper)%Z then (lda * (K + i - j) + j)%nat
      else (lda * (i - j) + j)%nat
    else
      if (Uplo =? CblasUpper)%Z then ((K + i - j) + lda * j)%nat
      else ((i - j) + lda * j)%nat.
Proof.
  unfold band_cell, cell, band_row.
  destruct (order =? CblasRowMajor)%Z, (Uplo =? CblasUpper)%Z; lia.
Qed.

(** The product for the matrix that [A] holds. *)
Lemma sbmv_entry_product (order Uplo : Z) (N K : nat)
    (alpha : BASE) (A : list BASE) (lda : nat) (X : list BASE) (incX : Z)
    (beta : BASE) (Y : list BASE) (incY : Z) :
  recognized order Uplo = true ->
  incY <> 0%Z ->
  ((Z.of_nat N - 1) * Z.abs incX < Z.of_nat (List.length X))%Z ->
  ((Z.of_nat N - 1) * Z.abs incY < Z.of_nat (List.length Y))%Z ->
  (Z.of_nat (List.length X) <= 2 ^ SIZE_BITS)%Z ->
  (Z.of_nat (List.length Y) <= 2 ^ SIZE_BITS)%Z ->
  let r := sbmv order Uplo N K alpha A lda X incX beta Y incY in
  snd r = []
  /\ holds_product N alpha beta X Y incX incY (entry order Uplo K lda A)
       (fst r).
Proof.
  intros Hrec HincY HXfits HYfits HXaddr HYaddr. unfold sbmv.
  destruct (Qeq_bool alpha 0 && Qeq_bool beta 1) eqn:Equick.
  { apply andb_prop in Equick. destruct Equick as [Ea Eb].
    apply Qeq_bool_iff in Ea, Eb. cbn [fst snd].
    split; [reflexivity|]. split; [reflexivity|]. split; [|reflexivity].
    intros q Hq. rewrite Ea, Eb. ring. }
  destruct (scaling_spec N incY beta Y HincY HYfits HYaddr)
    as (Hlen1 & Hval1 & Hoff1).
  cbv zeta in *.
  match type of Hlen1 with
  | List.length ?y = _ => set (Y1 := y) in *
  end.
  destruct (Qeq_bool alpha 0) eqn:Ea.
  { apply Qeq_bool_iff in Ea. cbn [fst snd].
    split; [reflexivity|]. split; [exact Hlen1|]. split; [|exact Hoff1].
    intros q Hq. rewrite (Hval1 q Hq), Ea. ring. }
  unfold recognized in Hrec. apply andb_prop in Hrec.
  destruct Hrec as [Ho Hu]. apply orb_prop in Ho, Hu.
  destruct Ho as [Ho|Ho], Hu as [Hu|Hu]; apply Z.eqb_eq in Ho, Hu;
    subst order Uplo; decide_operation; cbn [fst snd];
    (split; [reflexivity|]);
    apply rows_product; try assumption.
  - intros i Hi. lia.
  - intros q j Hq Hj.
    apply (upper_rows_entry CblasRowMajor N K lda A
             (fun i => lda * K + i)%nat
             (fun i j => lda * (K + i - j) + j)%nat); try assumption.
    + intro i. rewrite branch_cells. decide_operation.
      rewrite Nat.add_sub. reflexivity.
    + intros i j'. rewrite branch_cells. reflexivity.
  - intros i Hi. destruct (i <? K)%nat; lia.
  - intros q j Hq Hj.
    apply (lower_rows_entry CblasRowMajor N K lda A
             (fun i => lda * 0 + i)%nat
             (fun i j => lda * (i - j) + j)%nat); try assumption.
    + intro i. rewrite branch_cells. decide_operation.
      rewrite Nat.sub_diag. reflexivity.
    + intros i j'. rewrite branch_cells. reflexivity.
  - intros i Hi. lia.
  - intros q j Hq Hj.
    apply (upper_rows_entry CblasColMajor N K lda A
             (fun i => K + lda * i)%nat
             (fun i j => (K + i - j) + lda * j)%nat); try assumption.
    + intro i. rewrite branch_cells. decide_operation.
      rewrite Nat.add_sub. reflexivity.
    + intros i j'. rewrite branch_cells. reflexivity.
  - intros i Hi. destruct (i <? K)%nat; lia.
  - intros q j Hq Hj.
    apply (lower_rows_entry CblasColMajor N K lda A
             (fun i => 0 + lda * i)%nat
             (fun i j => (i - j) + lda * j)%nat); try assumption.
    + intro i. rewrite branch_cells. decide_operation.
      rewrite Nat.sub_diag. reflexivity.
    + intros i j'. rewrite branch_cells. reflexivity.
Qed.

(** ** The layout *)

Lemma cell_in_array (order : Z) (N K lda len : nat) (r c : nat) :
  dimensions_ok order N K lda len ->
  (r <= K)%nat -> (c < N)%nat ->
  (cell order lda r c < len)%nat.
Proof.
  unfold dimensions_ok, cell.
  destruct (order =? CblasRowMajor)%Z; intros [Hlda Hlen] Hr Hc.
  - assert ((r + 1) * lda <= (K + 1) * lda)%nat
      by (apply Nat.mul_le_mono_r; lia).
    lia.
  - assert ((c + 1) * lda <= N * lda)%nat
      by (apply Nat.mul_le_mono_r; lia).
    lia.
Qed.

Lemma cell_injective (order : Z) (N K lda len : nat) (r c r' c' : nat) :
  dimensions_ok order N K lda len ->
  (r <= K)%nat -> (c < N)%nat -> (r' <= K)%nat -> (c' < N)%nat ->
  cell order lda r c = cell order lda r' c' ->
  r = r' /\ c = c'.
Proof.
  unfold dimensions_ok, cell.
  destruct (order =? CblasRowMajor)%Z; intros [Hlda _] Hr Hc Hr' Hc' E.
  - destruct (Nat.lt_trichotomy r r') as [H|[H|H]].
    + assert ((r + 1) * lda <= r' * lda)%nat
        by (apply Nat.mul_le_mono_r; lia).
      lia.
    + subst r'. lia.
    + assert ((r' + 1) * lda <= r * lda)%nat
        by (apply Nat.mul_le_mono_r; lia).
      lia.
  - destruct (Nat.lt_trichotomy c c') as [H|[H|H]].
    + assert ((c + 1) * lda <= c' * lda)%nat
        by (apply Nat.mul_le_mono_r; lia).
      lia.
    + subst c'. lia.
    + assert ((c' + 1) * lda <= c * lda)%nat
        by (apply Nat.mul_le_mono_r; lia).
      lia.
Qed.

Lemma band_row_bound (Uplo : Z) (N K i j : nat) :
  in_triangle Uplo N K i j -> (band_row Uplo K i j <= K)%nat.
Proof.
  unfold in_triangle, band_row.
  destruct (Uplo =? CblasUpper)%Z; lia.
Qed.

(** The matrix that [A] holds is the one it represents. *)
Lemma represents_entry (order Uplo : Z) (N K lda : nat) (A : list BASE)
    (S : nat -> nat -> Q) (q j : nat) :
  represents order Uplo N K lda A S ->
  (q < N)%nat -> (j < N)%nat ->
  entry order Uplo K lda A q j == S q j.
Proof.
  intros (Hcells & Hsym & Hband) Hq Hj. unfold entry, entry_place.
  destruct (Nat.ltb_spec K (Nat.max q j - Nat.min q j)) as [Hout|Hin].
  { symmetry. apply Hband; assumption. }
  destruct (Uplo =? CblasUpper)%Z eqn:Eu.
  - rewrite Hcells.
    + destruct (Nat.le_ge_cases q j) as [H|H].
      * rewrite Nat.min_l, Nat.max_r by lia. reflexivity.
      * rewrite Nat.min_r, Nat.max_l by lia. apply Hsym; assumption.
    + unfold in_triangle. rewrite Eu. lia.
  - rewrite Hcells.
    + destruct (Nat.le_ge_cases q j) as [H|H].
      * rewrite Nat.min_l, Nat.max_r by lia. apply Hsym; assumption.
      * rewrite Nat.min_r, Nat.max_l by lia. reflexivity.
    + unfold in_triangle. rewrite Eu. lia.
Qed.

(** For the four combinations of [CblasRowMajor], [CblasColMajor] with
    [CblasUpper], [CblasLower], on vectors that lie in their arrays and an
    array [A] of the dimensions of the band storage, the body raises no
    error and leaves [beta*y + alpha*S*x] in the entries of [Y] for every
    symmetric band matrix [S] that [A] represents; the cells of [Y] between
    the entries are untouched.  The band array is addressed by columns for
    [CblasColMajor] and by rows for [CblasRowMajor], and with these
    dimensions the entries of the stored triangle have cells of their own
    inside [A]. *)
Theorem sbmv_symmetric_band_product (order Uplo : Z) (N K : nat)
    (alpha : BASE) (A : list BASE) (lda : nat) (X : list BASE) (incX : Z)
    (beta : BASE) (Y : list BASE) (incY : Z) (S : nat -> nat -> Q) :
  recognized order Uplo = true ->
  incY <> 0%Z ->
  ((Z.of_nat N - 1) * Z.abs incX < Z.of_nat (List.length X))%Z ->
  ((Z.of_nat N - 1) * Z.abs incY < Z.of_nat (List.length Y))%Z ->
  (Z.of_nat (List.length X) <= 2 ^ SIZE_BITS)%Z ->
  (Z.of_nat (List.length Y) <= 2 ^ SIZE_BITS)%Z ->
  dimensions_ok order N K lda (List.length A) ->
  represents order Uplo N K lda A S ->
  let r := sbmv order Uplo N K alpha A lda X incX beta Y incY in
  snd r = []
  /\ holds_product N alpha beta X Y incX incY S (fst r)
  /\ (forall i j, in_triangle Uplo N K i j ->
        (band_cell order Uplo K lda i j < List.length A)%nat)
  /\ (forall i j i' j',
        in_triangle Uplo N K i j -> in_triangle Uplo N K i' j' ->
        band_cell order Uplo K lda i j = band_cell order Uplo K lda i' j' ->
        i = i' /\ j = j').
Proof.
  intros Hrec HincY HXfits HYfits HXaddr HYaddr Hdim Hrep.
  destruct (sbmv_entry_product order Uplo N K alpha A lda X incX beta Y incY
              Hrec HincY HXfits HYfits HXaddr HYaddr)
    as (Herr & Hlen & Hval & Hoff).
  cbv zeta. split; [exact Herr|]. split; [|split].
  - split; [exact Hlen|]. split; [|exact Hoff].
    intros q Hq. rewrite (Hval q Hq).
    apply Qplus_comp; [reflexivity|].
    apply Qmult_comp; [reflexivity|].
    apply sum_from_ext. intros j Hj.
    apply Qmult_comp; [|reflexivity].
    apply (represents_entry order Uplo N K lda A S); (assumption || lia).
  - intros i j Hin. unfold band_cell.
    apply (cell_in_array order N K lda); try assumption.
    + apply (band_row_bound Uplo N K i j Hin).
    + destruct Hin as (_ & Hj & _). exact Hj.
  - intros i j i' j' Hin Hin' E. unfold band_cell in E.
    destruct (cell_injective order N K lda (List.length A) _ _ _ _ Hdim
                (band_row_bound _ _ _ _ _ Hin)
                (proj1 (proj2 Hin))
                (band_row_bound _ _ _ _ _ Hin')
                (proj1 (proj2 Hin')) E) as [Er Ec].
    subst j'. split; [|reflexivity].
    unfold in_triangle in Hin, Hin'. unfold band_row in Er.
    destruct (Uplo =? CblasUpper)%Z; lia.
Qed.

(** For any other value of [order] or [Uplo] the body has scaled [Y] by
    [beta] when it comes to the error, and it comes to the error only when
    [alpha] is not zero: with [alpha = 0] an unrecognized operation goes
    unnoticed. *)
Theorem sbmv_unrecognized_operation (order Uplo : Z) (N K : nat)
    (alpha : BASE) (A : list BASE) (lda : nat) (X : list BASE) (incX : Z)
    (beta : BASE) (Y : list BASE) (incY : Z) :
  recognized order Uplo = false ->
  incY <> 0%Z ->
  ((Z.of_nat N - 1) * Z.abs incY < Z.of_nat (List.length Y))%Z ->
  (Z.of_nat (List.length Y) <= 2 ^ SIZE_BITS)%Z ->
  let r := sbmv order Uplo N K alpha A lda X incX beta Y incY in
  snd r = (if Qeq_bool alpha 0 then [] else ["unrecognized operation"%string])
  /\ holds_product N 0 beta X Y incX incY (fun _ _ => 0) (fst r).
Proof.
  intros Hrec HincY HYfits HYaddr. unfold sbmv.
  destruct (Qeq_bool alpha 0 && Qeq_bool beta 1) eqn:Equick.
  { apply andb_prop in Equick. destruct Equick as [Ea Eb]. rewrite Ea.
    apply Qeq_bool_iff in Eb. cbn [fst snd].
    split; [reflexivity|]. split; [reflexivity|]. split; [|reflexivity].
    intros q Hq. rewrite Eb. ring. }
  destruct (scaling_spec N incY beta Y HincY HYfits HYaddr)
    as (Hlen1 & Hval1 & Hoff1).
  cbv zeta in *.
  match type of Hlen1 with
  | List.length ?y = _ => set (Y1 := y) in *
  end.
  assert (Hscaled : holds_product N 0 beta X Y incX incY (fun _ _ => 0) Y1).
  { split; [exact Hlen1|]. split; [|exact Hoff1].
    intros q Hq. rewrite (Hval1 q Hq). ring. }
  destruct (Qeq_bool alpha 0) eqn:Ea.
  { cbn [fst snd]. split; [reflexivity|exact Hscaled]. }
  unfold recognized in Hrec.
  destruct (order =? CblasRowMajor)%Z eqn:Er,
           (order =? CblasColMajor)%Z eqn:Ec,
           (Uplo =? CblasUpper)%Z eqn:Eu,
           (Uplo =? CblasLower)%Z eqn:El;
    cbn [andb orb] in Hrec; try discriminate Hrec;
    cbn [andb orb fst snd]; (split; [reflexivity|exact Hscaled]).
Qed.

(** ** The theorems on a band matrix of order 3 *)

Lemma band_3_represents :
  represents CblasColMajor CblasUpper 3 1 2 band_3 matrix_3.
Proof.
  split; [|split].
  - intros i j (Hi & Hj & Hij). cbn in Hij.
    destruct i as [|[|[|i]]], j as [|[|[|j]]]; try lia; reflexivity.
  - intros i j Hi Hj.
    destruct i as [|[|[|i]]], j as [|[|[|j]]]; try lia; reflexivity.
  - intros i j Hi Hj Hout.
    destruct i as [|[|[|i]]], j as [|[|[|j]]]; cbn in Hout; try lia;
      reflexivity.
Qed.

Lemma sbmv_symmetric_band_product_witness :
  let r := sbmv CblasColMajor CblasUpper 3 1 3 band_3 2
             [1; 0; 2] (-1) 2 [1; 9; 1; 9; 1] 2 in
  snd r = []
  /\ holds_product 3 3 2 [1; 0; 2] [1; 9; 1; 9; 1] (-1) 2 matrix_3 (fst r)
  /\ (forall i j, in_triangle CblasUpper 3 1 i j ->
        (band_cell CblasColMajor CblasUpper 1 2 i j < 6)%nat)
  /\ (forall i j i' j',
        in_triangle CblasUpper 3 1 i j -> in_triangle CblasUpper 3 1 i' j' ->
        band_cell CblasColMajor CblasUpper 1 2 i j
        = band_cell CblasColMajor CblasUpper 1 2 i' j' ->
        i = i' /\ j = j').
Proof.
  apply (sbmv_symmetric_band_product CblasColMajor CblasUpper 3 1 3 band_3 2
           [1; 0; 2] (-1) 2 [1; 9; 1; 9; 1] 2 matrix_3).
  - reflexivity.
  - discriminate.
  - cbn. lia.
  - cbn. lia.
  - cbn. lia.
  - cbn. lia.
  - cbn. lia.
  - exact band_3_represents.
Defined.

(** The same band array stored by rows, with [lda = 3], is what the
    [CblasRowMajor] branch reads: the two calls leave the same [Y]. *)
Example sbmv_band_array_by_rows :
  sbmv CblasRowMajor CblasUpper 3 1 3 band_3_by_rows 3
    [1; 0; 2] (-1) 2 [1; 9; 1; 9; 1] 2
  = sbmv CblasColMajor CblasUpper 3 1 3 band_3 2
      [1; 0; 2] (-1) 2 [1; 9; 1; 9; 1] 2.
Proof. vm_compute. reflexivity. Qed.

Lemma sbmv_unrecognized_operation_witness :
  let r := sbmv 7 CblasUpper 3 1 3 band_3 2
             [1; 0; 2] (-1) 2 [1; 9; 1; 9; 1] 2 in
  snd r = ["unrecognized operation"%string]
  /\ holds_product 3 0 2 [1; 0; 2] [1; 9; 1; 9; 1] (-1) 2 (fun _ _ => 0)
       (fst r).
Proof.
  apply (sbmv_unrecognized_operation 7 CblasUpper 3 1 3 band_3 2
           [1; 0; 2] (-1) 2 [1; 9; 1; 9; 1] 2).
  - reflexivity.
  - discriminate.
  - cbn. lia.
  - cbn. lia.
Defined.

End Sbmv.

(** * The test problem of multilarge_nlinear/test_powell3.c

    Powell's badly scaled function with its analytic derivatives, a C
    [double] being a real number.  The vectors of the problem have the two
    entries that [powell3_N] and [powell3_P] declare and are pairs. *)

Module Powell3.

Import Reals Lra.

Local Open Scope R_scope.

Definition vec : Type := R * R.

(** A 2-by-2 matrix by rows. *)
Definition mat : Type := (R * R) * (R * R).

Definition powell3_N : nat := 2.
Definition powell3_P : nat := 2.

Definition powell3_x0 : vec := (0.0, 1.0).

Inductive CBLAS_TRANSPOSE_t := CblasNoTrans | CblasTrans | CblasConjTrans.

Definition GSL_SUCCESS : Z := 0%Z.

(** Modelled from the spec: [gsl_blas_dgemv (TransJ, alpha, J, u, beta, v)],
    [v := alpha * op(J) * u + beta * v]. *)
Definition gsl_blas_dgemv (TransJ : CBLAS_TRANSPOSE_t) (alpha : R) (J : mat)
    (u : vec) (beta : R) (v : vec) : vec :=
  let '((J00, J01), (J10, J11)) := J in
  match TransJ with
  | CblasNoTrans =>
      (alpha * (J00 * fst u + J01 * snd u) + beta * fst v,
       alpha * (J10 * fst u + J11 * snd u) + beta * snd v)
  | _ =>
      (alpha * (J00 * fst u + J10 * snd u) + beta * fst v,
       alpha * (J01 * fst u + J11 * snd u) + beta * snd v)
  end.

(** Modelled from the spec: [gsl_blas_dsyrk (CblasLower, CblasTrans, alpha,
    J, beta, JTJ)], the lower triangle of [alpha * J^T J + beta * JTJ]; the
    entry above the diagonal is left as it was. *)
Definition gsl_blas_dsyrk_lower_trans (alpha : R) (J : mat) (beta : R)
    (JTJ : mat) : mat :=
  let '((J00, J01), (J10, J11)) := J in
  let '((C00, C01), (C10, C11)) := JTJ in
  ((alpha * (J00 * J00 + J10 * J10) + beta * C00, C01),
   (alpha * (J01 * J00 + J11 * J10) + beta * C10,
    alpha * (J01 * J01 + J11 * J11) + beta * C11)).

(** ** powell3_f *)

Definition powell3_f (x : vec) (f : vec) : Z * vec :=
  let x1 := fst x in
  let x2 := snd x in
  let f := (1.0e4 * x1 * x2 - 1.0, snd f) in
  let f := (fst f, exp (- x1) + exp (- x2) - 1.0001) in
  (GSL_SUCCESS, f).

(** ** powell3_df

    [v] and [JTJ] are [None] for a null pointer; the result carries the
    static matrix [powell3_J] and what is behind the two pointers. *)

Definition powell3_df (TransJ : CBLAS_TRANSPOSE_t) (x u : vec)
    (v : option vec) (JTJ : option mat) : Z * mat * option vec * option mat :=
  let x1 := fst x in
  let x2 := snd x in
  let J : mat := ((1.0e4 * x2, 1.0e4 * x1), (- exp (- x1), - exp (- x2))) in
  let v :=
    match v with
    | Some v => Some (gsl_blas_dgemv TransJ 1.0 J u 0.0 v)
    | None => None
    end in
  let JTJ :=
    match JTJ with
    | Some JTJ => Some (gsl_blas_dsyrk_lower_trans 1.0 J 0.0 JTJ)
    | None => None
    end in
  (GSL_SUCCESS, J, v, JTJ).

(** ** powell3_fvv *)

Definition powell3_fvv (x v : vec) (fvv : vec) : Z * vec :=
  let x1 := fst x in
  let x2 := snd x in
  let v1 := fst v in
  let v2 := snd v in
  let fvv := (2.0e4 * v1 * v2, snd fvv) in
  let fvv := (fst fvv, v1 * v1 * exp (- x1) + v2 * v2 * exp (- x2)) in
  (GSL_SUCCESS, fvv).

(** ** Vocabulary of the statements *)

(** The residual vector, the product [J u] and the second directional
    derivative as functions of the point. *)
Definition residual (x : vec) : vec := snd (powell3_f x (0, 0)).

Definition jacobian (x : vec) : mat :=
  snd (fst (fst (powell3_df CblasNoTrans x (0, 0) None None))).

Definition jacobian_times (TransJ : CBLAS_TRANSPOSE_t) (x u : vec) : vec :=
  match snd (fst (powell3_df TransJ x u (Some (0, 0)) None)) with
  | Some v => v
  | None => (0, 0)
  end.

Definition second_derivative (x v : vec) : vec :=
  snd (powell3_fvv x v (0, 0)).

(** The point [x + t*u]. *)
Definition along (x u : vec) (t : R) : vec :=
  (fst x + t * fst u, snd x + t * snd u).

(** * Theorems *)

Lemma derivable_pt_lim_ext (f g : R -> R) (x l : R) :
  (forall t, f t = g t) ->
  derivable_pt_lim f x l -> derivable_pt_lim g x l.
Proof.
  intros H Hf eps Heps. destruct (Hf eps Heps) as [delta Hd].
  exists delta. intros h Hh Hlt. rewrite <- !H. apply Hd; assumption.
Qed.

Lemma derivable_pt_lim_value (f : R -> R) (x l l' : R) :
  l = l' -> derivable_pt_lim f x l -> derivable_pt_lim f x l'.
Proof. intros <-. exact (fun H => H). Qed.

Lemma derivable_pt_lim_affine (c u x : R) :
  derivable_pt_lim (fun t => c + t * u) x u.
Proof.
  apply (derivable_pt_lim_value _ _ (0 + (1 * u + x * 0))); [ring|].
  apply (derivable_pt_lim_plus (fun _ => c) (fun t => t * u)).
  - apply derivable_pt_lim_const.
  - apply (derivable_pt_lim_mult (fun t => t) (fun _ => u)).
    + apply derivable_pt_lim_id.
    + apply derivable_pt_lim_const.
Qed.

(** [t |-> exp (- (c + t*u))]. *)
Lemma derivable_pt_lim_exp_affine (c u x : R) :
  derivable_pt_lim (fun t => exp (- (c + t * u))) x
    (- u * exp (- (c + x * u))).
Proof.
  apply (derivable_pt_lim_value _ _ (exp (- c + x * - u) * - u)).
  { replace (- c + x * - u) with (- (c + x * u)) by ring. ring. }
  apply (derivable_pt_lim_ext (comp exp (fun t => - c + t * - u))).
  { intro t. unfold comp. f_equal. ring. }
  apply (derivable_pt_lim_comp (fun t => - c + t * - u) exp).
  - apply derivable_pt_lim_affine.
  - apply derivable_pt_lim_exp.
Qed.

(** [t |-> (a + t*u) * (b + t*w)]. *)
Lemma derivable_pt_lim_affine_product (a u b w : R) :
  derivable_pt_lim (fun t => (a + t * u) * (b + t * w)) 0 (u * b + a * w).
Proof.
  apply (derivable_pt_lim_value _ _
           (u * (b + 0 * w) + (a + 0 * u) * w)); [ring|].
  apply (derivable_pt_lim_mult (fun t => a + t * u) (fun t => b + t * w));
    apply derivable_pt_lim_affine.
Qed.

(** ** The Jacobian *)

(** The vector [v = J u] that [powell3_df] stores for [CblasNoTrans] is the
    derivative of the residuals of [powell3_f] along [u]: entry [i] is the
    derivative at [t = 0] of [t |-> f_i (x + t*u)]. *)
Theorem powell3_df_directional_derivative (x u : vec) :
  let v := jacobian_times CblasNoTrans x u in
  derivable_pt_lim (fun t => fst (residual (along x u t))) 0 (fst v)
  /\ derivable_pt_lim (fun t => snd (residual (along x u t))) 0 (snd v).
Proof.
  destruct x as [x1 x2], u as [u1 u2].
  unfold jacobian_times, residual, along, powell3_df, powell3_f,
    gsl_blas_dgemv.
  cbn [fst snd]. split.
  - apply (derivable_pt_lim_value _ _
             (1.0e4 * (u1 * x2 + x1 * u2) - 0)); [lra|].
    apply (derivable_pt_lim_ext
             (fun t => 1.0e4 * ((x1 + t * u1) * (x2 + t * u2)) - 1.0)).
    { intro t. ring. }
    apply (derivable_pt_lim_minus
             (fun t => 1.0e4 * ((x1 + t * u1) * (x2 + t * u2)))
             (fun _ => 1.0)).
    + apply (derivable_pt_lim_scal
               (fun t => (x1 + t * u1) * (x2 + t * u2))).
      apply derivable_pt_lim_affine_product.
    + apply derivable_pt_lim_const.
  - apply (derivable_pt_lim_value _ _
             (- u1 * exp (- (x1 + 0 * u1)) + - u2 * exp (- (x2 + 0 * u2))
              - 0)).
    { replace (x1 + 0 * u1) with x1 by ring.
      replace (x2 + 0 * u2) with x2 by ring. lra. }
    apply (derivable_pt_lim_minus
             (fun t => exp (- (x1 + t * u1)) + exp (- (x2 + t * u2)))
             (fun _ => 1.0001)).
    + apply (derivable_pt_lim_plus
               (fun t => exp (- (x1 + t * u1)))
               (fun t => exp (- (x2 + t * u2))));
        apply derivable_pt_lim_exp_affine.
    + apply derivable_pt_lim_const.
Qed.

(** The vector [v = J^T u] that [powell3_df] stores for [CblasTrans] is the
    gradient of [x |-> u . f(x)]: its entries are the partial derivatives
    with respect to [x1] and [x2]. *)
Theorem powell3_df_transpose_gradient (x u : vec) :
  let v := jacobian_times CblasTrans x u in
  let phi := fun y : vec =>
    fst u * fst (residual y) + snd u * snd (residual y) in
  derivable_pt_lim (fun s => phi (s, snd x)) (fst x) (fst v)
  /\ derivable_pt_lim (fun s => phi (fst x, s)) (snd x) (snd v).
Proof.
  destruct x as [x1 x2], u as [u1 u2].
  unfold jacobian_times, residual, powell3_df, powell3_f, gsl_blas_dgemv.
  cbn [fst snd]. split.
  - apply (derivable_pt_lim_value _ _
             (u1 * (1.0e4 * x2) + u2 * (- 1 * exp (- (0 + x1 * 1))))).
    { replace (0 + x1 * 1) with x1 by ring. lra. }
    apply (derivable_pt_lim_ext
             (fun s => (u1 * (- 1.0) + s * (u1 * (1.0e4 * x2)))
                       + u2 * (exp (- (0 + s * 1))
                               + (exp (- x2) - 1.0001)))).
    { intro s. replace (0 + s * 1) with s by ring. lra. }
    apply (derivable_pt_lim_value _ _
             (u1 * (1.0e4 * x2)
              + u2 * (- 1 * exp (- (0 + x1 * 1)) + 0))); [ring|].
    apply (derivable_pt_lim_plus
             (fun s => u1 * (- 1.0) + s * (u1 * (1.0e4 * x2)))
             (fun s => u2 * (exp (- (0 + s * 1)) + (exp (- x2) - 1.0001)))).
    + apply derivable_pt_lim_affine.
    + apply (derivable_pt_lim_scal
               (fun s => exp (- (0 + s * 1)) + (exp (- x2) - 1.0001))).
      apply (derivable_pt_lim_plus (fun s => exp (- (0 + s * 1)))
               (fun _ => exp (- x2) - 1.0001)).
      * apply derivable_pt_lim_exp_affine.
      * apply derivable_pt_lim_const.
  - apply (derivable_pt_lim_value _ _
             (u1 * (1.0e4 * x1) + u2 * (- 1 * exp (- (0 + x2 * 1))))).
    { replace (0 + x2 * 1) with x2 by ring. lra. }
    apply (derivable_pt_lim_ext
             (fun s => (u1 * (- 1.0) + s * (u1 * (1.0e4 * x1)))
                       + u2 * (exp (- (0 + s * 1))
                               + (exp (- x1) - 1.0001)))).
    { intro s. replace (0 + s * 1) with s by ring. lra. }
    apply (derivable_pt_lim_value _ _
             (u1 * (1.0e4 * x1)
              + u2 * (- 1 * exp (- (0 + x2 * 1)) + 0))); [ring|].
    apply (derivable_pt_lim_plus
             (fun s => u1 * (- 1.0) + s * (u1 * (1.0e4 * x1)))
             (fun s => u2 * (exp (- (0 + s * 1)) + (exp (- x1) - 1.0001)))).
    + apply derivable_pt_lim_affine.
    + apply (derivable_pt_lim_scal
               (fun s => exp (- (0 + s * 1)) + (exp (- x1) - 1.0001))).
      apply (derivable_pt_lim_plus (fun s => exp (- (0 + s * 1)))
               (fun _ => exp (- x1) - 1.0001)).
      * apply derivable_pt_lim_exp_affine.
      * apply derivable_pt_lim_const.
Qed.

(** ** The second directional derivative *)

(** The vector that [powell3_fvv] stores is the second derivative of the
    residuals along [v]: entry [i] is the derivative at [t = 0] of entry [i]
    of [t |-> J(x + t*v) v], the product that [powell3_df] stores. *)
Theorem powell3_fvv_second_derivative (x v : vec) :
  let fvv := second_derivative x v in
  derivable_pt_lim
    (fun t => fst (jacobian_times CblasNoTrans (along x v t) v)) 0 (fst fvv)
  /\ derivable_pt_lim
       (fun t => snd (jacobian_times CblasNoTrans (along x v t) v)) 0
       (snd fvv).
Proof.
  destruct x as [x1 x2], v as [v1 v2].
  unfold second_derivative, jacobian_times, along, powell3_df, powell3_fvv,
    gsl_blas_dgemv.
  cbn [fst snd]. split.
  - apply (derivable_pt_lim_ext
             (fun t => (1.0e4 * x2 * v1 + 1.0e4 * x1 * v2)
                       + t * (2.0e4 * v1 * v2))).
    { intro t. lra. }
    apply derivable_pt_lim_affine.
  - apply (derivable_pt_lim_value _ _
             (- v1 * (- v1 * exp (- (x1 + 0 * v1)))
              + - v2 * (- v2 * exp (- (x2 + 0 * v2))))).
    { replace (x1 + 0 * v1) with x1 by ring.
      replace (x2 + 0 * v2) with x2 by ring. ring. }
    apply (derivable_pt_lim_ext
             (fun t => - v1 * exp (- (x1 + t * v1))
                       + - v2 * exp (- (x2 + t * v2)))).
    { intro t. lra. }
    apply (derivable_pt_lim_plus
             (fun t => - v1 * exp (- (x1 + t * v1)))
             (fun t => - v2 * exp (- (x2 + t * v2)))).
    + apply (derivable_pt_lim_scal (fun t => exp (- (x1 + t * v1)))).
      apply derivable_pt_lim_exp_affine.
    + apply (derivable_pt_lim_scal (fun t => exp (- (x2 + t * v2)))).
      apply derivable_pt_lim_exp_affine.
Qed.

End Powell3.

(** * The accessors of vector/gsl_vector_double.h

    [gsl_vector_ptr], [gsl_vector_get] and [gsl_vector_set] on a memory of
    doubles: a list of cells, an address being the index of a cell.  The
    fields [size] and [stride] and the index [i] are [size_t] values, and
    the product [i * v->stride] wraps around at 64 bits.  The field [parent],
    which the accessors do not read, is left out.  An access outside the
    memory, undefined in C, is the outcome [Fault]. *)

Module Vector.

Import Subspace2D.

Local Open Scope Z_scope.

Definition SIZE_BITS : Z := 64.

(** The value of an integer expression as a [size_t]. *)
Definition wrap (z : Z) : Z := z mod 2 ^ SIZE_BITS.

Record gsl_vector := {
  size : Z;
  stride : Z;
  data : Z     (* the address of data[0] *)
}.

Definition memory := list double.

Inductive outcome (A : Type) :=
| Value (a : A) (log : list event)
| Fault.
Arguments Value {A} a log.
Arguments Fault {A}.

Definition in_memory (h : memory) (a : Z) : bool :=
  (0 <=? a) && (a <? Z.of_nat (List.length h)).

Definition load (h : memory) (a : Z) : option double :=
  if in_memory h a then Some (nth (Z.to_nat a) h 0%Q) else None.

Fixpoint update (h : memory) (i : nat) (x : double) : memory :=
  match h, i with
  | [], _ => []
  | _ :: t, O => x :: t
  | c :: t, S i' => c :: update t i' x
  end.

Definition store (h : memory) (a : Z) (x : double) : option memory :=
  if in_memory h a then Some (update h (Z.to_nat a) x) else None.

(** ** The accessors

    [range_check] is false when the header is compiled with
    [GSL_RANGE_CHECK_OFF]. *)

(** The pointer is [None] for the null pointer that [GSL_ERROR_RETURN
    (..., 0)] returns. *)
Definition gsl_vector_ptr (range_check : bool) (v : gsl_vector) (i : Z)
  : option Z * list event :=
  if range_check && (i >=? size v)
  then (None, [GslError "index out of range" GSL_EINVAL])
  else (Some (data v + wrap (i * stride v)), []).

Definition gsl_vector_get (range_check : bool) (h : memory) (v : gsl_vector)
    (i : Z) : outcome double :=
  if range_check && (i >=? size v)
  then Value 0%Q [GslError "index out of range" GSL_EINVAL]
  else match load h (data v + wrap (i * stride v)) with
       | Some x => Value x []
       | None => Fault
       end.

Definition gsl_vector_set (range_check : bool) (h : memory) (v : gsl_vector)
    (i : Z) (x : double) : outcome memory :=
  if range_check && (i >=? size v)
  then Value h [GslError "index out of range" GSL_EINVAL]
  else match store h (data v + wrap (i * stride v)) x with
       | Some h' => Value h' []
       | None => Fault
       end.

(** ** Vocabulary of the statements *)

(** The vector [v] lies in the memory [h]: its cells [data + i*stride],
    [i < size], are cells of [h], one per index. *)
Definition lies_in (v : gsl_vector) (h : memory) : Prop :=
  0 <= size v /\ 1 <= stride v /\ 0 <= data v
  /\ data v + (size v - 1) * stride v < Z.of_nat (List.length h)
  /\ Z.of_nat (List.length h) <= 2 ^ SIZE_BITS.

(** The address of entry [i]. *)
Definition cell (v : gsl_vector) (i : Z) : Z := data v + i * stride v.

(** A memory of six cells, a 2-by-3 matrix by rows, with the vectors of its
    second row and of its second column. *)
Definition six_cells : memory := [1#1; 2#1; 3#1; 4#1; 5#1; 6#1]%Q.
Definition second_row : gsl_vector := {| size := 3; stride := 1; data := 3 |}.
Definition second_column : gsl_vector :=
  {| size := 2; stride := 3; data := 1 |}.

(** * Theorems *)

Lemma memory_length_update (h : memory) (i : nat) (x : double) :
  List.length (update h i x) = List.length h.
Proof.
  revert i. induction h as [|c t IH]; intros [|i]; cbn; try reflexivity.
  rewrite IH. reflexivity.
Qed.

Lemma memory_nth_update (h : memory) (i j : nat) (x : double) :
  (i < List.length h)%nat ->
  nth j (update h i x) 0%Q = if (i =? j)%nat then x else nth j h 0%Q.
Proof.
  revert i j. induction h as [|c t IH]; intros [|i] [|j] H; cbn in *;
    try reflexivity; try lia.
  apply IH. lia.
Qed.

Lemma load_store (h h' : memory) (a b : Z) (x : double) :
  store h a x = Some h' ->
  List.length h' = List.length h
  /\ load h' b = if a =? b then Some x else load h b.
Proof.
  unfold store, load, in_memory. intro H.
  destruct ((0 <=? a) && (a <? Z.of_nat (List.length h))) eqn:Ea;
    [|discriminate].
  injection H as <-. rewrite memory_length_update. split; [reflexivity|].
  apply andb_prop in Ea. destruct Ea as [Ea0 Ea1].
  apply Z.leb_le in Ea0. apply Z.ltb_lt in Ea1.
  destruct (a =? b) eqn:Eab.
  - apply Z.eqb_eq in Eab. subst b.
    replace ((0 <=? a) && (a <? Z.of_nat (List.length h))) with true.
    2:{ symmetry. apply andb_true_intro. split;
          [apply Z.leb_le|apply Z.ltb_lt]; lia. }
    rewrite memory_nth_update by lia. rewrite Nat.eqb_refl. reflexivity.
  - apply Z.eqb_neq in Eab.
    destruct ((0 <=? b) && (b <? Z.of_nat (List.length h))) eqn:Eb;
      [|reflexivity].
    apply andb_prop in Eb. destruct Eb as [Eb0 Eb1].
    apply Z.leb_le in Eb0. apply Z.ltb_lt in Eb1.
    rewrite memory_nth_update by lia.
    replace (Z.to_nat a =? Z.to_nat b)%nat with false; [reflexivity|].
    symmetry. apply Nat.eqb_neq. lia.
Qed.

(** In a vector that lies in the memory, the index of an entry does not
    wrap and its cell is a cell of the memory. *)
Lemma cell_in_memory (v : gsl_vector) (h : memory) (i : Z) :
  lies_in v h -> 0 <= i < size v ->
  wrap (i * stride v) = i * stride v
  /\ in_memory h (cell v i) = true.
Proof.
  intros (Hsz & Hst & Hd & Hlast & Hmem) Hi.
  assert (Hle : i * stride v <= (size v - 1) * stride v) by nia.
  assert (0 <= i * stride v) by nia.
  split.
  - apply Z.mod_small. lia.
  - unfold in_memory, cell. apply andb_true_intro.
    split; [apply Z.leb_le|apply Z.ltb_lt]; lia.
Qed.

Lemma in_range (range_check : bool) (v : gsl_vector) (i : Z) :
  i < size v -> range_check && (i >=? size v) = false.
Proof.
  intro H. replace (i >=? size v) with false; [apply andb_false_r|].
  symmetry. rewrite Z.geb_leb. apply Z.leb_gt. exact H.
Qed.

Lemma get_in_range (range_check : bool) (h : memory) (v : gsl_vector)
    (i : Z) :
  lies_in v h -> 0 <= i < size v ->
  gsl_vector_get range_check h v i
  = match load h (cell v i) with Some x => Value x [] | None => Fault end
  /\ exists x, load h (cell v i) = Some x.
Proof.
  intros Hv Hi. destruct (cell_in_memory v h i Hv Hi) as [Hw Hin].
  unfold gsl_vector_get. rewrite in_range by lia. rewrite Hw.
  split; [reflexivity|]. unfold load. rewrite Hin. eauto.
Qed.

Lemma set_in_range (range_check : bool) (h : memory) (v : gsl_vector)
    (i : Z) (x : double) :
  lies_in v h -> 0 <= i < size v ->
  exists h', store h (cell v i) x = Some h'
             /\ gsl_vector_set range_check h v i x = Value h' [].
Proof.
  intros Hv Hi. destruct (cell_in_memory v h i Hv Hi) as [Hw Hin].
  unfold gsl_vector_set. rewrite in_range by lia. rewrite Hw.
  fold (cell v i). unfold store. rewrite Hin. eauto.
Qed.

Lemma lies_in_length (v : gsl_vector) (h h' : memory) :
  List.length h' = List.length h -> lies_in v h -> lies_in v h'.
Proof. unfold lies_in. intros ->. exact (fun H => H). Qed.

(** ** Reading what was written *)

(** In a vector that lies in the memory, an entry that was set is the entry
    that is read at the same index, the other entries read as before, and
    no cell of the memory but the one of the entry has changed. *)
Theorem vector_set_get (range_check : bool) (h : memory) (v : gsl_vector)
    (i j : Z) (x : double) :
  lies_in v h -> 0 <= i < size v -> 0 <= j < size v ->
  exists h' y,
    gsl_vector_set range_check h v i x = Value h' []
    /\ gsl_vector_get range_check h v j = Value y []
    /\ gsl_vector_get range_check h' v j
       = Value (if i =? j then x else y) []
    /\ lies_in v h'
    /\ (forall a, a <> cell v i -> load h' a = load h a).
Proof.
  intros Hv Hi Hj.
  destruct (set_in_range range_check h v i x Hv Hi) as (h' & Hst & Hset).
  destruct (get_in_range range_check h v j Hv Hj) as (Hget & y & Hy).
  assert (Hv' : lies_in v h').
  { apply (lies_in_length v h); [|exact Hv].
    apply (load_store h h' (cell v i) 0 x Hst). }
  destruct (get_in_range range_check h' v j Hv' Hj) as (Hget' & _).
  exists h', y. split; [exact Hset|]. rewrite Hget, Hget', Hy.
  split; [reflexivity|].
  destruct (load_store h h' (cell v i) (cell v j) x Hst) as [_ ->].
  split; [|split; [exact Hv'|]].
  - destruct (Z.eqb_spec i j) as [->|Hne].
    + rewrite Z.eqb_refl. reflexivity.
    + replace (cell v i =? cell v j) with false.
      * rewrite Hy. reflexivity.
      * symmetry. apply Z.eqb_neq. unfold cell.
        destruct Hv as (_ & Hstride & _). nia.
  - intros a Ha.
    destruct (load_store h h' (cell v i) a x Hst) as [_ ->].
    replace (cell v i =? a) with false; [reflexivity|].
    symmetry. apply Z.eqb_neq. congruence.
Qed.

(** Two vectors on one memory: an entry set through one is read through
    the other exactly where the two cells are the same. *)
Theorem vector_set_seen_through_views (range_check : bool) (h : memory)
    (v w : gsl_vector) (i j : Z) (x : double) :
  lies_in v h -> lies_in w h -> 0 <= i < size v -> 0 <= j < size w ->
  exists h' y,
    gsl_vector_set range_check h v i x = Value h' []
    /\ gsl_vector_get range_check h w j = Value y []
    /\ gsl_vector_get range_check h' w j
       = Value (if cell v i =? cell w j then x else y) [].
Proof.
  intros Hv Hw Hi Hj.
  destruct (set_in_range range_check h v i x Hv Hi) as (h' & Hst & Hset).
  destruct (get_in_range range_check h w j Hw Hj) as (Hget & y & Hy).
  assert (Hw' : lies_in w h').
  { apply (lies_in_length w h); [|exact Hw].
    apply (load_store h h' (cell v i) 0 x Hst). }
  destruct (get_in_range range_check h' w j Hw' Hj) as (Hget' & _).
  exists h', y. split; [exact Hset|]. rewrite Hget, Hget', Hy.
  split; [reflexivity|].
  destruct (load_store h h' (cell v i) (cell w j) x Hst) as [_ ->].
  destruct (cell v i =? cell w j); [reflexivity|].
  rewrite Hy. reflexivity.
Qed.

(** ** Range checking *)

(** With range checking, no index makes an access to a vector that lies in
    the memory leave the memory: an index out of range calls the error
    handler, reads 0, yields the null pointer and writes nothing. *)
Theorem vector_checked_access_safe (h : memory) (v : gsl_vector) (i : Z)
    (x : double) :
  lies_in v h -> 0 <= i ->
  (exists y log, gsl_vector_get true h v i = Value y log)
  /\ (exists h' log, gsl_vector_set true h v i x = Value h' log
                     /\ List.length h' = List.length h)
  /\ (size v <= i ->
      gsl_vector_get true h v i
      = Value 0%Q [GslError "index out of range" GSL_EINVAL]
      /\ gsl_vector_set true h v i x
         = Value h [GslError "index out of range" GSL_EINVAL]
      /\ gsl_vector_ptr true v i
         = (None, [GslError "index out of range" GSL_EINVAL])).
Proof.
  intros Hv Hi.
  assert (Hout : size v <= i ->
                 gsl_vector_get true h v i
                 = Value 0%Q [GslError "index out of range" GSL_EINVAL]
                 /\ gsl_vector_set true h v i x
                    = Value h [GslError "index out of range" GSL_EINVAL]
                 /\ gsl_vector_ptr true v i
                    = (None, [GslError "index out of range" GSL_EINVAL])).
  { intro Hge. unfold gsl_vector_get, gsl_vector_set, gsl_vector_ptr.
    replace (i >=? size v) with true
      by (symmetry; rewrite Z.geb_leb; apply Z.leb_le; exact Hge).
    cbn [andb]. repeat split. }
  destruct (Z.lt_ge_cases i (size v)) as [Hlt|Hge].
  - destruct (set_in_range true h v i x Hv (conj Hi Hlt))
      as (h' & Hst & Hset).
    destruct (get_in_range true h v i Hv (conj Hi Hlt)) as (Hget & y & Hy).
    split; [|split; [|exact Hout]].
    + exists y, []. rewrite Hget, Hy. reflexivity.
    + exists h', []. split; [exact Hset|].
      apply (load_store h h' (cell v i) 0 x Hst).
  - destruct (Hout Hge) as (Hg & Hs & _).
    split; [|split; [|exact Hout]].
    + eauto.
    + exists h, [GslError "index out of range" GSL_EINVAL].
      split; [exact Hs|reflexivity].
Qed.

(** ** The vectors of the 2D-subspace method *)

(** A list of doubles as a vector: the whole memory with stride 1.  The
    [gsl_vector_get] of the 2D-subspace model is the checked
    [gsl_vector_get] on it, the events going to the trace. *)
Theorem vector_get_list_model (h : memory) (i : nat) (m : mem) :
  Z.of_nat (List.length h) <= 2 ^ SIZE_BITS ->
  let v := {| size := Z.of_nat (List.length h); stride := 1; data := 0 |} in
  exists y log m',
    gsl_vector_get true h v (Z.of_nat i) = Value y log
    /\ Subspace2D.gsl_vector_get h i m = Ok (y, m')
    /\ m_state m' = m_state m /\ m_dx m' = m_dx m
    /\ m_log m' = (m_log m ++ log)%list.
Proof.
  intros Hmem v.
  unfold gsl_vector_get, Subspace2D.gsl_vector_get, GSL_ERROR_RETURN.
  cbn [size stride data v].
  destruct (List.length h <=? i)%nat eqn:E.
  - apply Nat.leb_le in E.
    replace (Z.of_nat i >=? Z.of_nat (List.length h)) with true
      by (symmetry; rewrite Z.geb_leb; apply Z.leb_le; lia).
    cbn [andb]. do 3 eexists. split; [reflexivity|].
    split; [reflexivity|]. cbn. repeat split.
  - apply Nat.leb_gt in E.
    replace (Z.of_nat i >=? Z.of_nat (List.length h)) with false
      by (symmetry; rewrite Z.geb_leb; apply Z.leb_gt; lia).
    cbn [andb]. rewrite Z.mul_1_r. unfold wrap.
    rewrite Z.mod_small by lia. cbn [Z.add].
    unfold load, in_memory.
    replace ((0 <=? Z.of_nat i) && (Z.of_nat i <? Z.of_nat (List.length h)))
      with true.
    2:{ symmetry. apply andb_true_intro. split;
          [apply Z.leb_le|apply Z.ltb_lt]; lia. }
    rewrite Nat2Z.id. do 3 eexists. split; [reflexivity|].
    split; [reflexivity|]. cbn. rewrite app_nil_r. repeat split.
Qed.

(** ** The theorems on six cells *)

Lemma second_row_lies_in : lies_in second_row six_cells.
Proof. unfold lies_in. cbn. lia. Defined.

Lemma second_column_lies_in : lies_in second_column six_cells.
Proof. unfold lies_in. cbn. lia. Defined.

Lemma vector_set_get_witness :
  exists h' y,
    gsl_vector_set true six_cells second_column 1 (9#1)%Q = Value h' []
    /\ gsl_vector_get true six_cells second_column 1 = Value y []
    /\ gsl_vector_get true h' second_column 1
       = Value (if 1 =? 1 then (9#1)%Q else y) []
    /\ lies_in second_column h'
    /\ (forall a, a <> cell second_column 1 ->
          load h' a = load six_cells a).
Proof.
  apply (vector_set_get true six_cells second_column 1 1 (9#1)%Q).
  - exact second_column_lies_in.
  - cbn. lia.
  - cbn. lia.
Defined.

(** Entry 1 of the second column is entry 1 of the second row. *)
Lemma vector_set_seen_through_views_witness :
  exists h' y,
    gsl_vector_set true six_cells second_column 1 (9#1)%Q = Value h' []
    /\ gsl_vector_get true six_cells second_row 1 = Value y []
    /\ gsl_vector_get true h' second_row 1
       = Value (if cell second_column 1 =? cell second_row 1
                then (9#1)%Q else y) [].
Proof.
  apply (vector_set_seen_through_views true six_cells second_column
           second_row 1 1 (9#1)%Q).
  - exact second_column_lies_in.
  - exact second_row_lies_in.
  - cbn. lia.
  - cbn. lia.
Defined.

Lemma vector_checked_access_safe_witness :
  (exists y log, gsl_vector_get true six_cells second_row 3 = Value y log)
  /\ (exists h' log,
        gsl_vector_set true six_cells second_row 3 (9#1)%Q = Value h' log
        /\ List.length h' = List.length six_cells)
  /\ (size second_row <= 3 ->
      gsl_vector_get true six_cells second_row 3
      = Value 0%Q [GslError "index out of range" GSL_EINVAL]
      /\ gsl_vector_set true six_cells second_row 3 (9#1)%Q
         = Value six_cells [GslError "index out of range" GSL_EINVAL]
      /\ gsl_vector_ptr true second_row 3
         = (None, [GslError "index out of range" GSL_EINVAL])).
Proof.
  apply (vector_checked_access_safe six_cells second_row 3 (9#1)%Q).
  - exact second_row_lies_in.
  - lia.
Defined.

Lemma vector_get_list_model_witness :
  exists y log m',
    gsl_vector_get true six_cells
      {| size := Z.of_nat (List.length six_cells); stride := 1; data := 0 |}
      (Z.of_nat 2)
    = Value y log
    /\ Subspace2D.gsl_vector_get six_cells 2 blank_mem = Ok (y, m')
    /\ m_state m' = m_state blank_mem /\ m_dx m' = m_dx blank_mem
    /\ m_log m' = (m_log blank_mem ++ log)%list.
Proof.
  apply (vector_get_list_model six_cells 2 blank_mem). cbn. lia.
Defined.

End Vector.

(** * The workspace of multifit_nlinear/subspace2D.c

    [subspace2D_alloc] and [subspace2D_free] on a heap of blocks.  A block is
    a natural number; the allocators of the library ([calloc],
    [gsl_vector_alloc], [gsl_matrix_alloc], [gsl_permutation_alloc],
    [gsl_poly_complex_workspace_alloc]) hand out one fresh block each, or the
    null pointer once the heap has run out; what they store in a block is
    left out.  The state structure is a record of the pointers it holds. *)

Module Subspace2DAlloc.

Local Open Scope nat_scope.

(** [None] is the null pointer. *)
Definition pointer := option nat.

Record heap := {
  live : list nat;     (* the blocks allocated and not freed *)
  next : nat;          (* the next block *)
  budget : nat         (* the allocations that will still succeed *)
}.

Definition GSL_ENOMEM : Z := 8%Z.

(** Modelled from the spec: an allocation, a fresh block or the null
    pointer. *)
Definition allocate (h : heap) : pointer * heap :=
  match budget h with
  | O => (None, h)
  | S b => (Some (next h),
            {| live := next h :: live h; next := S (next h); budget := b |})
  end.

(** Modelled from the spec: [free] and the [_free] functions of the
    library release the block. *)
Definition release (q : nat) (h : heap) : heap :=
  {| live := remove Nat.eq_dec q (live h); next := next h;
     budget := budget h |}.

Definition calloc (nmemb : nat) (h : heap) := allocate h.
Definition gsl_vector_alloc (n : nat) (h : heap) := allocate h.
Definition gsl_matrix_alloc (n1 n2 : nat) (h : heap) := allocate h.
Definition gsl_permutation_alloc (n : nat) (h : heap) := allocate h.
Definition gsl_poly_complex_workspace_alloc (n : nat) (h : heap) :=
  allocate h.

Definition gsl_vector_free := release.
Definition gsl_matrix_free := release.
Definition gsl_permutation_free := release.
Definition gsl_poly_complex_workspace_free := release.
Definition free := release.

(** The pointers and sizes of [subspace2D_state_t]; the doubles, which
    [subspace2D_alloc] leaves zero, and [params] are left out. *)
Record subspace2D_state_t := {
  n : nat;
  p : nat;
  dx_gn : pointer;
  dx_sd : pointer;
  workp : pointer;
  workn : pointer;
  W : pointer;
  J : pointer;
  tau : pointer;
  subg : pointer;
  subB : pointer;
  perm : pointer;
  rank : nat;
  poly_p : pointer
}.

(** What [calloc] hands out: every field is zero. *)
Definition zeroed : subspace2D_state_t :=
  {| n := 0; p := 0; dx_gn := None; dx_sd := None; workp := None;
     workn := None; W := None; J := None; tau := None; subg := None;
     subB := None; perm := None; rank := 0; poly_p := None |}.

(** [state->f = v]. *)
Definition set_n (s : subspace2D_state_t) (v : nat) : subspace2D_state_t :=
  {| n := v; p := p s; dx_gn := dx_gn s; dx_sd := dx_sd s; workp := workp s;
     workn := workn s; W := W s; J := J s; tau := tau s; subg := subg s;
     subB := subB s; perm := perm s; rank := rank s; poly_p := poly_p s |}.

Definition set_p (s : subspace2D_state_t) (v : nat) : subspace2D_state_t :=
  {| n := n s; p := v; dx_gn := dx_gn s; dx_sd := dx_sd s; workp := workp s;
     workn := workn s; W := W s; J := J s; tau := tau s; subg := subg s;
     subB := subB s; perm := perm s; rank := rank s; poly_p := poly_p s |}.

Definition set_dx_gn (s : subspace2D_state_t) (v : pointer) : subspace2D_state_t :=
  {| n := n s; p := p s; dx_gn := v; dx_sd := dx_sd s; workp := workp s;
     workn := workn s; W := W s; J := J s; tau := tau s; subg := subg s;
     subB := subB s; perm := perm s; rank := rank s; poly_p := poly_p s |}.

Definition set_dx_sd (s : subspace2D_state_t) (v : pointer) : subspace2D_state_t :=
  {| n := n s; p := p s; dx_gn := dx_gn s; dx_sd := v; workp := workp s;
     workn := workn s; W := W s; J := J s; tau := tau s; subg := subg s;
     subB := subB s; perm := perm s; rank := rank s; poly_p := poly_p s |}.

Definition set_workp (s : subspace2D_state_t) (v : pointer) : subspace2D_state_t :=
  {| n := n s; p := p s; dx_gn := dx_gn s; dx_sd := dx_sd s; workp := v;
     workn := workn s; W := W s; J := J s; tau := tau s; subg := subg s;
     subB := subB s; perm := perm s; rank := rank s; poly_p := poly_p s |}.

Definition set_workn (s : subspace2D_state_t) (v : pointer) : subspace2D_state_t :=
  {| n := n s; p := p s; dx_gn := dx_gn s; dx_sd := dx_sd s; workp := workp
     s; workn := v; W := W s; J := J s; tau := tau s; subg := subg s; subB
     := subB s; perm := perm s; rank := rank s; poly_p := poly_p s |}.

Definition set_W (s : subspace2D_state_t) (v : pointer) : subspace2D_state_t :=
  {| n := n s; p := p s; dx_gn := dx_gn s; dx_sd := dx_sd s; workp := workp
     s; workn := workn s; W := v; J := J s; tau := tau s; subg := subg s;
     subB := subB s; perm := perm s; rank := rank s; poly_p := poly_p s |}.

Definition set_J (s : subspace2D_state_t) (v : pointer) : subspace2D_state_t :=
  {| n := n s; p := p s; dx_gn := dx_gn s; dx_sd := dx_sd s; workp := workp
     s; workn := workn s; W := W s; J := v; tau := tau s; subg := subg s;
     subB := subB s; perm := perm s; rank := rank s; poly_p := poly_p s |}.

Definition set_tau (s : subspace2D_state_t) (v : pointer) : subspace2D_state_t :=
  {| n := n s; p := p s; dx_gn := dx_gn s; dx_sd := dx_sd s; workp := workp
     s; workn := workn s; W := W s; J := J s; tau := v; subg := subg s;
     subB := subB s; perm := perm s; rank := rank s; poly_p := poly_p s |}.

Definition set_subg (s : subspace2D_state_t) (v : pointer) : subspace2D_state_t :=
  {| n := n s; p := p s; dx_gn := dx_gn s; dx_sd := dx_sd s; workp := workp
     s; workn := workn s; W := W s; J := J s; tau := tau s; subg := v;
     subB := subB s; perm := perm s; rank := rank s; poly_p := poly_p s |}.

Definition set_subB (s : subspace2D_state_t) (v : pointer) : subspace2D_state_t :=
  {| n := n s; p := p s; dx_gn := dx_gn s; dx_sd := dx_sd s; workp := workp
     s; workn := workn s; W := W s; J := J s; tau := tau s; subg := subg
     s; subB := v; perm := perm s; rank := rank s; poly_p := poly_p s |}.

Definition set_perm (s : subspace2D_state_t) (v : pointer) : subspace2D_state_t :=
  {| n := n s; p := p s; dx_gn := dx_gn s; dx_sd := dx_sd s; workp := workp
     s; workn := workn s; W := W s; J := J s; tau := tau s; subg := subg
     s; subB := subB s; perm := v; rank := rank s; poly_p := poly_p s |}.

Definition set_rank (s : subspace2D_state_t) (v : nat) : subspace2D_state_t :=
  {| n := n s; p := p s; dx_gn := dx_gn s; dx_sd := dx_sd s; workp := workp
     s; workn := workn s; W := W s; J := J s; tau := tau s; subg := subg
     s; subB := subB s; perm := perm s; rank := v; poly_p := poly_p s |}.

Definition set_poly_p (s : subspace2D_state_t) (v : pointer) : subspace2D_state_t :=
  {| n := n s; p := p s; dx_gn := dx_gn s; dx_sd := dx_sd s; workp := workp
     s; workn := workn s; W := W s; J := J s; tau := tau s; subg := subg
     s; subB := subB s; perm := perm s; rank := rank s; poly_p := v |}.

(** The result of [subspace2D_alloc]: the block of the state and the state,
    or the null pointer; the heap; the calls of the error handler. *)
Definition allocation : Type :=
  option (nat * subspace2D_state_t) * heap * list Subspace2D.event.

(** Modelled from the spec: [GSL_ERROR_NULL (reason, gsl_errno)] calls the
    error handler and returns the null pointer. *)
Definition GSL_ERROR_NULL (reason : string) (gsl_errno : Z) (h : heap)
  : allocation :=
  (None, h, [Subspace2D.GslError reason gsl_errno]).

(** [x = alloc (...); if (x == NULL) GSL_ERROR_NULL (reason, GSL_ENOMEM);]
    followed by [k]. *)
Definition or_fail (r : pointer * heap) (reason : string)
    (k : nat -> heap -> allocation) : allocation :=
  match r with
  | (None, h) => GSL_ERROR_NULL reason GSL_ENOMEM h
  | (Some q, h) => k q h
  end.

Definition subspace2D_alloc (n p : nat) (h : heap) : allocation :=
  or_fail (calloc 1 h) "failed to allocate subspace2D state"
    (fun vstate h =>
  let state := zeroed in
  or_fail (gsl_vector_alloc p h) "failed to allocate space for dx_gn"
    (fun q h =>
  let state := set_dx_gn state (Some q) in
  or_fail (gsl_vector_alloc p h) "failed to allocate space for dx_sd"
    (fun q h =>
  let state := set_dx_sd state (Some q) in
  or_fail (gsl_vector_alloc p h) "failed to allocate space for workp"
    (fun q h =>
  let state := set_workp state (Some q) in
  or_fail (gsl_vector_alloc n h) "failed to allocate space for workn"
    (fun q h =>
  let state := set_workn state (Some q) in
  or_fail (gsl_matrix_alloc p 2 h) "failed to allocate space for W"
    (fun q h =>
  let state := set_W state (Some q) in
  or_fail (gsl_matrix_alloc n p h) "failed to allocate space for J"
    (fun q h =>
  let state := set_J state (Some q) in
  or_fail (gsl_vector_alloc 2 h) "failed to allocate space for tau"
    (fun q h =>
  let state := set_tau state (Some q) in
  or_fail (gsl_vector_alloc 2 h) "failed to allocate space for subg"
    (fun q h =>
  let state := set_subg state (Some q) in
  or_fail (gsl_matrix_alloc 2 2 h) "failed to allocate space for subB"
    (fun q h =>
  let state := set_subB state (Some q) in
  or_fail (gsl_permutation_alloc 2 h) "failed to allocate space for perm"
    (fun q h =>
  let state := set_perm state (Some q) in
  or_fail (gsl_poly_complex_workspace_alloc 5 h) "failed to allocate space for poly workspace"
    (fun q h =>
  let state := set_poly_p state (Some q) in
  let state := set_n state n in
  let state := set_p state p in
  let state := set_rank state 0 in
  (Some (vstate, state), h, []))))))))))))).

(** [if (ptr) f (ptr);] *)
Definition if_set (f : nat -> heap -> heap) (ptr : pointer) (h : heap)
  : heap :=
  match ptr with
  | Some q => f q h
  | None => h
  end.

Definition subspace2D_free (vstate : nat) (state : subspace2D_state_t)
    (h : heap) : heap :=
  let h := if_set gsl_vector_free (dx_gn state) h in
  let h := if_set gsl_vector_free (dx_sd state) h in
  let h := if_set gsl_vector_free (workp state) h in
  let h := if_set gsl_vector_free (workn state) h in
  let h := if_set gsl_matrix_free (W state) h in
  let h := if_set gsl_matrix_free (J state) h in
  let h := if_set gsl_vector_free (tau state) h in
  let h := if_set gsl_vector_free (subg state) h in
  let h := if_set gsl_matrix_free (subB state) h in
  let h := if_set gsl_permutation_free (perm state) h in
  let h := if_set gsl_poly_complex_workspace_free (poly_p state) h in
  free vstate h.

(** ** Vocabulary of the statements *)

(** The messages of the twelve allocations, in their order. *)
Definition reasons : list string :=
  [ "failed to allocate subspace2D state";
    "failed to allocate space for dx_gn";
    "failed to allocate space for dx_sd";
    "failed to allocate space for workp";
    "failed to allocate space for workn";
    "failed to allocate space for W";
    "failed to allocate space for J";
    "failed to allocate space for tau";
    "failed to allocate space for subg";
    "failed to allocate space for subB";
    "failed to allocate space for perm";
    "failed to allocate space for poly workspace" ]%string.

(** Every live block is older than the next one. *)
Definition well_formed (h : heap) : Prop :=
  forall q, In q (live h) -> q < next h.

(** The pointers a state holds. *)
Definition pointers (state : subspace2D_state_t) : list pointer :=
  [dx_gn state; dx_sd state; workp state; workn state; W state; J state;
   tau state; subg state; subB state; perm state; poly_p state].

Definition empty_heap (b : nat) : heap :=
  {| live := []; next := 0; budget := b |}.

(** * Theorems *)

(** ** A failed allocation *)

(** When the heap runs out at one of the twelve allocations,
    [subspace2D_alloc] calls the error handler once, with the message of
    that allocation and [GSL_ENOMEM], and returns the null pointer; the
    blocks of the allocations before it stay allocated, and no pointer to
    them is returned. *)
Theorem alloc_failure_leaks (n p : nat) (h : heap) :
  budget h < 12 ->
  subspace2D_alloc n p h
  = (None,
     {| live := rev (seq (next h) (budget h)) ++ live h;
        next := budget h + next h;
        budget := 0 |},
     [Subspace2D.GslError (nth (budget h) reasons ""%string) GSL_ENOMEM]).
Proof.
  destruct h as [l nx b]. cbn [budget next live]. intro Hb.
  do 12 (destruct b as [|b]; [vm_compute; reflexivity|]). lia.
Qed.

(** ** A successful allocation *)

(** The run of a call that finds twelve allocations. *)
Lemma alloc_run (n0 p0 : nat) (l : list nat) (nx b : nat) :
  subspace2D_alloc n0 p0 {| live := l; next := nx; budget := 12 + b |}
  = (Some (nx,
           {| n := n0; p := p0; dx_gn := Some (1 + nx);
              dx_sd := Some (2 + nx); workp := Some (3 + nx);
              workn := Some (4 + nx); W := Some (5 + nx);
              J := Some (6 + nx); tau := Some (7 + nx);
              subg := Some (8 + nx); subB := Some (9 + nx);
              perm := Some (10 + nx); rank := 0;
              poly_p := Some (11 + nx) |}),
     {| live := rev (seq nx 12) ++ l; next := 12 + nx; budget := b |},
     []).
Proof. vm_compute. reflexivity. Qed.

(** With twelve allocations left the call returns a state in a fresh block:
    [n] and [p] are the arguments, [rank] is zero, the eleven pointers are
    the eleven blocks that follow the block of the state, and no error
    handler is called. *)
Theorem alloc_success (n0 p0 : nat) (h : heap) :
  12 <= budget h ->
  exists state h',
    subspace2D_alloc n0 p0 h = (Some (next h, state), h', [])
    /\ n state = n0 /\ p state = p0 /\ rank state = 0
    /\ pointers state = map Some (seq (S (next h)) 11)
    /\ live h' = rev (seq (next h) 12) ++ live h
    /\ next h' = 12 + next h
    /\ budget h' = budget h - 12.
Proof.
  destruct h as [l nx b]. cbn [budget next live]. intro Hb.
  pose proof (alloc_run n0 p0 l nx (b - 12)) as Hrun.
  replace (12 + (b - 12)) with b in Hrun by lia.
  do 2 eexists. split; [exact Hrun|].
  cbn [n p rank live next budget]. repeat split.
Qed.

(** ** Allocation and release *)

Lemma remove_filter (q : nat) (l : list nat) :
  remove Nat.eq_dec q l = filter (fun x => negb (x =? q)) l.
Proof.
  induction l as [|x t IH]; cbn; [reflexivity|].
  destruct (Nat.eq_dec q x) as [->|Hne].
  - rewrite Nat.eqb_refl. exact IH.
  - replace (x =? q) with false by (symmetry; apply Nat.eqb_neq; lia).
    cbn. rewrite IH. reflexivity.
Qed.

Lemma filter_filter (f g : nat -> bool) (l : list nat) :
  filter f (filter g l) = filter (fun x => g x && f x) l.
Proof.
  induction l as [|x t IH]; cbn; [reflexivity|].
  destruct (g x); cbn; [destruct (f x)|]; rewrite IH; reflexivity.
Qed.

(** Releasing the blocks [qs], in any order, as a filter. *)
Lemma release_all_filter (qs l : list nat) :
  fold_left (fun acc q => remove Nat.eq_dec q acc) qs l
  = filter (fun x => negb (existsb (Nat.eqb x) qs)) l.
Proof.
  revert l. induction qs as [|q qs IH]; intro l; cbn [fold_left existsb].
  - symmetry. apply forallb_filter_id. apply forallb_forall. reflexivity.
  - rewrite IH, remove_filter, filter_filter.
    apply filter_ext. intro x. rewrite negb_orb. reflexivity.
Qed.

Lemma release_all (qs rest l : list nat) :
  (forall x, In x rest -> In x qs) ->
  (forall x, In x l -> ~ In x qs) ->
  fold_left (fun acc q => remove Nat.eq_dec q acc) qs (rest ++ l) = l.
Proof.
  intros Hrest Hl. rewrite release_all_filter, filter_app.
  replace (filter _ rest) with (@nil nat).
  - cbn [app]. apply forallb_filter_id. apply forallb_forall.
    intros x Hx. apply negb_true_iff.
    destruct (existsb (Nat.eqb x) qs) eqn:E; [|reflexivity].
    apply existsb_exists in E. destruct E as (y & Hy & Exy).
    apply Nat.eqb_eq in Exy. subst y. destruct (Hl x Hx Hy).
  - symmetry. induction rest as [|x t IH]; [reflexivity|].
    cbn [filter].
    replace (existsb (Nat.eqb x) qs) with true.
    + cbn [negb]. apply IH. intros y Hy. apply Hrest. right; exact Hy.
    + symmetry. apply existsb_exists. exists x.
      split; [apply Hrest; left; reflexivity|apply Nat.eqb_refl].
Qed.

(** [subspace2D_free] on the state of a successful [subspace2D_alloc]
    releases the twelve blocks of the allocation and no other: the live
    blocks are those from before the allocation. *)
Theorem alloc_free_balanced (n0 p0 : nat) (h : heap) :
  well_formed h ->
  12 <= budget h ->
  exists vstate state h',
    subspace2D_alloc n0 p0 h = (Some (vstate, state), h', [])
    /\ live (subspace2D_free vstate state h') = live h.
Proof.
  destruct h as [l nx b]. unfold well_formed. cbn [budget next live].
  intros Hwf Hb.
  pose proof (alloc_run n0 p0 l nx (b - 12)) as Hrun.
  replace (12 + (b - 12)) with b in Hrun by lia.
  do 3 eexists. split; [exact Hrun|].
  cbn [subspace2D_free if_set gsl_vector_free gsl_matrix_free
       gsl_permutation_free gsl_poly_complex_workspace_free free release
       live dx_gn dx_sd workp workn W J tau subg subB perm poly_p].
  set (qs := seq (S nx) 11 ++ [nx]).
  change (fold_left (fun acc q => remove Nat.eq_dec q acc) qs
            (rev (seq nx 12) ++ l) = l).
  apply release_all.
  - intros x Hx. apply in_rev in Hx. rewrite ?rev_involutive in Hx.
    apply in_seq in Hx. unfold qs. apply in_or_app.
    destruct (Nat.eq_dec x nx) as [->|Hne].
    + right. left. reflexivity.
    + left. apply in_seq. lia.
  - intros x Hx Hq. apply Hwf in Hx. unfold qs in Hq.
    apply in_app_or in Hq. destruct Hq as [Hq|[Hq|[]]].
    + apply in_seq in Hq. lia.
    + lia.
Qed.

(** ** The theorems on an empty heap *)

(** The heap runs out at the allocation of [W]. *)
Lemma alloc_failure_leaks_witness :
  subspace2D_alloc 3 2 (empty_heap 5)
  = (None,
     {| live := rev (seq 0 5) ++ []; next := 5 + 0; budget := 0 |},
     [Subspace2D.GslError (nth 5 reasons ""%string) GSL_ENOMEM]).
Proof. apply (alloc_failure_leaks 3 2 (empty_heap 5)). cbn. lia. Defined.

Lemma alloc_success_witness :
  exists state h',
    subspace2D_alloc 3 2 (empty_heap 12) = (Some (0, state), h', [])
    /\ n state = 3 /\ p state = 2 /\ rank state = 0
    /\ pointers state = map Some (seq 1 11)
    /\ live h' = rev (seq 0 12) ++ []
    /\ next h' = 12 + 0
    /\ budget h' = 12 - 12.
Proof. apply (alloc_success 3 2 (empty_heap 12)). cbn. lia. Defined.

Lemma alloc_free_balanced_witness :
  exists vstate state h',
    subspace2D_alloc 3 2 (empty_heap 12) = (Some (vstate, state), h', [])
    /\ live (subspace2D_free vstate state h') = live (empty_heap 12).
Proof.
  apply (alloc_free_balanced 3 2 (empty_heap 12)).
  - intros q Hq. destruct Hq.
  - cbn. lia.
Defined.

End Subspace2DAlloc.
